(** * RangeService (angular-onselect): selection processing over a DOM model

    The module [src/range.service.js] is a thin adapter over the browser's
    selection and range interfaces.  The development below embeds

    - the host objects the service talks to: a forest of DOM nodes (text and
      element nodes carrying an identity), live [Range] objects, and the
      window selection, with the mutation algorithms of the DOM Standard
      that the service triggers (split text, replace data, insert, remove,
      [setStart]/[setEnd], [surroundContents], [toString]);
    - the service itself: [process] and the five methods of a [Selection]
      value ([isHighlighted], [snapToWord], [highlight], [removeHighlight],
      [getText]), written as state-and-exception computations. *)

From Stdlib Require Import String Ascii.
From stdpp Require Import base option list strings.

Set Default Proof Using "Type".
Set Warnings "-register-all".

(** ** Host data: nodes *)

Definition NodeId := nat.

(** Inline style declarations of an element ([node.style]): property name
    and value, most recent assignment first. *)
Definition Style := list (string * string).

Definition setProperty (name value : string) (st : Style) : Style :=
  (name, value) :: filter (λ kv, kv.1 ≠ name) st.

Definition getProperty (name : string) (st : Style) : option string :=
  snd <$> head (filter (λ kv, kv.1 = name) st).

(** A node of the document: a [Text] node with its character data, or an
    [Element] with its tag, inline style and child list.  The first field
    is the identity of the JavaScript object ([===] compares it). *)
Inductive Node : Type :=
| Text (id : NodeId) (data : string)
| Element (id : NodeId) (tagName : string) (style : Style) (kids : list Node).

Definition nid (n : Node) : NodeId :=
  match n with Text i _ => i | Element i _ _ _ => i end.

Definition childNodes (n : Node) : list Node :=
  match n with Text _ _ => [] | Element _ _ _ cs => cs end.

Definition setChildNodes (cs : list Node) (n : Node) : Node :=
  match n with Text _ _ => n | Element i t s _ => Element i t s cs end.

Definition setData (d : string) (n : Node) : Node :=
  match n with Text i _ => Text i d | Element _ _ _ _ => n end.

Definition setStyle (f : Style → Style) (n : Node) : Node :=
  match n with Text _ _ => n | Element i t s cs => Element i t (f s) cs end.

Definition isText (n : Node) : bool :=
  match n with Text _ _ => true | Element _ _ _ _ => false end.

Definition concatText (l : list string) : string :=
  foldr String.append EmptyString l.

(** [node.textContent]: the data of a text node, the concatenated data of
    the text descendants of an element, in tree order. *)
Fixpoint textContent (n : Node) : string :=
  match n with
  | Text _ d => d
  | Element _ _ _ cs => concatText (map textContent cs)
  end.

(** The DOM's notion of a node's length: code units of a text node,
    children of an element. *)
Definition nodeLength (n : Node) : nat :=
  match n with
  | Text _ d => String.length d
  | Element _ _ _ cs => length cs
  end.

(** The JavaScript property [node.length]: defined on character data only;
    on an element the property is absent ([undefined]). *)
Definition lengthProperty (n : Node) : option nat :=
  match n with
  | Text _ d => Some (String.length d)
  | Element _ _ _ _ => None
  end.

(** Identities occurring in a subtree, in tree order. *)
Fixpoint ids (n : Node) : list NodeId :=
  match n with
  | Text i _ => [i]
  | Element i _ _ cs => i :: concat (map ids cs)
  end.

Definition idsL (ns : list Node) : list NodeId := concat (map ids ns).

(** Number of element nodes strictly below the roots of a forest, that is,
    of elements that have a parent. *)
Fixpoint elementCount (n : Node) : nat :=
  match n with
  | Text _ _ => 0
  | Element _ _ _ cs => 1 + sum_list (map elementCount cs)
  end.


(** ** Paths: child indices from the forest down to a node *)

Definition Path := list nat.

(** The node reached from [n] by following the child indices [q]. *)
Fixpoint descend (q : Path) (n : Node) : option Node :=
  match q with
  | [] => Some n
  | k :: q' => childNodes n !! k ≫= descend q'
  end.

(** The node at a path: the first index selects a tree of the forest. *)
Definition getAt (p : Path) (ns : list Node) : option Node :=
  match p with
  | [] => None
  | k :: q => ns !! k ≫= descend q
  end.

(** Rewrites with [f] the node reached from [n] along [q]. *)
Fixpoint modNode (q : Path) (f : Node → Node) (n : Node) : Node :=
  match q with
  | [] => f n
  | k :: q' => setChildNodes (alter (modNode q' f) k (childNodes n)) n
  end.

(** Rewrites the node at path [p] with [f]. *)
Definition modAt (p : Path) (f : Node → Node) (ns : list Node) : list Node :=
  match p with
  | [] => ns
  | k :: q => alter (modNode q f) k ns
  end.

Definition findInList (f : Node → option Path) : list Node → nat → option Path :=
  fix go (ns : list Node) (k : nat) : option Path :=
    match ns with
    | [] => None
    | n :: ns' =>
        match f n with
        | Some p => Some (k :: p)
        | None => go ns' (S k)
        end
    end.

(** Path from [n] down to the first node, in tree order, whose identity is
    [x]. *)
Fixpoint findIn (x : NodeId) (n : Node) : option Path :=
  if decide (nid n = x) then Some []
  else match n with
       | Text _ _ => None
       | Element _ _ _ cs => findInList (findIn x) cs 0
       end.

Definition findPath (x : NodeId) (rs : list Node) : option Path :=
  findInList (findIn x) rs 0.

(** Splits a non-empty path into the path of the parent and the index. *)
Definition splitLast (p : Path) : option (Path * nat) :=
  match reverse p with
  | [] => None
  | k :: q => Some (reverse q, k)
  end.

(** Order of boundary points.  A boundary point [(node, offset)] is
    represented by the path of its node followed by the offset; the DOM's
    "position of a boundary point relative to another" is then the
    lexicographic order in which a proper prefix comes first. *)
Fixpoint lexCompare (a b : list nat) : comparison :=
  match a, b with
  | [], [] => Eq
  | [], _ :: _ => Lt
  | _ :: _, [] => Gt
  | x :: a', y :: b' =>
      match Nat.compare x y with
      | Eq => lexCompare a' b'
      | c => c
      end
  end.

(** ** Host data: ranges, the window selection, the world *)

(** A live [Range] object: two boundary points, each a node and an offset
    into it. *)
Record Range : Type := mkRange {
  startContainer : NodeId;
  startOffset : nat;
  endContainer : NodeId;
  endOffset : nat
}.

Definition Boundary : Type := NodeId * nat.

Definition mapBoundaries (f : Boundary → Boundary) (rg : Range) : Range :=
  let s := f (startContainer rg, startOffset rg) in
  let e := f (endContainer rg, endOffset rg) in
  mkRange s.1 s.2 e.1 e.2.

(** The host state: every node tree (the document's and the trees of
    parentless nodes), the next unused identity, the live [Range] objects
    (a handle to one is its index) and the ranges of [window.getSelection()]
    as handles. *)
Record World : Type := mkWorld {
  roots : list Node;
  nextId : NodeId;
  ranges : list Range;
  windowSelection : list nat
}.

Definition setRoots (rs : list Node) (w : World) : World :=
  mkWorld rs (nextId w) (ranges w) (windowSelection w).

Definition setRanges (rgs : list Range) (w : World) : World :=
  mkWorld (roots w) (nextId w) rgs (windowSelection w).

(** A mutation of the tree moves the boundary points of every live range. *)
Definition liveRangeUpdate (f : Boundary → Boundary) (w : World) : World :=
  setRanges (map (mapBoundaries f) (ranges w)) w.

(** ** Computations: state and exceptions *)

(** [Unmodelled] marks the places the model does not cover: a handle that
    names no object (impossible for a JavaScript reference) and the
    branches of a host algorithm that the service never reaches. *)
Inductive Exception : Type :=
| IndexSizeError
| HierarchyRequestError
| NotFoundError
| InvalidNodeTypeError
| InvalidCharacterError
| TypeError
| Unmodelled.

(** A computation over a state [S]: it ends normally with a value or
    abruptly with an exception, and in both cases leaves a state behind. *)
Definition M (S A : Type) : Type := S → (Exception + A) * S.

Definition ret {S A} (a : A) : M S A := λ s, (inr a, s).

Definition throw {S A} (e : Exception) : M S A := λ s, (inl e, s).

Definition bind {S A B} (m : M S A) (k : A → M S B) : M S B :=
  λ s, match m s with
       | (inl e, s') => (inl e, s')
       | (inr a, s') => k a s'
       end.

Definition gets {S A} (f : S → A) : M S A := λ s, (inr (f s), s).

Definition modify {S} (f : S → S) : M S unit := λ s, (inr tt, f s).

Definition fromOption {S A} (e : Exception) (o : option A) : M S A :=
  match o with Some a => ret a | None => throw e end.

Notation "'let*' x ':=' m 'in' k" := (bind m (λ x, k))
  (at level 10, x name, m at level 100, k at level 200).

(** ** Host operations on nodes *)

Definition pathOf (x : NodeId) : M World Path :=
  λ w, fromOption Unmodelled (findPath x (roots w)) w.

Definition nodeAtPath (p : Path) : M World Node :=
  λ w, fromOption Unmodelled (getAt p (roots w)) w.

Definition nodeOf (x : NodeId) : M World Node :=
  let* p := pathOf x in nodeAtPath p.

(** Path of the parent and index among its children; [None] for a
    parentless node. *)
Definition parentAndIndex (x : NodeId) : M World (option (Path * nat)) :=
  let* p := pathOf x in
  match splitLast p with
  | Some ([], _) => ret None
  | Some (pp, k) => ret (Some (pp, k))
  | None => throw Unmodelled
  end.

(** [node.parentNode] ([None] is [null]). *)
Definition parentNode (x : NodeId) : M World (option NodeId) :=
  let* pk := parentAndIndex x in
  match pk with
  | None => ret None
  | Some (pp, _) => let* P := nodeAtPath pp in ret (Some (nid P))
  end.

(** [node.firstChild]. *)
Definition firstChild (x : NodeId) : M World (option NodeId) :=
  let* n := nodeOf x in ret (nid <$> head (childNodes n)).

Definition freshId : M World NodeId :=
  λ w, (inr (nextId w),
        mkWorld (roots w) (S (nextId w)) (ranges w) (windowSelection w)).

Definition addRoot (n : Node) : M World unit :=
  modify (λ w, setRoots (roots w ++ [n]) w).

Definition isAsciiAlpha (c : ascii) : bool :=
  let n := nat_of_ascii c in
  bool_decide (65 ≤ n ≤ 90) || bool_decide (97 ≤ n ≤ 122).

Definition isAsciiDigit (c : ascii) : bool :=
  let n := nat_of_ascii c in bool_decide (48 ≤ n ≤ 57).

Definition isNameChar (c : ascii) : bool :=
  let n := nat_of_ascii c in
  isAsciiAlpha c || isAsciiDigit c || bool_decide (n ∈ [45; 46; 58; 95])
  || bool_decide (128 ≤ n).

(** "Valid element local name" of the DOM Standard, on 8-bit code units. *)
Definition validElementName (s : string) : bool :=
  match s with
  | EmptyString => false
  | String c rest =>
      if isAsciiAlpha c
      then forallb (λ d, bool_decide (nat_of_ascii d ∉ [0; 9; 10; 12; 13; 32; 47; 62]))
             (list_ascii_of_string s)
      else (bool_decide (nat_of_ascii c ∈ [58; 95]) || bool_decide (128 ≤ nat_of_ascii c))
           && forallb isNameChar (list_ascii_of_string rest)
  end.

(** [document.createElement(tag)]: a new parentless, childless element. *)
Definition createElement (tag : string) : M World NodeId :=
  if validElementName tag then
    let* i := freshId in
    let* _ := addRoot (Element i tag [] []) in
    ret i
  else throw InvalidCharacterError.

(** A new parentless text node. *)
Definition createText (data : string) : M World NodeId :=
  let* i := freshId in
  let* _ := addRoot (Text i data) in
  ret i.

(** Live ranges when [count] children are about to be inserted into
    [parent] before its child of index [index]. *)
Definition insertShift (parent : NodeId) (index : nat) (b : Boundary) : Boundary :=
  if decide (b.1 = parent ∧ index < b.2) then (b.1, S b.2) else b.

(** Live ranges when the subtree [sub], child [index] of [parent], is
    removed: boundary points inside it move to where it was, and offsets
    of [parent] after it shift down. *)
Definition removeCollapse (sub : list NodeId) (parent : NodeId) (index : nat)
    (b : Boundary) : Boundary :=
  if decide (b.1 ∈ sub) then (parent, index) else b.

Definition removeShift (parent : NodeId) (index : nat) (b : Boundary) : Boundary :=
  if decide (b.1 = parent ∧ index < b.2) then (b.1, b.2 - 1) else b.

(** The DOM's "remove" of a node that has a parent; the node becomes the
    root of a tree of its own. *)
Definition removeNode (x : NodeId) : M World unit :=
  let* pk := parentAndIndex x in
  match pk with
  | None => throw Unmodelled
  | Some (pp, k) =>
      let* P := nodeAtPath pp in
      let* n := nodeOf x in
      let* _ := modify (liveRangeUpdate (removeCollapse (ids n) (nid P) k)) in
      let* _ := modify (liveRangeUpdate (removeShift (nid P) k)) in
      let* _ := modify (λ w, setRoots
                  (modAt pp (setChildNodes (delete k (childNodes P))) (roots w)) w) in
      addRoot n
  end.

(** Index of [child] among the children of [parent]; [None] stands for a
    [null] child and yields the number of children. *)
Definition indexBefore (parent : NodeId) (child : option NodeId) : M World nat :=
  match child with
  | None => let* P := nodeOf parent in ret (length (childNodes P))
  | Some c =>
      let* pk := parentAndIndex c in
      match pk with
      | Some (_, k) => ret k
      | None => throw Unmodelled
      end
  end.

(** The DOM's "insert [x] into [parent] before [child]" for a single node:
    live ranges after the insertion point shift, [x] is adopted (removed
    from its parent if it has one) and placed. *)
Definition insertNode (x parent : NodeId) (child : option NodeId) : M World unit :=
  let* _ := match child with
            | None => ret tt
            | Some _ =>
                let* k := indexBefore parent child in
                modify (liveRangeUpdate (insertShift parent k))
            end in
  let* pk := parentAndIndex x in
  let* _ := match pk with None => ret tt | Some _ => removeNode x end in
  let* px := pathOf x in
  let* n := nodeAtPath px in
  let* _ := modify (λ w, setRoots (delete (default 0 (head px)) (roots w)) w) in
  let* k := indexBefore parent child in
  let* pp := pathOf parent in
  let* P := nodeAtPath pp in
  modify (λ w, setRoots
    (modAt pp (setChildNodes (take k (childNodes P) ++ n :: drop k (childNodes P)))
       (roots w)) w).

(** "Ensure pre-insert validity" for the node kinds of the model. *)
Definition ensurePreInsertValidity (x parent : NodeId) (child : option NodeId)
    : M World unit :=
  let* pp := pathOf parent in
  let* P := nodeAtPath pp in
  if isText P then throw HierarchyRequestError else
  let* px := pathOf x in
  if decide (px `prefix_of` pp) then throw HierarchyRequestError else
  match child with
  | None => ret tt
  | Some c =>
      let* pk := parentAndIndex c in
      match pk with
      | Some (pcp, _) => if decide (pcp = pp) then ret tt else throw NotFoundError
      | None => throw NotFoundError
      end
  end.

(** [parent.insertBefore(x, child)] with a non-null [child] other than
    [x]; a [null] receiver is a [TypeError]. *)
Definition insertBefore (parent : option NodeId) (x child : NodeId) : M World unit :=
  match parent with
  | None => throw TypeError
  | Some parent =>
      let* _ := ensurePreInsertValidity x parent (Some child) in
      if decide (x = child) then throw Unmodelled
      else insertNode x parent (Some child)
  end.

(** [parent.removeChild(child)]. *)
Definition removeChild (parent : option NodeId) (child : NodeId) : M World unit :=
  match parent with
  | None => throw TypeError
  | Some parent =>
      let* q := parentNode child in
      if decide (q = Some parent) then removeNode child else throw NotFoundError
  end.

(** ** Host operations on ranges *)

Definition rangeObj (r : nat) : M World Range :=
  λ w, fromOption Unmodelled (ranges w !! r) w.

Definition putRange (r : nat) (rg : Range) : M World unit :=
  modify (λ w, setRanges (<[r := rg]> (ranges w)) w).

(** [windowSelection.getRangeAt(index)]. *)
Definition getRangeAt (index : nat) : M World nat :=
  λ w, fromOption IndexSizeError (windowSelection w !! index) w.

(** [range.setStart(x, offset)]: the DOM's "set the start". *)
Definition setStart (r : nat) (x : NodeId) (offset : nat) : M World unit :=
  let* p := pathOf x in
  let* n := nodeAtPath p in
  if decide (nodeLength n < offset) then throw IndexSizeError else
  let* rg := rangeObj r in
  let* pe := pathOf (endContainer rg) in
  if decide (head pe ≠ head p
             ∨ lexCompare (p ++ [offset]) (pe ++ [endOffset rg]) = Gt)
  then putRange r (mkRange x offset x offset)
  else putRange r (mkRange x offset (endContainer rg) (endOffset rg)).

(** [range.setEnd(x, offset)]: the DOM's "set the end". *)
Definition setEnd (r : nat) (x : NodeId) (offset : nat) : M World unit :=
  let* p := pathOf x in
  let* n := nodeAtPath p in
  if decide (nodeLength n < offset) then throw IndexSizeError else
  let* rg := rangeObj r in
  let* ps := pathOf (startContainer rg) in
  if decide (head ps ≠ head p
             ∨ lexCompare (p ++ [offset]) (ps ++ [startOffset rg]) = Lt)
  then putRange r (mkRange x offset x offset)
  else putRange r (mkRange (startContainer rg) (startOffset rg) x offset).

Definition flatMapi {A B} (f : nat → A → list B) : list A → nat → list B :=
  fix go (l : list A) (k : nat) : list B :=
    match l with
    | [] => []
    | a :: l' => f k a ++ go l' (S k)
    end.

(** The text nodes of the subtree [n] rooted at path [p], in tree order,
    each with its path and data. *)
Fixpoint textNodesFrom (p : Path) (n : Node) : list (Path * string) :=
  match n with
  | Text _ d => [(p, d)]
  | Element _ _ _ cs => flatMapi (λ k c, textNodesFrom (p ++ [k]) c) cs 0
  end.

(** A text node at path [q] is contained in a range when its start
    [(q, 0)] is after the range's start and its end is before the range's
    end. *)
Definition containedText (ps : Path) (so : nat) (pe : Path) (eo : nat)
    (qd : Path * string) : bool :=
  bool_decide (lexCompare (qd.1 ++ [0]) (ps ++ [so]) = Gt
               ∧ lexCompare (qd.1 ++ [String.length qd.2]) (pe ++ [eo]) = Lt).

(** [range.toString()]. *)
Definition toString (r : nat) : M World string :=
  let* rg := rangeObj r in
  let* ps := pathOf (startContainer rg) in
  let* sn := nodeAtPath ps in
  let* pe := pathOf (endContainer rg) in
  let* en := nodeAtPath pe in
  let so := startOffset rg in
  let eo := endOffset rg in
  if bool_decide (startContainer rg = endContainer rg) && isText sn
  then ret (String.substring so (eo - so) (textContent sn))
  else
    let* root := nodeAtPath (take 1 ps) in
    let inside := filter (λ qd, containedText ps so pe eo qd)
                    (textNodesFrom (take 1 ps) root) in
    ret ((if isText sn
          then String.substring so (nodeLength sn - so) (textContent sn)
          else EmptyString)
         +:+ concatText (inside.*2)
         +:+ (if isText en
              then String.substring 0 eo (textContent en)
              else EmptyString)).

(** Live ranges under the DOM's "replace data" of the text node [x]. *)
Definition replaceCollapse (x : NodeId) (offset count : nat) (b : Boundary) : Boundary :=
  if decide (b.1 = x ∧ offset < b.2 ≤ offset + count) then (x, offset) else b.

Definition replaceShift (x : NodeId) (offset count len : nat) (b : Boundary) : Boundary :=
  if decide (b.1 = x ∧ offset + count < b.2) then (x, b.2 + len - count) else b.

(** The DOM's "replace data" on a text node. *)
Definition replaceData (x : NodeId) (offset count : nat) (data : string)
    : M World unit :=
  let* p := pathOf x in
  let* n := nodeAtPath p in
  match n with
  | Element _ _ _ _ => throw Unmodelled
  | Text _ d =>
      let len := String.length d in
      if decide (len < offset) then throw IndexSizeError else
      let count := if decide (len < offset + count) then len - offset else count in
      let d' := String.substring 0 offset d +:+ data
                +:+ String.substring (offset + count) (len - (offset + count)) d in
      let* _ := modify (λ w, setRoots (modAt p (setData d') (roots w)) w) in
      let* _ := modify (liveRangeUpdate (replaceCollapse x offset count)) in
      modify (liveRangeUpdate (replaceShift x offset count (String.length data)))
  end.

(** Live ranges under the DOM's "split a Text node". *)
Definition splitMove (x new : NodeId) (offset : nat) (b : Boundary) : Boundary :=
  if decide (b.1 = x ∧ offset < b.2) then (new, b.2 - offset) else b.

Definition splitBump (parent : NodeId) (index : nat) (b : Boundary) : Boundary :=
  if decide (b.1 = parent ∧ b.2 = S index) then (b.1, S b.2) else b.

(** The DOM's "split a Text node" [x] at [offset]; returns the new node. *)
Definition splitText (x : NodeId) (offset : nat) : M World NodeId :=
  let* n := nodeOf x in
  match n with
  | Element _ _ _ _ => throw Unmodelled
  | Text _ d =>
      let len := String.length d in
      if decide (len < offset) then throw IndexSizeError else
      let count := len - offset in
      let* new := createText (String.substring offset count d) in
      let* pk := parentAndIndex x in
      let* _ := match pk with
                | None => ret tt
                | Some (pp, k) =>
                    let* P := nodeAtPath pp in
                    let* _ := insertNode new (nid P)
                                (nid <$> childNodes P !! S k) in
                    let* _ := modify (liveRangeUpdate (splitMove x new offset)) in
                    modify (liveRangeUpdate (splitBump (nid P) k))
                end in
      let* _ := replaceData x offset count EmptyString in
      ret new
  end.

(** The DOM's "extract" of a range whose boundary points share their
    container: the extracted nodes, which are left as parentless trees,
    stand for the children of the returned document fragment. *)
Fixpoint extractChildren (c : NodeId) (index count : nat) : M World (list NodeId) :=
  match count with
  | 0 => ret []
  | S count' =>
      let* n := nodeOf c in
      match childNodes n !! index with
      | None => throw Unmodelled
      | Some child =>
          let* _ := removeNode (nid child) in
          let* rest := extractChildren c index count' in
          ret (nid child :: rest)
      end
  end.

Definition extractContents (r : nat) : M World (list NodeId) :=
  let* rg := rangeObj r in
  let c := startContainer rg in
  let i := startOffset rg in
  let j := endOffset rg in
  if decide (c ≠ endContainer rg) then throw Unmodelled else
  if decide (i = j) then ret [] else
  let* n := nodeOf c in
  match n with
  | Text _ d =>
      if decide (String.length d < i) then throw IndexSizeError else
      let* clone := createText (String.substring i (j - i) d) in
      let* _ := replaceData c i (j - i) EmptyString in
      ret [clone]
  | Element _ _ _ _ =>
      let* fragment := extractChildren c i (j - i) in
      let* _ := putRange r (mkRange c i c i) in
      ret fragment
  end.

(** The DOM's "insert a node into a range", for a parentless node [x]. *)
Definition insertIntoRange (r : nat) (x : NodeId) : M World unit :=
  let* rg := rangeObj r in
  let c := startContainer rg in
  let* cn := nodeOf c in
  let* pk := parentAndIndex c in
  if bool_decide (c = x) || (isText cn && bool_decide (pk = None))
  then throw HierarchyRequestError else
  let* refParent :=
    (if isText cn then
       match pk with
       | Some (pp, _) => let* P := nodeAtPath pp in ret (Some c, nid P)
       | None => throw Unmodelled
       end
     else ret (nid <$> childNodes cn !! startOffset rg, c)) in
  let parent := refParent.2 in
  let* _ := ensurePreInsertValidity x parent refParent.1 in
  let* reference :=
    (if isText cn
     then let* new := splitText c (startOffset rg) in ret (Some new)
     else ret refParent.1) in
  let* k := indexBefore parent reference in
  let newOffset := S k in
  let* _ := insertNode x parent reference in
  let* rg' := rangeObj r in
  if bool_decide (startContainer rg' = endContainer rg'
                  ∧ startOffset rg' = endOffset rg')
  then putRange r (mkRange (startContainer rg') (startOffset rg') parent newOffset)
  else ret tt.

(** Appends each node of a fragment to [parent]. *)
Fixpoint appendAll (fragment : list NodeId) (parent : NodeId) : M World unit :=
  match fragment with
  | [] => ret tt
  | x :: rest =>
      let* _ := insertNode x parent None in
      appendAll rest parent
  end.

(** The DOM's "select a node within a range". *)
Definition selectNode (r : nat) (x : NodeId) : M World unit :=
  let* pk := parentAndIndex x in
  match pk with
  | None => throw InvalidNodeTypeError
  | Some (pp, k) =>
      let* P := nodeAtPath pp in
      putRange r (mkRange (nid P) k (nid P) (S k))
  end.

(** [range.surroundContents(newParent)], for a range whose boundary points
    share their container (no node is then partially contained) and a
    [newParent] that is a parentless element without children: the only
    calls [highlight] makes. *)
Definition surroundContents (r : nat) (newParent : NodeId) : M World unit :=
  let* np := nodeOf newParent in
  let* pk := parentAndIndex newParent in
  if isText np || bool_decide (childNodes np ≠ []) || bool_decide (pk ≠ None)
  then throw Unmodelled else
  let* fragment := extractContents r in
  let* _ := insertIntoRange r newParent in
  let* _ := appendAll fragment newParent in
  selectNode r newParent.

(** ** The service: [Selection] values *)

(** The fields of the object built by [Selection(range)]: the handle of the
    range and [_highlighter], the element wrapped around the highlighted
    text ([None] is [undefined]).  The five methods close over this object
    and over the same range handle. *)
Record SelectionObj : Type := mkSelection {
  range : nat;
  _highlighter : option NodeId
}.

(** State seen by a method: the host world and the selection object. *)
Record St : Type := mkSt {
  host : World;
  this : SelectionObj
}.

Definition liftHost {A} (m : M World A) : M St A :=
  λ s, let (o, w) := m (host s) in (o, mkSt w (this s)).

Definition setHighlighter (h : option NodeId) : M St unit :=
  modify (λ s, mkSt (host s) (mkSelection (range (this s)) h)).

Definition Selection (range : nat) : SelectionObj := mkSelection range None.

(** [!!selection._highlighter]. *)
Definition isHighlighted (s : St) : bool :=
  match _highlighter (this s) with Some _ => true | None => false end.

(** [text.charAt(i) != ' '] (past the end [charAt] is the empty string). *)
Definition notSpace (text : string) (i : nat) : bool :=
  bool_decide (String.get i text ≠ Some " "%char).

(** [while (text.charAt(start) != ' ' && start > 0) start--]. *)
Fixpoint walkBack (text : string) (start : nat) : nat :=
  match start with
  | 0 => 0
  | S start' => if notSpace text start then walkBack text start' else start
  end.

Definition snapStart (text : string) (start0 : nat) : nat :=
  let start := walkBack text start0 in
  if bool_decide (start ≠ 0) && bool_decide (start ≠ start0)
  then S start else start.

(** [while (text.charAt(end) != ' ' && end < len) end++], unrolled at most
    [fuel] times. *)
Fixpoint walkForward (fuel : nat) (text : string) (len : nat) (end_ : nat) : nat :=
  match fuel with
  | 0 => end_
  | S fuel' =>
      if notSpace text end_ && bool_decide (end_ < len)
      then walkForward fuel' text len (S end_)
      else end_
  end.

(** The loop on the end offset; [end < undefined] is false, so without a
    [length] property the loop body never runs. *)
Definition snapEnd (text : string) (len : option nat) (end0 : nat) : nat :=
  match len with
  | None => end0
  | Some len => walkForward (len - end0) text len end0
  end.

Definition snapToWord : M St unit :=
  let* r := gets (λ s, range (this s)) in
  let* rg := liftHost (rangeObj r) in
  let startNode := startContainer rg in
  let* sn := liftHost (nodeOf startNode) in
  let start := snapStart (textContent sn) (startOffset rg) in
  let endNode := endContainer rg in
  let* en := liftHost (nodeOf endNode) in
  let end_ := snapEnd (textContent en) (lengthProperty en) (endOffset rg) in
  let* _ := liftHost (setStart r startNode start) in
  liftHost (setEnd r endNode end_).

(** The callback handed to [highlight]: it decorates the element it is
    given (styles, classes, attributes). *)
Definition Decorator := Style → Style.

Definition decorate (x : NodeId) (decorator : Decorator) : M World unit :=
  let* p := pathOf x in
  modify (λ w, setRoots (modAt p (setStyle decorator) (roots w)) w).

(** [while (h.firstChild) parent.insertBefore(h.firstChild, h)], unrolled
    at most [fuel] times. *)
Fixpoint unwrapLoop (fuel : nat) (parent : option NodeId) (h : NodeId)
    : M World unit :=
  let* c := firstChild h in
  match c with
  | None => ret tt
  | Some c =>
      match fuel with
      | 0 => throw Unmodelled
      | S fuel' =>
          let* _ := insertBefore parent c h in
          unwrapLoop fuel' parent h
      end
  end.

Definition removeHighlight : M St unit :=
  let* h := gets (λ s, _highlighter (this s)) in
  match h with
  | None => ret tt
  | Some h =>
      let* parent := liftHost (parentNode h) in
      let* n := liftHost (nodeOf h) in
      let* _ := liftHost (unwrapLoop (length (childNodes n)) parent h) in
      let* _ := liftHost (removeChild parent h) in
      setHighlighter None
  end.

Definition highlight (tag : string) (decorator : Decorator) : M St unit :=
  let* h := gets (λ s, _highlighter (this s)) in
  let* _ := (match h with Some _ => removeHighlight | None => ret tt end) in
  let* r := gets (λ s, range (this s)) in
  let* rg := liftHost (rangeObj r) in
  if decide (startContainer rg = endContainer rg) then
    let* e := liftHost (createElement tag) in
    let* _ := setHighlighter (Some e) in
    let* _ := liftHost (decorate e decorator) in
    liftHost (surroundContents r e)
  else ret tt.

Definition getText : M St string :=
  let* r := gets (λ s, range (this s)) in
  liftHost (toString r).

(** ** The service: [process] *)

(** Values an option may hold, and JavaScript's conversion to a boolean. *)
Inductive JSValue : Type :=
| JSUndefined
| JSNull
| JSBool (b : bool)
| JSNumber (n : Z)
| JSNaN
| JSString (s : string)
| JSObject.

Definition truthy (v : JSValue) : bool :=
  match v with
  | JSUndefined | JSNull | JSNaN => false
  | JSBool b => b
  | JSNumber n => bool_decide (n ≠ 0%Z)
  | JSString s => bool_decide (s ≠ EmptyString)
  | JSObject => true
  end.

Record Options : Type := mkOptions {
  optSnapToWord : JSValue;
  optHighlight : JSValue
}.

(** [function (node) { node.style.background = 'yellow'; }]. *)
Definition yellowBackground : Decorator :=
  setProperty "background" "yellow".

(** Runs methods of a selection object and hands back the host world. *)
Definition withSelection {A} (sel : SelectionObj) (m : M St A) : M World A :=
  λ w, let (o, s) := m (mkSt w sel) in (o, host s).

Definition process (options : Options) : M World SelectionObj :=
  let* range := getRangeAt 0 in
  withSelection (Selection range)
    (let* _ := (if truthy (optSnapToWord options) then snapToWord else ret tt) in
     let* _ := (if truthy (optHighlight options)
                then highlight "span" yellowBackground else ret tt) in
     gets this).

(** ** Sample documents *)

(** [<p>hello world</p>] with the selection on offsets 2-5 of the text. *)
Definition helloWorld (so eo : nat) : World :=
  mkWorld [Element 0 "p" [] [Text 1 "hello world"]] 2
          [mkRange 1 so 1 eo] [0].

(** [<p>hello <b>big</b> world</p>]: a selection from inside the first text
    node to inside the last one crosses the [b] element. *)
Definition crossing : World :=
  mkWorld [Element 0 "p" []
             [Text 1 "hello "; Element 2 "b" [] [Text 3 "big"]; Text 4 " world"]]
          5 [mkRange 1 2 4 3] [0].

(** A range over characters 2-5 of a text node that has no parent. *)
Definition orphanText : World :=
  mkWorld [Text 1 "hello world"] 2 [mkRange 1 2 1 5] [].

(** ** Well-formed host states *)

(** The node a handle names. *)
Definition lookupNode (w : World) (x : NodeId) : option Node :=
  p ← findPath x (roots w); getAt p (roots w).

(** The invariant of a live range: both containers exist in one tree, the
    offsets do not exceed the containers' lengths, and the start is not
    after the end. *)
Definition validRange (w : World) (r : nat) : bool :=
  match ranges w !! r with
  | None => false
  | Some rg =>
      match findPath (startContainer rg) (roots w),
            findPath (endContainer rg) (roots w) with
      | Some ps, Some pe =>
          match getAt ps (roots w), getAt pe (roots w) with
          | Some sn, Some en =>
              bool_decide (startOffset rg ≤ nodeLength sn
                           ∧ endOffset rg ≤ nodeLength en
                           ∧ head ps = head pe
                           ∧ lexCompare (ps ++ [startOffset rg])
                                        (pe ++ [endOffset rg]) ≠ Gt)
          | _, _ => false
          end
      | _, _ => false
      end
  end.

(** ** [snapToWord] as the specification words it *)

Definition spaceAt (text : string) (k : nat) : Prop :=
  String.get k text = Some " "%char.

(** "Walk backward from the start offset while the character at that offset
    is not a space and the offset is greater than zero; if the walk stopped
    strictly inside (not at position 0 and not at the original offset),
    step forward one." *)
Definition SnapsStart (text : string) (start0 start : nat) : Prop :=
  ∃ stop,
    stop ≤ start0
    ∧ (∀ k, stop < k ≤ start0 → ¬ spaceAt text k)
    ∧ (stop = 0 ∨ spaceAt text stop)
    ∧ start = (if decide (stop ≠ 0 ∧ stop ≠ start0) then S stop else stop).

Definition belowLength (k : nat) (len : option nat) : Prop :=
  match len with Some l => k < l | None => False end.

(** "Walk forward from the end offset while the character at that offset
    is not a space and the offset is less than the node's length." *)
Definition SnapsEnd (text : string) (len : option nat) (end0 end_ : nat) : Prop :=
  end0 ≤ end_
  ∧ (∀ k, end0 ≤ k < end_ → ¬ spaceAt text k ∧ belowLength k len)
  ∧ ¬ (¬ spaceAt text end_ ∧ belowLength end_ len).


(** A method keeps the range handle of its selection object. *)
Definition keepsRange {A} (m : M St A) : Prop :=
  ∀ s o s', m s = (o, s') → range (this s') = range (this s).

(** Every identity names one node, and all were issued before [nextId]. *)
Definition wfWorld (w : World) : bool :=
  bool_decide (NoDup (idsL (roots w))
               ∧ Forall (λ i, i < nextId w) (idsL (roots w))).

(** [x] names a text node that has no parent. *)
Definition orphanTextNode (w : World) (x : NodeId) : bool :=
  match findPath x (roots w) with
  | Some [k] =>
      match roots w !! k with
      | Some (Text _ _) => true
      | _ => false
      end
  | _ => false
  end.

(** The state in which [highlight] calls [surroundContents]: the new
    element [nextId w] is a decorated root and already recorded. *)
Definition beforeSurround (w : World) (r : nat) (tag : string)
    (decorator : Decorator) : St :=
  mkSt (mkWorld (roots w ++ [Element (nextId w) tag (decorator []) []])
                (S (nextId w)) (ranges w) (windowSelection w))
       (mkSelection r (Some (nextId w))).

(** ** A forest seen from one of its elements

    [highlight] and [removeHighlight] only rearrange the children of one
    element, found at path [pp] of the forest [F0], and add parentless
    trees.  [focus F0 pp CS EXTRA] is the forest in which that element has
    the children [CS] and the trees [EXTRA] were added. *)

Definition focus (F0 : list Node) (pp : Path) (CS EXTRA : list Node) : list Node :=
  modAt pp (setChildNodes CS) F0 ++ EXTRA.

(** The identities of the element [P], of its children [CS], of the rest
    of the forest ([ctx]) and of the added trees are pairwise distinct. *)
Definition Distinct (P : NodeId) (ctx : list NodeId) (CS EXTRA : list Node) : Prop :=
  NoDup (P :: idsL CS ++ ctx ++ idsL EXTRA).

(** Identities are distinct and were all issued before [nx]. *)
Definition Good (P : NodeId) (ctx : list NodeId) (nx : NodeId)
    (CS EXTRA : list Node) : Prop :=
  Distinct P ctx CS EXTRA
  ∧ Forall (λ i, i < nx) (P :: idsL CS ++ ctx ++ idsL EXTRA).

(** * Properties *)

(** ** Computations *)

Lemma bind_inr {S A B} (m : M S A) (k : A → M S B) s a s' :
  m s = (inr a, s') → bind m k s = k a s'.
Proof. unfold bind. by intros ->. Qed.

Lemma bind_inl {S A B} (m : M S A) (k : A → M S B) s e s' :
  m s = (inl e, s') → bind m k s = (inl e, s').
Proof. unfold bind. by intros ->. Qed.

Lemma liftHost_inr {A} (m : M World A) s a w' :
  m (host s) = (inr a, w') → liftHost m s = (inr a, mkSt w' (this s)).
Proof. unfold liftHost. by intros ->. Qed.

Lemma liftHost_inl {A} (m : M World A) s e w' :
  m (host s) = (inl e, w') → liftHost m s = (inl e, mkSt w' (this s)).
Proof. unfold liftHost. by intros ->. Qed.

Lemma keepsRange_bind {A B} (m : M St A) (k : A → M St B) :
  keepsRange m → (∀ a, keepsRange (k a)) → keepsRange (bind m k).
Proof.
  intros Hm Hk s o s'. unfold bind.
  destruct (m s) as [[e|a] s1] eqn:E; intros H.
  - inversion H; subst. eapply Hm, E.
  - rewrite (Hk a _ _ _ H). eapply Hm, E.
Qed.

Lemma keepsRange_liftHost {A} (m : M World A) : keepsRange (liftHost m).
Proof.
  intros s o s'. unfold liftHost. destruct (m (host s)); intros H.
  by inversion H.
Qed.

Lemma keepsRange_ret {A} (a : A) : keepsRange (ret a).
Proof. intros s o s' H. by inversion H. Qed.

Lemma keepsRange_gets {A} (f : St → A) : keepsRange (gets f).
Proof. intros s o s' H. by inversion H. Qed.

Lemma keepsRange_setHighlighter h : keepsRange (setHighlighter h).
Proof. intros s o s' H. by inversion H. Qed.

Create HintDb keeps.

#[local] Hint Resolve keepsRange_liftHost keepsRange_ret keepsRange_gets
  keepsRange_setHighlighter : keeps.

Lemma keepsRange_snapToWord : keepsRange snapToWord.
Proof.
  unfold snapToWord.
  repeat (first [ apply keepsRange_bind; [| intros ?] | solve [auto with keeps] ]).
Qed.

Lemma keepsRange_removeHighlight : keepsRange removeHighlight.
Proof.
  unfold removeHighlight.
  apply keepsRange_bind; [auto with keeps|]. intros [h|]; [|auto with keeps].
  repeat (first [ apply keepsRange_bind; [| intros ?] | solve [auto with keeps] ]).
Qed.

Lemma keepsRange_highlight tag decorator : keepsRange (highlight tag decorator).
Proof.
  unfold highlight.
  apply keepsRange_bind; [auto with keeps|]. intros h.
  apply keepsRange_bind.
  { destruct h; [apply keepsRange_removeHighlight | auto with keeps]. }
  intros _. apply keepsRange_bind; [auto with keeps|]. intros r.
  apply keepsRange_bind; [auto with keeps|]. intros rg.
  case_decide; [|auto with keeps].
  repeat (first [ apply keepsRange_bind; [| intros ?] | solve [auto with keeps] ]).
Qed.

(** ** [process] *)

Lemma yellowBackground_sets_yellow (st : Style) :
  getProperty "background" (yellowBackground st) = Some "yellow"%string.
Proof.
  unfold yellowBackground, setProperty, getProperty.
  rewrite (filter_cons_True (λ kv : string * string, kv.1 = "background"%string)) by done.
  done.
Qed.

(** C1.  When the window selection has a first range [r], [process] builds
    the selection value around [r] (not highlighted), runs [snapToWord] on
    it exactly when [options.snapToWord] is truthy, then runs
    [highlight('span', d)] exactly when [options.highlight] is truthy, where
    [d] leaves the element's background set to yellow, and returns the
    selection object as these calls left it, still holding [r]; an
    exception of either call is the outcome of [process]. *)
Theorem process_applies_options (options : Options) (w : World) (r : nat) :
  windowSelection w !! 0 = Some r →
  let s0 := mkSt w (Selection r) in
  let snapped :=
    if truthy (optSnapToWord options) then snapToWord s0 else (inr tt, s0) in
  let highlighted :=
    if truthy (optHighlight options)
    then highlight "span" yellowBackground snapped.2
    else (inr tt, snapped.2) in
  range (this s0) = r ∧ isHighlighted s0 = false
  ∧ (∀ st, getProperty "background" (yellowBackground st) = Some "yellow"%string)
  ∧ process options w =
      match snapped.1 with
      | inl e => (inl e, host snapped.2)
      | inr _ =>
          match highlighted.1 with
          | inl e => (inl e, host highlighted.2)
          | inr _ => (inr (this highlighted.2), host highlighted.2)
          end
      end
  ∧ (∀ sel w', process options w = (inr sel, w') → range sel = r).
Proof.
  intros Hr s0 snapped highlighted.
  assert (Hproc : process options w =
      match snapped.1 with
      | inl e => (inl e, host snapped.2)
      | inr _ =>
          match highlighted.1 with
          | inl e => (inl e, host highlighted.2)
          | inr _ => (inr (this highlighted.2), host highlighted.2)
          end
      end).
  { unfold process. erewrite bind_inr; last by (unfold getRangeAt; rewrite Hr).
    unfold withSelection, bind. fold s0.
    subst highlighted snapped.
    destruct (truthy (optSnapToWord options)); simpl.
    - destruct (snapToWord s0) as [[e|[]] s1]; simpl; [done|].
      destruct (truthy (optHighlight options)); simpl; [|done].
      by destruct (highlight _ _ s1) as [[e|[]] s2].
    - destruct (truthy (optHighlight options)); simpl; [|done].
      by destruct (highlight _ _ s0) as [[e|[]] s2]. }
  split_and!; [done|done|apply yellowBackground_sets_yellow|done|].
  intros sel w'. rewrite Hproc.
  assert (Hs : range (this snapped.2) = r).
  { subst snapped. destruct (truthy (optSnapToWord options)); [|done].
    destruct (snapToWord s0) as [o s1] eqn:E.
    simpl. by rewrite (keepsRange_snapToWord _ _ _ E). }
  assert (Hh : range (this highlighted.2) = r).
  { subst highlighted. destruct (truthy (optHighlight options)); [|done].
    destruct (highlight _ _ _) as [o s2] eqn:E.
    simpl. by rewrite (keepsRange_highlight _ _ _ _ _ E). }
  clearbody highlighted. clearbody snapped.
  destruct snapped as [[e|u] s1]; [done|].
  destruct highlighted as [[e|u'] s2]; [done|].
  simpl in *. intros H. by inversion H; subst.
Qed.

Lemma process_applies_options_witness :
  process (mkOptions (JSBool true) (JSString "yes")) (helloWorld 2 5) =
    (inr (mkSelection 0 (Some 2)),
     mkWorld [Element 0 "p" []
                [Text 1 ""; Element 2 "span" [("background", "yellow")]
                              [Text 3 "hello"]; Text 4 " world"]%string]
             5 [mkRange 0 1 0 2] [0]).
Proof.
  destruct (process_applies_options
              (mkOptions (JSBool true) (JSString "yes")) (helloWorld 2 5) 0
              eq_refl) as (_ & _ & _ & -> & _).
  vm_compute. reflexivity.
Defined.

(** C8.  With no range in the window selection, [getRangeAt(0)] fails and
    [process] ends with that exception: no selection value is returned and
    the host world is exactly as it was (nothing was mutated, nothing
    retried). *)
Theorem process_without_range_fails (options : Options) (w : World) :
  windowSelection w = [] →
  process options w = (inl IndexSizeError, w).
Proof.
  intros Hsel. unfold process.
  apply bind_inl. unfold getRangeAt. by rewrite Hsel.
Qed.

Lemma process_without_range_fails_witness :
  process (mkOptions (JSBool true) (JSBool true)) orphanText
  = (inl IndexSizeError, orphanText).
Proof. apply process_without_range_fails. reflexivity. Defined.

(** ** [highlight] across nodes *)

(** C3.  On a selection that is not highlighted and whose range starts and
    ends in distinct nodes, [highlight] returns normally and changes
    nothing: no element is created (the world, including its stock of
    identities, is the same) and [isHighlighted] is still false. *)
Theorem highlight_across_nodes_is_noop (tag : string) (decorator : Decorator)
    (s : St) (rg : Range) :
  ranges (host s) !! range (this s) = Some rg →
  startContainer rg ≠ endContainer rg →
  isHighlighted s = false →
  highlight tag decorator s = (inr tt, s) ∧ isHighlighted s = false.
Proof.
  intros Hrg Hne Hh. split; [|done].
  unfold isHighlighted in Hh. unfold highlight.
  unfold bind at 1. unfold gets.
  destruct (_highlighter (this s)); [done|].
  unfold bind at 1. unfold ret, gets. unfold bind at 1.
  erewrite bind_inr; last by (apply liftHost_inr; unfold rangeObj; rewrite Hrg).
  rewrite decide_False by done. by destruct s.
Qed.

Lemma highlight_across_nodes_is_noop_witness :
  highlight "span" yellowBackground (mkSt crossing (Selection 0))
  = (inr tt, mkSt crossing (Selection 0)).
Proof.
  apply (highlight_across_nodes_is_noop "span" yellowBackground
           (mkSt crossing (Selection 0)) (mkRange 1 2 4 3));
    [reflexivity | simpl; lia | reflexivity].
Defined.

(** ** Order of boundary points *)

Lemma lexCompare_app (p a b : list nat) :
  lexCompare (p ++ a) (p ++ b) = lexCompare a b.
Proof. induction p as [|x p IH]; simpl; [done|]. by rewrite Nat.compare_refl. Qed.

Lemma lexCompare_antisym (a b : list nat) :
  lexCompare b a = CompOpp (lexCompare a b).
Proof.
  revert b. induction a as [|x a IH]; intros [|y b]; simpl; try done.
  rewrite (Nat.compare_antisym x y).
  destruct (x ?= y); simpl; auto.
Qed.

Lemma lexCompare_trans (a b c : list nat) :
  lexCompare a b ≠ Gt → lexCompare b c ≠ Gt → lexCompare a c ≠ Gt.
Proof.
  revert b c. induction a as [|x a IH]; intros [|y b] [|z c]; simpl; try done.
  destruct (Nat.compare_spec x y) as [Hxy|Hxy|Hxy],
           (Nat.compare_spec y z) as [Hyz|Hyz|Hyz]; try done; subst.
  - rewrite Nat.compare_refl. apply IH.
  - intros _ _. by apply Nat.compare_lt_iff in Hyz as ->.
  - intros _ _. by apply Nat.compare_lt_iff in Hxy as ->.
  - intros _ _. assert (x < z) as ->%Nat.compare_lt_iff by lia. done.
Qed.

Lemma lexCompare_last (p : list nat) (x y : nat) :
  x ≤ y → lexCompare (p ++ [x]) (p ++ [y]) ≠ Gt.
Proof.
  intros Hxy. rewrite lexCompare_app. simpl.
  destruct (Nat.compare_spec x y); try done. lia.
Qed.

(** ** The two loops of [snapToWord] *)

Lemma notSpace_true text k : notSpace text k = true ↔ ¬ spaceAt text k.
Proof. unfold notSpace, spaceAt. by rewrite bool_decide_eq_true. Qed.

Lemma notSpace_false text k : notSpace text k = false ↔ spaceAt text k.
Proof.
  unfold notSpace, spaceAt. rewrite bool_decide_eq_false.
  split; [apply dec_stable | by intros ? ?].
Qed.

Lemma walkBack_le text s : walkBack text s ≤ s.
Proof.
  induction s as [|s IH]; simpl; [done|].
  destruct (notSpace text (S s)); lia.
Qed.

Lemma walkBack_stop text s :
  walkBack text s = 0 ∨ spaceAt text (walkBack text s).
Proof.
  induction s as [|s IH]; simpl; [by left|].
  destruct (notSpace text (S s)) eqn:E; [done|].
  right. by apply notSpace_false.
Qed.

Lemma walkBack_between text s k :
  walkBack text s < k ≤ s → ¬ spaceAt text k.
Proof.
  induction s as [|s IH]; simpl; [lia|].
  destruct (notSpace text (S s)) eqn:E; [|lia].
  intros [Hlo Hhi]. destruct (decide (k = S s)) as [->|].
  - by apply notSpace_true.
  - apply IH. lia.
Qed.


Lemma snapStart_le text s : snapStart text s ≤ s.
Proof.
  unfold snapStart. pose proof (walkBack_le text s).
  repeat case_bool_decide; simpl; lia.
Qed.

Lemma snapStart_spec text s : SnapsStart text s (snapStart text s).
Proof.
  exists (walkBack text s). split_and!.
  - apply walkBack_le.
  - apply walkBack_between.
  - apply walkBack_stop.
  - unfold snapStart.
    repeat case_bool_decide; simpl; case_decide; first [done | tauto].
Qed.


Lemma walkForward_ge fuel text len e : e ≤ walkForward fuel text len e.
Proof.
  revert e. induction fuel as [|fuel IH]; intros e; simpl; [done|].
  destruct (notSpace text e && bool_decide (e < len)); [|done].
  specialize (IH (S e)). lia.
Qed.

Lemma walkForward_between fuel text len e k :
  e ≤ k < walkForward fuel text len e → ¬ spaceAt text k ∧ k < len.
Proof.
  revert e. induction fuel as [|fuel IH]; intros e; simpl; [lia|].
  destruct (notSpace text e && bool_decide (e < len)) eqn:E; [|lia].
  apply andb_true_iff in E as [E1%notSpace_true E2%bool_decide_eq_true].
  intros Hk. destruct (decide (k = e)) as [->|]; [done|].
  apply (IH (S e)). lia.
Qed.

Lemma walkForward_exit fuel text len e :
  len - e ≤ fuel →
  let e' := walkForward fuel text len e in
  ¬ (¬ spaceAt text e' ∧ e' < len).
Proof.
  revert e. induction fuel as [|fuel IH]; intros e Hfuel; simpl.
  - lia.
  - destruct (notSpace text e && bool_decide (e < len)) eqn:E.
    + apply IH. lia.
    + apply andb_false_iff in E as [E%notSpace_false|E%bool_decide_eq_false];
        tauto.
Qed.

Lemma walkForward_le_len fuel text len e :
  e ≤ len → walkForward fuel text len e ≤ len.
Proof.
  revert e. induction fuel as [|fuel IH]; intros e He; simpl; [done|].
  destruct (notSpace text e && bool_decide (e < len)) eqn:E; [|done].
  apply andb_true_iff in E as [_ E2%bool_decide_eq_true]. apply IH. lia.
Qed.


Lemma snapEnd_spec text len e : SnapsEnd text len e (snapEnd text len e).
Proof.
  unfold SnapsEnd, snapEnd. destruct len as [len|]; simpl.
  - split_and!.
    + apply walkForward_ge.
    + apply walkForward_between.
    + by apply walkForward_exit.
  - split_and!; [done|lia|tauto].
Qed.


Lemma snapEnd_ge text len e : e ≤ snapEnd text len e.
Proof. destruct len; simpl; [apply walkForward_ge|done]. Qed.

Lemma snapEnd_le_length (n : Node) e :
  e ≤ nodeLength n →
  snapEnd (textContent n) (lengthProperty n) e ≤ nodeLength n.
Proof.
  destruct n; simpl; [|done]. apply walkForward_le_len.
Qed.

(** ** [snapToWord] *)

Lemma validRange_inv w r :
  validRange w r = true →
  ∃ rg ps pe sn en,
    ranges w !! r = Some rg
    ∧ findPath (startContainer rg) (roots w) = Some ps
    ∧ findPath (endContainer rg) (roots w) = Some pe
    ∧ getAt ps (roots w) = Some sn
    ∧ getAt pe (roots w) = Some en
    ∧ startOffset rg ≤ nodeLength sn
    ∧ endOffset rg ≤ nodeLength en
    ∧ head ps = head pe
    ∧ lexCompare (ps ++ [startOffset rg]) (pe ++ [endOffset rg]) ≠ Gt.
Proof.
  unfold validRange. intros H.
  destruct (ranges w !! r) as [rg|] eqn:Hrg; [|done].
  destruct (findPath (startContainer rg) (roots w)) as [ps|] eqn:Hps; [|done].
  destruct (findPath (endContainer rg) (roots w)) as [pe|] eqn:Hpe; [|done].
  destruct (getAt ps (roots w)) as [sn|] eqn:Hsn; [|done].
  destruct (getAt pe (roots w)) as [en|] eqn:Hen; [|done].
  rewrite bool_decide_eq_true in H. destruct H as (?&?&?&?).
  by exists rg, ps, pe, sn, en.
Qed.

(** What one call of [snapToWord] does to a valid range. *)
Lemma snapToWord_run s rg ps pe sn en :
  ranges (host s) !! range (this s) = Some rg →
  findPath (startContainer rg) (roots (host s)) = Some ps →
  findPath (endContainer rg) (roots (host s)) = Some pe →
  getAt ps (roots (host s)) = Some sn →
  getAt pe (roots (host s)) = Some en →
  startOffset rg ≤ nodeLength sn →
  endOffset rg ≤ nodeLength en →
  head ps = head pe →
  lexCompare (ps ++ [startOffset rg]) (pe ++ [endOffset rg]) ≠ Gt →
  snapToWord s =
    (inr tt,
     mkSt (setRanges
             (<[range (this s) :=
                  mkRange (startContainer rg)
                          (snapStart (textContent sn) (startOffset rg))
                          (endContainer rg)
                          (snapEnd (textContent en) (lengthProperty en)
                                   (endOffset rg))]> (ranges (host s)))
             (host s))
          (this s)).
Proof.
  intros Hrg Hps Hpe Hsn Hen Hso Heo Hroot Hord.
  pose proof (snapStart_le (textContent sn) (startOffset rg)) as Hstart.
  pose proof (snapEnd_ge (textContent en) (lengthProperty en) (endOffset rg)) as Hend.
  pose proof (snapEnd_le_length en (endOffset rg) Heo) as Hend'.
  set (start := snapStart _ _) in *. set (end_ := snapEnd _ _ _) in *.
  assert (Hr : range (this s) < length (ranges (host s)))
    by (eapply lookup_lt_Some; eauto).
  assert (Hord1 : lexCompare (ps ++ [start]) (pe ++ [endOffset rg]) ≠ Gt).
  { eapply lexCompare_trans; [|exact Hord]. by apply lexCompare_last. }
  assert (Hord2 : lexCompare (pe ++ [end_]) (ps ++ [start]) ≠ Lt).
  { rewrite lexCompare_antisym.
    assert (lexCompare (ps ++ [start]) (pe ++ [end_]) ≠ Gt) as H.
    { eapply lexCompare_trans; [exact Hord1|]. by apply lexCompare_last. }
    destruct (lexCompare (ps ++ [start]) (pe ++ [end_])); naive_solver. }
  destruct s as [w sel]. simpl in *.
  unfold snapToWord, bind, gets, liftHost, rangeObj, nodeOf, bind, pathOf,
    nodeAtPath. simpl.
  rewrite Hrg. simpl. rewrite Hps. simpl. rewrite Hsn. simpl.
  rewrite Hpe. simpl. rewrite Hen. simpl.
  unfold setStart, bind, pathOf, nodeAtPath, rangeObj, putRange, modify. simpl.
  rewrite Hps. simpl. rewrite Hsn. simpl.
  fold start end_.
  rewrite decide_False by lia. rewrite Hrg. simpl. rewrite Hpe. simpl.
  rewrite decide_False by (intros [?|?]; [by symmetry in Hroot|done]).
  unfold setEnd, bind, pathOf, nodeAtPath, rangeObj, putRange, modify. simpl.
  rewrite Hpe. simpl. rewrite Hen. simpl.
  rewrite decide_False by lia.
  unfold setRanges. simpl.
  rewrite list_lookup_insert_eq by done. simpl. rewrite Hps. simpl.
  rewrite decide_False by (intros [?|?]; done).
  simpl. by rewrite list_insert_insert_eq.
Qed.







(** ** Trees, paths and identities *)

Lemma Node_ind' (P : Node → Prop) :
  (∀ i d, P (Text i d)) →
  (∀ i t s cs, Forall P cs → P (Element i t s cs)) →
  ∀ n, P n.
Proof.
  intros HT HE. fix IH 1. intros [i d|i t s cs]; [apply HT|].
  apply HE. induction cs as [|c cs IHcs]; constructor; auto.
Qed.

Lemma idsL_cons n ns : idsL (n :: ns) = ids n ++ idsL ns.
Proof. done. Qed.

Lemma idsL_app ns ms : idsL (ns ++ ms) = idsL ns ++ idsL ms.
Proof. unfold idsL. by rewrite map_app, concat_app. Qed.

Lemma ids_unfold n : ids n = nid n :: idsL (childNodes n).
Proof. by destruct n. Qed.

Lemma nid_in_ids n : nid n ∈ ids n.
Proof. rewrite ids_unfold. apply list_elem_of_here. Qed.

Lemma idsL_split ns k n :
  ns !! k = Some n → idsL ns = idsL (take k ns) ++ ids n ++ idsL (drop (S k) ns).
Proof.
  intros Hk. rewrite <- (take_drop_middle ns k n Hk) at 1.
  by rewrite idsL_app, idsL_cons.
Qed.

Lemma idsL_lookup ns k n x : ns !! k = Some n → x ∈ ids n → x ∈ idsL ns.
Proof.
  intros Hk Hx. rewrite (idsL_split ns k n Hk).
  rewrite !elem_of_app. auto.
Qed.

Lemma NoDup_idsL_lookup ns k n : NoDup (idsL ns) → ns !! k = Some n → NoDup (ids n).
Proof.
  intros Hnd Hk. rewrite (idsL_split ns k n Hk) in Hnd.
  apply NoDup_app in Hnd as (_ & _ & Hnd). by apply NoDup_app in Hnd as (? & _).
Qed.

Lemma descend_ids q n m : descend q n = Some m → nid m ∈ ids n.
Proof.
  revert n. induction q as [|k q IH]; intros n; simpl.
  - intros [= ->]. apply nid_in_ids.
  - destruct (childNodes n !! k) as [c|] eqn:Hc; [|done]. simpl. intros Hm.
    rewrite ids_unfold. apply list_elem_of_further.
    eapply idsL_lookup; [done|]. by apply IH.
Qed.

Lemma getAt_ids p ns m : getAt p ns = Some m → nid m ∈ idsL ns.
Proof.
  destruct p as [|k q]; [done|]. simpl.
  destruct (ns !! k) as [c|] eqn:Hc; [|done]. simpl. intros Hm.
  eapply idsL_lookup; [done|]. by eapply descend_ids.
Qed.

Lemma findInList_absent x ns k :
  (∀ n, n ∈ ns → findIn x n = None) → findInList (findIn x) ns k = None.
Proof.
  revert k. induction ns as [|n ns IH]; intros k Hall; simpl; [done|].
  rewrite Hall by apply list_elem_of_here.
  apply IH. intros n' Hn'. apply Hall. by apply list_elem_of_further.
Qed.

Lemma findIn_absent x n : x ∉ ids n → findIn x n = None.
Proof.
  induction n as [i d|i t s cs IH] using Node_ind'; simpl; intros Hx.
  - rewrite decide_False; [done|]. intros ->. apply Hx, list_elem_of_here.
  - rewrite decide_False by (intros ->; apply Hx, list_elem_of_here).
    apply findInList_absent. intros c Hc.
    rewrite Forall_forall in IH. apply IH; [done|].
    intros Hin. apply Hx, list_elem_of_further.
    apply list_elem_of_lookup_1 in Hc as [k Hk]. by eapply idsL_lookup.
Qed.

Lemma findInList_at x ns k0 j c q :
  NoDup (idsL ns) → ns !! j = Some c → x ∈ ids c → findIn x c = Some q →
  findInList (findIn x) ns k0 = Some ((k0 + j) :: q).
Proof.
  revert k0 j. induction ns as [|n ns IH]; intros k0 j Hnd Hj Hx Hq; [done|].
  rewrite idsL_cons in Hnd. apply NoDup_app in Hnd as (Hn & Hdisj & Hns).
  destruct j as [|j]; simpl in *.
  - injection Hj as ->. rewrite Hq. by rewrite Nat.add_0_r.
  - rewrite findIn_absent.
    + rewrite (IH (S k0) j) by done.
      by replace (k0 + S j) with (S k0 + j) by lia.
    + intros Hin. apply (Hdisj x Hin). by eapply idsL_lookup.
Qed.

Lemma findIn_descend q n m :
  NoDup (ids n) → descend q n = Some m → findIn (nid m) n = Some q.
Proof.
  revert n. induction q as [|k q IH]; intros n Hnd; simpl.
  - intros [= ->]. destruct m; simpl; by rewrite decide_True.
  - destruct (childNodes n !! k) as [c|] eqn:Hc; [|done]. simpl. intros Hm.
    destruct n as [i d|i t s cs]; [done|]. simpl in *.
    apply NoDup_cons in Hnd as [Hi Hcs].
    assert (Hmc : nid m ∈ ids c) by by eapply descend_ids.
    rewrite decide_False.
    + assert (NoDup (ids c)) as Hndc by by eapply NoDup_idsL_lookup.
      by rewrite (findInList_at _ cs 0 k c q) by eauto.
    + intros Heq. apply Hi. rewrite Heq. by eapply idsL_lookup.
Qed.

Lemma findPath_getAt p ns m :
  NoDup (idsL ns) → getAt p ns = Some m → findPath (nid m) ns = Some p.
Proof.
  intros Hnd. destruct p as [|k q]; [done|]. simpl.
  destruct (ns !! k) as [c|] eqn:Hc; [|done]. simpl. intros Hm.
  unfold findPath. rewrite (findInList_at _ ns 0 k c q); try done.
  - by eapply descend_ids.
  - apply findIn_descend; [|done]. by eapply NoDup_idsL_lookup.
Qed.

Lemma descend_app q q' n : descend (q ++ q') n = descend q n ≫= descend q'.
Proof.
  revert n. induction q as [|k q IH]; intros n; simpl; [done|].
  destruct (childNodes n !! k); simpl; [apply IH|done].
Qed.

Lemma getAt_app p q ns : p ≠ [] → getAt (p ++ q) ns = getAt p ns ≫= descend q.
Proof.
  destruct p as [|k p]; [done|]. intros _. simpl.
  destruct (ns !! k); simpl; [apply descend_app|done].
Qed.

Lemma childNodes_setChildNodes cs n :
  isText n = false → childNodes (setChildNodes cs n) = cs.
Proof. by destruct n. Qed.

Lemma descend_modNode q f n :
  descend q (modNode q f n) = f <$> descend q n.
Proof.
  revert n. induction q as [|k q IH]; intros n; simpl; [done|].
  destruct n as [i d|i t s cs]; simpl; [done|].
  rewrite list_lookup_alter_eq. destruct (cs !! k); simpl; [apply IH|done].
Qed.

Lemma getAt_modAt p f ns : getAt p (modAt p f ns) = f <$> getAt p ns.
Proof.
  destruct p as [|k q]; [done|]. simpl. rewrite list_lookup_alter_eq.
  destruct (ns !! k); simpl; [apply descend_modNode|done].
Qed.

Lemma modNode_app q q' f n : modNode (q ++ q') f n = modNode q (modNode q' f) n.
Proof.
  revert n. induction q as [|k q IH]; intros n; simpl; [done|].
  f_equal. apply list_alter_ext; [|done]. intros; apply IH.
Qed.

Lemma modAt_app p q f ns : p ≠ [] → modAt (p ++ q) f ns = modAt p (modNode q f) ns.
Proof.
  destruct p as [|k p]; [done|]. intros _. simpl.
  apply list_alter_ext; [|done]. intros; apply modNode_app.
Qed.

Lemma modNode_ext q f g n :
  (∀ m, descend q n = Some m → f m = g m) → modNode q f n = modNode q g n.
Proof.
  revert n. induction q as [|k q IH]; intros n Hfg; simpl; [by apply Hfg|].
  f_equal. apply list_alter_ext; [|done]. intros c Hc. apply IH.
  intros m Hm. apply Hfg. simpl. by rewrite Hc.
Qed.

Lemma modAt_ext p f g ns :
  (∀ m, getAt p ns = Some m → f m = g m) → modAt p f ns = modAt p g ns.
Proof.
  destruct p as [|k q]; [done|]. simpl. intros Hfg.
  apply list_alter_ext; [|done]. intros c Hc. apply modNode_ext.
  intros m Hm. apply Hfg. by rewrite Hc.
Qed.

Lemma modNode_modNode q f g n :
  modNode q g (modNode q f n) = modNode q (g ∘ f) n.
Proof.
  revert n. induction q as [|k q IH]; intros n; simpl; [done|].
  destruct n as [i d|i t s cs]; simpl; [done|].
  f_equal. rewrite list_alter_alter_eq. apply list_alter_ext; [|done].
  intros; apply IH.
Qed.

Lemma modAt_modAt p f g ns : modAt p g (modAt p f ns) = modAt p (g ∘ f) ns.
Proof.
  destruct p as [|k q]; [done|]. simpl. rewrite list_alter_alter_eq.
  apply list_alter_ext; [|done]. intros; apply modNode_modNode.
Qed.

Lemma length_modAt p f ns : length (modAt p f ns) = length ns.
Proof. destruct p; simpl; [done|]. apply length_alter. Qed.

Lemma getAt_lt p ns m : getAt p ns = Some m → ∃ k q, p = k :: q ∧ k < length ns.
Proof.
  destruct p as [|k q]; [done|]. simpl.
  destruct (ns !! k) eqn:Hk; [|done]. intros _. exists k, q.
  split; [done|]. by eapply lookup_lt_Some.
Qed.

Lemma getAt_app_l p ns ms :
  default 0 (head p) < length ns → getAt p (ns ++ ms) = getAt p ns.
Proof.
  destruct p as [|k q]; [done|]. simpl. intros Hk. by rewrite lookup_app_l.
Qed.

Lemma modAt_app_l p f ns ms :
  default 0 (head p) < length ns → modAt p f (ns ++ ms) = modAt p f ns ++ ms.
Proof.
  destruct p as [|k q]; [done|]. simpl. intros Hk. by rewrite alter_app_l.
Qed.

Lemma splitLast_snoc p k : splitLast (p ++ [k]) = Some (p, k).
Proof. unfold splitLast. by rewrite reverse_snoc, reverse_involutive. Qed.

Lemma splitLast_singleton k : splitLast [k] = Some ([], k).
Proof. done. Qed.

Lemma alter_take_drop {A} (g : A → A) k (l : list A) c :
  l !! k = Some c → alter g k l = take k l ++ g c :: drop (S k) l.
Proof.
  intros Hk. rewrite <- (take_drop_middle l k c Hk) at 1.
  assert (length (take k l) = k) as Hlen.
  { rewrite length_take. apply lookup_lt_Some in Hk. lia. }
  rewrite <- Hlen at 1. rewrite <- (Nat.add_0_r (length (take k l))).
  by rewrite alter_app_r.
Qed.

Lemma idsL_alter g k cs c :
  cs !! k = Some c →
  idsL (alter g k cs) = idsL (take k cs) ++ ids (g c) ++ idsL (drop (S k) cs).
Proof.
  intros Hk. rewrite (alter_take_drop g k cs c Hk).
  by rewrite idsL_app, idsL_cons.
Qed.

Lemma ids_modNode_ctx q n m :
  descend q n = Some m →
  ∃ ctx, ∀ f, ids (modNode q f n) ≡ₚ ids (f m) ++ ctx.
Proof.
  revert n. induction q as [|k q IH]; intros n; simpl.
  - intros [= ->]. exists []. intros f. by rewrite app_nil_r.
  - destruct (childNodes n !! k) as [c|] eqn:Hc; [|done]. simpl. intros Hm.
    destruct (IH c Hm) as [ctx Hctx].
    destruct n as [i d|i t s cs]; [done|]. simpl in Hc.
    exists (i :: idsL (take k cs) ++ ctx ++ idsL (drop (S k) cs)).
    intros f. simpl. fold (idsL (alter (modNode q f) k cs)).
    rewrite (idsL_alter _ k cs c Hc), Hctx. solve_Permutation.
Qed.

Lemma idsL_modAt_ctx p ns m :
  getAt p ns = Some m →
  ∃ ctx, ∀ f, idsL (modAt p f ns) ≡ₚ ids (f m) ++ ctx.
Proof.
  destruct p as [|k q]; [done|]. simpl.
  destruct (ns !! k) as [c|] eqn:Hc; [|done]. simpl. intros Hm.
  destruct (ids_modNode_ctx q c m Hm) as [ctx Hctx].
  exists (idsL (take k ns) ++ ctx ++ idsL (drop (S k) ns)).
  intros f. rewrite (idsL_alter _ k ns c Hc), Hctx. solve_Permutation.
Qed.

Lemma modNode_id q n m : descend q n = Some m → modNode q (λ _, m) n = n.
Proof.
  revert n. induction q as [|k q IH]; intros n; simpl.
  - by intros [= ->].
  - destruct (childNodes n !! k) as [c|] eqn:Hc; [|done]. simpl. intros Hm.
    destruct n as [i d|i t s cs]; [done|]. simpl in *. f_equal.
    rewrite (alter_take_drop _ k cs c Hc), (IH c Hm).
    apply take_drop_middle, Hc.
Qed.

Lemma modAt_id p ns m : getAt p ns = Some m → modAt p (λ _, m) ns = ns.
Proof.
  destruct p as [|k q]; [done|]. simpl.
  destruct (ns !! k) as [c|] eqn:Hc; [|done]. simpl. intros Hm.
  rewrite (alter_take_drop _ k ns c Hc), (modNode_id q c m Hm).
  apply take_drop_middle, Hc.
Qed.

Lemma idsL_delete ns k x : ns !! k = Some x → idsL ns ≡ₚ ids x ++ idsL (delete k ns).
Proof.
  intros Hk. rewrite (idsL_split ns k x Hk), delete_take_drop, idsL_app.
  solve_Permutation.
Qed.

Lemma idsL_insert_at ns k n : idsL (take k ns ++ n :: drop k ns) ≡ₚ ids n ++ idsL ns.
Proof.
  rewrite idsL_app, idsL_cons. rewrite <- (take_drop k ns) at 3.
  rewrite idsL_app. solve_Permutation.
Qed.

Lemma idsL_alter_perm g k cs c :
  cs !! k = Some c →
  idsL (alter g k cs) ++ ids c ≡ₚ idsL cs ++ ids (g c).
Proof.
  intros Hk. rewrite (idsL_alter g k cs c Hk), (idsL_split cs k c Hk).
  solve_Permutation.
Qed.

Lemma ids_setChildNodes cs n :
  isText n = false → ids (setChildNodes cs n) = nid n :: idsL cs.
Proof. by destruct n. Qed.

Lemma substring_zero (n : nat) (s : string) : String.substring n 0 s = EmptyString.
Proof.
  revert n. induction s as [|c s IH]; intros [|n]; simpl; auto.
Qed.

Lemma concatText_singleton (s : string) : concatText [s] = s.
Proof.
  unfold concatText. cbn [foldr].
  induction s as [|c s IH]; [done|].
  change (String c (s +:+ EmptyString) = String c s). by f_equal.
Qed.

Lemma string_length_append (a b : string) :
  String.length (a +:+ b) = String.length a + String.length b.
Proof. induction a as [|c a IH]; simpl; [done|]. by rewrite IH. Qed.

Lemma string_length_substring (n m : nat) (s : string) :
  String.length (String.substring n m s) = m `min` (String.length s - n).
Proof.
  revert n m. induction s as [|c s IH]; intros n m; simpl.
  - destruct n, m; simpl; lia.
  - destruct n as [|n]; simpl.
    + destruct m as [|m]; simpl; [done|]. rewrite IH. lia.
    + by rewrite IH.
Qed.

Lemma bind_ret {S A B} (a : A) (k : A → M S B) s : bind (ret a) k s = k a s.
Proof. done. Qed.

Lemma bind_modify {S B} (f : S → S) (k : unit → M S B) s :
  bind (modify f) k s = k tt (f s).
Proof. done. Qed.

Lemma bind_gets {S A B} (f : S → A) (k : A → M S B) s :
  bind (gets f) k s = k (f s) s.
Proof. done. Qed.

Lemma delete_snoc {A} (l : list A) (x : A) : delete (length l) (l ++ [x]) = l.
Proof. rewrite (delete_middle l [] x). apply app_nil_r. Qed.

Lemma lookup_snoc {A} (l : list A) (x : A) : (l ++ [x]) !! length l = Some x.
Proof. by apply list_lookup_middle. Qed.

Lemma alter_middle {A} (f : A → A) (l1 l2 : list A) (x : A) :
  alter f (length l1) (l1 ++ x :: l2) = l1 ++ f x :: l2.
Proof.
  rewrite <- (Nat.add_0_r (length l1)). by rewrite alter_app_r.
Qed.

Lemma take_S_middle {A} (l1 l2 : list A) (x : A) :
  take (S (length l1)) (l1 ++ x :: l2) = l1 ++ [x].
Proof.
  rewrite (cons_middle x l1 l2), app_assoc.
  rewrite <- (take_app_length (l1 ++ [x]) l2) at 2.
  rewrite length_app. simpl. by rewrite Nat.add_1_r.
Qed.

Lemma drop_S_middle {A} (l1 l2 : list A) (x : A) :
  drop (S (length l1)) (l1 ++ x :: l2) = l2.
Proof.
  rewrite (cons_middle x l1 l2), app_assoc.
  rewrite <- (drop_app_length (l1 ++ [x]) l2) at 2.
  rewrite length_app. simpl. by rewrite Nat.add_1_r.
Qed.

Lemma lookup_S_middle {A} (l1 l2 : list A) (x : A) :
  (l1 ++ x :: l2) !! S (length l1) = head l2.
Proof.
  rewrite lookup_app_r by lia. replace (S (length l1) - length l1) with 1 by lia.
  by destruct l2.
Qed.

(** ** Substrings *)

Lemma substring_nil (a n : nat) : String.substring a n EmptyString = EmptyString.
Proof. by destruct a, n. Qed.

Lemma substring_append_split (s : string) : ∀ a n m,
  String.substring a n s +:+ String.substring (a + n) m s
  = String.substring a (n + m) s.
Proof.
  induction s as [|c s IH]; intros a n m.
  - by rewrite !substring_nil.
  - destruct a as [|a].
    + destruct n as [|n]; [done|].
      cbn [String.substring Nat.add].
      change (String c (String.substring 0 n s +:+ String.substring n m s)
              = String c (String.substring 0 (n + m) s)).
      f_equal. apply (IH 0).
    + cbn [String.substring Nat.add]. apply IH.
Qed.

Lemma substring_full (s : string) : String.substring 0 (String.length s) s = s.
Proof. induction s as [|c s IH]; [done|]. simpl. by rewrite IH. Qed.

Lemma substring_app_l (a b : string) :
  String.substring 0 (String.length a) (a +:+ b) = a.
Proof.
  induction a as [|c a IH]; [by rewrite substring_zero|].
  change (String c (String.substring 0 (String.length a) (a +:+ b)) = String c a).
  by rewrite IH.
Qed.

Lemma substring_app_r (a b : string) :
  String.substring (String.length a) (String.length b) (a +:+ b) = b.
Proof.
  induction a as [|c a IH]; [apply substring_full|].
  change (String.substring (String.length a) (String.length b) (a +:+ b) = b).
  exact IH.
Qed.

Lemma get_substring (s : string) : ∀ a n k,
  k < n → String.get k (String.substring a n s) = String.get (a + k) s.
Proof.
  induction s as [|c s IH]; intros a n k Hk.
  - rewrite substring_nil. by destruct (a + k).
  - destruct a as [|a].
    + destruct n as [|n]; [lia|]. cbn [String.substring Nat.add].
      destruct k as [|k]; [done|]. cbn [String.get]. rewrite (IH 0) by lia. done.
    + cbn [String.substring Nat.add String.get]. by apply IH.
Qed.

Lemma get_substring_None (s : string) : ∀ a n k,
  n ≤ k → String.get k (String.substring a n s) = None.
Proof.
  induction s as [|c s IH]; intros a n k Hk.
  - rewrite substring_nil. by destruct k.
  - destruct a as [|a].
    + destruct n as [|n]; [by destruct k|]. cbn [String.substring].
      destruct k as [|k]; [lia|]. cbn [String.get]. apply IH. lia.
    + cbn [String.substring]. by apply IH.
Qed.

(** Three consecutive pieces of a string. *)
Lemma substring_three (s : string) (a b c d : nat) :
  a ≤ b → b ≤ c → c ≤ d →
  String.substring a (b - a) s +:+ String.substring b (c - b) s
  +:+ String.substring c (d - c) s
  = String.substring a (d - a) s.
Proof.
  intros Hab Hbc Hcd.
  replace c with (b + (c - b)) at 2 by lia.
  rewrite substring_append_split.
  replace b with (a + (b - a)) at 2 by lia.
  rewrite substring_append_split. f_equal. lia.
Qed.

(** ** Live ranges under mutation *)

Lemma mapBoundaries_mk f a i b j :
  mapBoundaries f (mkRange a i b j)
  = mkRange (f (a, i)).1 (f (a, i)).2 (f (b, j)).1 (f (b, j)).2.
Proof. done. Qed.

Lemma insertShift_fix parent index b :
  ¬ (b.1 = parent ∧ index < b.2) → insertShift parent index b = b.
Proof. intros H. unfold insertShift. by rewrite decide_False. Qed.

Lemma insertShift_hit parent index o :
  index < o → insertShift parent index (parent, o) = (parent, S o).
Proof. intros H. unfold insertShift. by rewrite decide_True. Qed.

Lemma removeCollapse_fix sub parent index b :
  b.1 ∉ sub → removeCollapse sub parent index b = b.
Proof. intros H. unfold removeCollapse. by rewrite decide_False. Qed.

Lemma removeShift_fix parent index b :
  ¬ (b.1 = parent ∧ index < b.2) → removeShift parent index b = b.
Proof. intros H. unfold removeShift. by rewrite decide_False. Qed.

Lemma removeShift_hit parent index o :
  index < o → removeShift parent index (parent, o) = (parent, o - 1).
Proof. intros H. unfold removeShift. by rewrite decide_True. Qed.

Lemma replaceCollapse_fix x offset count b :
  ¬ (b.1 = x ∧ offset < b.2 ≤ offset + count) →
  replaceCollapse x offset count b = b.
Proof. intros H. unfold replaceCollapse. by rewrite decide_False. Qed.

Lemma replaceCollapse_hit x offset count o :
  offset < o ≤ offset + count →
  replaceCollapse x offset count (x, o) = (x, offset).
Proof. intros H. unfold replaceCollapse. by rewrite decide_True. Qed.

Lemma replaceShift_fix x offset count len b :
  ¬ (b.1 = x ∧ offset + count < b.2) → replaceShift x offset count len b = b.
Proof. intros H. unfold replaceShift. by rewrite decide_False. Qed.

Lemma splitMove_fix x new offset b :
  ¬ (b.1 = x ∧ offset < b.2) → splitMove x new offset b = b.
Proof. intros H. unfold splitMove. by rewrite decide_False. Qed.

Lemma splitBump_fix parent index b :
  ¬ (b.1 = parent ∧ b.2 = S index) → splitBump parent index b = b.
Proof. intros H. unfold splitBump. by rewrite decide_False. Qed.

(** Rewrites one layer of live-range updates on a known range whose
    boundary points stay where they are. *)
Ltac range_fix tac :=
  rewrite mapBoundaries_mk;
  repeat first
    [ rewrite insertShift_fix by (cbn [fst snd]; tac)
    | rewrite removeCollapse_fix by (cbn [fst snd]; tac)
    | rewrite removeShift_fix by (cbn [fst snd]; tac)
    | rewrite replaceCollapse_fix by (cbn [fst snd]; tac)
    | rewrite replaceShift_fix by (cbn [fst snd]; tac)
    | rewrite splitMove_fix by (cbn [fst snd]; tac)
    | rewrite splitBump_fix by (cbn [fst snd]; tac) ];
  cbn [fst snd].

Lemma ids_Element i t s cs : ids (Element i t s cs) = i :: idsL cs.
Proof. done. Qed.

Lemma ids_Text i d : ids (Text i d) = [i].
Proof. done. Qed.

Lemma idsL_nil : idsL [] = [].
Proof. done. Qed.

Ltac ids_simpl :=
  repeat (progress
            rewrite ?idsL_app, ?idsL_cons, ?ids_Element, ?ids_Text, ?idsL_nil).

Ltac ids_perm := ids_simpl; solve_Permutation.

(** ** The text of a range *)

Lemma string_app_nil_r (s : string) : s +:+ EmptyString = s.
Proof.
  induction s as [|c s IH]; [done|].
  change (String c (s +:+ EmptyString) = String c s). by f_equal.
Qed.

Lemma string_app_assoc (a b c : string) : (a +:+ b) +:+ c = a +:+ (b +:+ c).
Proof.
  induction a as [|x a IH]; [done|].
  change (String x ((a +:+ b) +:+ c) = String x (a +:+ (b +:+ c))). by f_equal.
Qed.

Lemma concatText_app (l1 l2 : list string) :
  concatText (l1 ++ l2) = concatText l1 +:+ concatText l2.
Proof.
  induction l1 as [|s l1 IH]; [done|].
  change (s +:+ concatText (l1 ++ l2) = (s +:+ concatText l1) +:+ concatText l2).
  by rewrite IH, string_app_assoc.
Qed.

Lemma flatMapi_app {A B} (f : nat → A → list B) (l1 l2 : list A) (k : nat) :
  flatMapi f (l1 ++ l2) k = flatMapi f l1 k ++ flatMapi f l2 (k + length l1).
Proof.
  revert k. induction l1 as [|a l1 IH]; intros k; simpl.
  - by rewrite Nat.add_0_r.
  - rewrite IH, <- app_assoc. do 3 f_equal. lia.
Qed.

Lemma flatMapi_Forall {A B} (Q : B → Prop) (f : nat → A → list B) l k0 :
  (∀ k c, k0 ≤ k < k0 + length l → c ∈ l → Forall Q (f k c)) →
  Forall Q (flatMapi f l k0).
Proof.
  revert k0. induction l as [|a l IH]; intros k0 H; simpl; [done|].
  apply Forall_app. split.
  - apply H; [simpl; lia | apply list_elem_of_here].
  - apply IH. intros k c Hk Hc. apply H; [simpl; lia|].
    by apply list_elem_of_further.
Qed.

Lemma textNodesFrom_prefix p n :
  Forall (λ qd, ∃ t, qd.1 = p ++ t) (textNodesFrom p n).
Proof.
  revert p. induction n as [i d|i t s cs IH] using Node_ind'; intros p; simpl.
  - repeat constructor. exists []. by rewrite app_nil_r.
  - apply flatMapi_Forall. intros k c _ Hc.
    rewrite Forall_forall in IH. specialize (IH c Hc (p ++ [k])).
    eapply Forall_impl; [exact IH|]. simpl. intros qd [t' ->].
    exists (k :: t'). by rewrite <- app_assoc.
Qed.

Lemma textNodesFrom_text p n : concatText ((textNodesFrom p n).*2) = textContent n.
Proof.
  revert p. induction n as [i d|i t s cs IH] using Node_ind'; intros p.
  - simpl. apply string_app_nil_r.
  - cbn [textNodesFrom textContent]. generalize 0.
    induction cs as [|c cs IHcs]; intros k; [done|].
    apply Forall_cons in IH as [IHc IH].
    cbn [flatMapi map]. rewrite fmap_app, concatText_app.
    rewrite IHc. change (concatText (textContent c :: map textContent cs))
      with (textContent c +:+ concatText (map textContent cs)).
    f_equal. by apply IHcs.
Qed.

Lemma flatMapi_text p cs k :
  concatText ((flatMapi (λ k c, textNodesFrom (p ++ [k]) c) cs k).*2)
  = concatText (textContent <$> cs).
Proof.
  revert k. induction cs as [|c cs IH]; intros k; [done|].
  cbn [flatMapi]. rewrite fmap_app, concatText_app, textNodesFrom_text, IH.
  done.
Qed.

Lemma filter_none {A} (Q : A → Prop) `{∀ x, Decision (Q x)} (l : list A) :
  Forall (λ x, ¬ Q x) l → filter Q l = [].
Proof.
  induction 1 as [|x l Hx Hl IH]; [done|].
  by rewrite filter_cons_False.
Qed.

Lemma filter_all {A} (Q : A → Prop) `{∀ x, Decision (Q x)} (l : list A) :
  Forall Q l → filter Q l = l.
Proof.
  induction 1 as [|x l Hx Hl IH]; [done|].
  rewrite filter_cons_True by done. by f_equal.
Qed.

Lemma lexCompare_snoc_nil t x : lexCompare (t ++ [x]) [] = Gt.
Proof. by destruct t. Qed.

(** Text nodes below child [k] of the node at [p0], against a boundary
    point whose path leaves [p0] through child [k']. *)
Lemma lexCompare_branch p0 k t u k' t' :
  lexCompare ((p0 ++ k :: t) ++ u) (p0 ++ k' :: t')
  = match Nat.compare k k' with
    | Eq => lexCompare (t ++ u) t'
    | c => c
    end.
Proof. rewrite <- app_assoc. by rewrite lexCompare_app. Qed.

Lemma contained_children p0 cs a b :
  a ≤ b ≤ length cs →
  concatText
    ((filter (λ qd, containedText p0 a p0 b qd)
        (flatMapi (λ k c, textNodesFrom (p0 ++ [k]) c) cs 0)).*2)
  = concatText (textContent <$> take (b - a) (drop a cs)).
Proof.
  intros Hab.
  set (f := λ k c, textNodesFrom (p0 ++ [k]) c).
  assert (Hcs : cs = take a cs ++ take (b - a) (drop a cs) ++ drop b cs).
  { rewrite <- (take_drop a cs) at 1. f_equal.
    rewrite <- (take_drop (b - a) (drop a cs)) at 1. f_equal.
    rewrite drop_drop. f_equal. lia. }
  assert (Hla : length (take a cs) = a) by (rewrite length_take; lia).
  assert (Hlm : length (take (b - a) (drop a cs)) = b - a).
  { rewrite length_take, length_drop. lia. }
  rewrite Hcs at 1. rewrite !flatMapi_app, !filter_app, Hla, Hlm.
  simpl plus.
  assert (Hside : ∀ l k0 (Q : Path * string → Prop),
            (∀ k t d, k0 ≤ k < k0 + length l → Q (p0 ++ k :: t, d)) →
            Forall Q (flatMapi f l k0)).
  { intros l k0 Q HQ. apply flatMapi_Forall. intros k c Hk _.
    eapply Forall_impl; [apply textNodesFrom_prefix|]. simpl.
    intros [q d] [t Ht]. simpl in Ht. subst q. rewrite <- app_assoc. simpl.
    by apply HQ. }
  rewrite (filter_none _ (flatMapi f (take a cs) 0)).
  2:{ apply Hside. intros k t d Hk. unfold containedText.
      rewrite bool_decide_spec. simpl. intros [H1 _].
      rewrite lexCompare_branch in H1.
      assert ((k ?= a) = Lt) as Hka by (apply Nat.compare_lt_iff; lia).
      by rewrite Hka in H1. }
  rewrite (filter_all _ (flatMapi f (take (b - a) (drop a cs)) a)).
  2:{ apply Hside. intros k t d Hk. unfold containedText.
      rewrite bool_decide_spec. simpl. rewrite !lexCompare_branch.
      assert ((k ?= b) = Lt) as -> by (apply Nat.compare_lt_iff; lia).
      split; [|done].
      destruct (Nat.compare_spec k a); [|lia|done].
      apply lexCompare_snoc_nil. }
  rewrite (filter_none _ (flatMapi f (drop b cs) _)).
  2:{ apply Hside. intros k t d Hk. unfold containedText.
      rewrite bool_decide_spec. simpl. intros [_ H2].
      rewrite lexCompare_branch in H2.
      destruct (Nat.compare_spec k b); [|lia|done].
      by rewrite lexCompare_snoc_nil in H2. }
  simpl. rewrite app_nil_r. apply flatMapi_text.
Qed.

Lemma contained_below q : ∀ p0 root i t s cs a b,
  descend q root = Some (Element i t s cs) → a ≤ b ≤ length cs →
  concatText
    ((filter (λ qd, containedText (p0 ++ q) a (p0 ++ q) b qd)
        (textNodesFrom p0 root)).*2)
  = concatText (textContent <$> take (b - a) (drop a cs)).
Proof.
  induction q as [|k' q IH]; intros p0 root i t s cs a b Hq Hab.
  - injection Hq as ->. rewrite app_nil_r. cbn [textNodesFrom].
    by apply contained_children.
  - simpl in Hq. destruct root as [j d|j t' s' kids]; [done|].
    cbn [childNodes] in Hq.
    destruct (kids !! k') as [c'|] eqn:Hc'; [|done]. simpl in Hq.
    cbn [textNodesFrom].
    set (f := λ k c, textNodesFrom (p0 ++ [k]) c).
    assert (Hlen : length (take k' kids) = k').
    { rewrite length_take. apply lookup_lt_Some in Hc'. lia. }
    rewrite <- (take_drop_middle kids k' c' Hc').
    rewrite flatMapi_app. cbn [flatMapi]. rewrite !filter_app, Hlen.
    simpl plus.
    assert (Hside : ∀ l k0 (Q : Path * string → Prop),
              (∀ k t d, k0 ≤ k < k0 + length l → Q (p0 ++ k :: t, d)) →
              Forall Q (flatMapi f l k0)).
    { intros l k0 Q HQ. apply flatMapi_Forall. intros k c Hk _.
      eapply Forall_impl; [apply textNodesFrom_prefix|]. simpl.
      intros [q0 d] [t0 Ht]. simpl in Ht. subst q0. rewrite <- app_assoc. simpl.
      by apply HQ. }
    assert (Hpath : ∀ o, (p0 ++ k' :: q) ++ [o] = p0 ++ k' :: (q ++ [o])).
    { intros o. by rewrite <- app_assoc. }
    rewrite (filter_none _ (flatMapi f (take k' kids) 0)).
    2:{ apply Hside. intros k t0 d Hk. unfold containedText.
        rewrite bool_decide_spec. simpl. intros [H1 _].
        rewrite Hpath, lexCompare_branch in H1.
        assert ((k ?= k') = Lt) as Hk' by (apply Nat.compare_lt_iff; lia).
        by rewrite Hk' in H1. }
    rewrite (filter_none _ (flatMapi f (drop (S k') kids) _)).
    2:{ apply Hside. intros k t0 d Hk. unfold containedText.
        rewrite bool_decide_spec. simpl. intros [_ H2].
        rewrite Hpath, lexCompare_branch in H2.
        assert ((k ?= k') = Gt) as Hk' by (apply Nat.compare_gt_iff; lia).
        by rewrite Hk' in H2. }
    rewrite app_nil_r. simpl app.
    unfold f. replace (p0 ++ k' :: q) with ((p0 ++ [k']) ++ q)
      by by rewrite <- app_assoc.
    by eapply IH.
Qed.

(** ** Counting attached elements *)

Lemma sum_list_app (l1 l2 : list nat) :
  sum_list (l1 ++ l2) = sum_list l1 + sum_list l2.
Proof. induction l1 as [|x l1 IH]; simpl; [done|]. rewrite IH. lia. Qed.





(** ** Mutations around one element

    The mutations that [highlight] and [removeHighlight] trigger all happen
    around one element [P] of the forest [F0]: among its children, and among
    the parentless trees created meanwhile.  The lemmas of this section
    compute each host operation on a forest [focus CS EXTRA]. *)
Section Focus.
Variables (F0 : list Node) (pp : Path) (P : NodeId) (tg : string) (st : Style).
Variables (cs0 : list Node) (ctx : list NodeId).
Hypothesis Hget : getAt pp F0 = Some (Element P tg st cs0).
Hypothesis Hctx : ∀ f, idsL (modAt pp f F0) ≡ₚ ids (f (Element P tg st cs0)) ++ ctx.

#[local] Abbreviation focus := (focus F0 pp).
#[local] Abbreviation Distinct := (Distinct P ctx).
#[local] Abbreviation Good := (Good P ctx).

Lemma Distinct_perm CS EXTRA CS' EXTRA' :
  idsL CS' ++ idsL EXTRA' ≡ₚ idsL CS ++ idsL EXTRA →
  Distinct CS EXTRA → Distinct CS' EXTRA'.
Proof using All.
  intros Hp. unfold Distinct.
  assert (P :: idsL CS' ++ ctx ++ idsL EXTRA'
          ≡ₚ P :: idsL CS ++ ctx ++ idsL EXTRA) as ->; [|done].
  apply perm_skip.
  transitivity (ctx ++ (idsL CS' ++ idsL EXTRA')); [solve_Permutation|].
  rewrite Hp. solve_Permutation.
Qed.

Lemma Good_Distinct nx CS EXTRA : Good nx CS EXTRA → Distinct CS EXTRA.
Proof using All. by intros [? _]. Qed.

Lemma Good_perm nx CS EXTRA CS' EXTRA' :
  idsL CS' ++ idsL EXTRA' ≡ₚ idsL CS ++ idsL EXTRA →
  Good nx CS EXTRA → Good nx CS' EXTRA'.
Proof using All.
  intros Hp. unfold Good, Distinct.
  assert (P :: idsL CS' ++ ctx ++ idsL EXTRA'
          ≡ₚ P :: idsL CS ++ ctx ++ idsL EXTRA) as ->; [|done].
  apply perm_skip.
  transitivity (ctx ++ (idsL CS' ++ idsL EXTRA')); [solve_Permutation|].
  rewrite Hp. solve_Permutation.
Qed.

Lemma Good_fresh nx CS EXTRA CS' EXTRA' :
  idsL CS' ++ idsL EXTRA' ≡ₚ nx :: idsL CS ++ idsL EXTRA →
  Good nx CS EXTRA → Good (S nx) CS' EXTRA'.
Proof using All.
  intros Hp [Hd Hf]. unfold Good, Distinct in *.
  assert (P :: idsL CS' ++ ctx ++ idsL EXTRA'
          ≡ₚ nx :: P :: idsL CS ++ ctx ++ idsL EXTRA) as ->.
  { transitivity (P :: ctx ++ (idsL CS' ++ idsL EXTRA')); [solve_Permutation|].
    rewrite Hp. solve_Permutation. }
  split.
  - apply NoDup_cons. split; [|done].
    intros Hin. rewrite Forall_forall in Hf. specialize (Hf _ Hin). lia.
  - apply Forall_cons. split; [lia|].
    eapply Forall_impl; [exact Hf|]. simpl. lia.
Qed.

Lemma focus_initial : focus cs0 [] = F0.
Proof using All.
  unfold focus. rewrite app_nil_r.
  rewrite (modAt_ext _ _ (λ _, Element P tg st cs0)).
  - by apply modAt_id.
  - intros m. rewrite Hget. by intros [= <-].
Qed.

Lemma idsL_focus CS EXTRA :
  idsL (focus CS EXTRA) ≡ₚ P :: idsL CS ++ ctx ++ idsL EXTRA.
Proof using All.
  unfold focus. rewrite idsL_app, Hctx. simpl.
  fold (idsL CS). solve_Permutation.
Qed.

Lemma focus_NoDup CS EXTRA : Distinct CS EXTRA → NoDup (idsL (focus CS EXTRA)).
Proof using All. unfold Distinct. by rewrite idsL_focus. Qed.

Lemma pp_head : default 0 (head pp) < length F0 ∧ pp ≠ [].
Proof using All.
  apply getAt_lt in Hget as (k & q & -> & Hk). by simpl.
Qed.

Lemma pp_head_focus CS :
  default 0 (head pp) < length (modAt pp (setChildNodes CS) F0).
Proof using All. rewrite length_modAt. apply pp_head. Qed.

Lemma getAt_focus CS EXTRA :
  getAt pp (focus CS EXTRA) = Some (Element P tg st CS).
Proof using All.
  unfold focus. rewrite getAt_app_l by apply pp_head_focus.
  by rewrite getAt_modAt, Hget.
Qed.

Lemma getAt_focus_child CS EXTRA m :
  getAt (pp ++ [m]) (focus CS EXTRA) = CS !! m.
Proof using All.
  rewrite getAt_app by apply pp_head. rewrite getAt_focus. simpl.
  by destruct (CS !! m).
Qed.

Lemma getAt_focus_grandchild CS EXTRA m q :
  getAt (pp ++ [m; q]) (focus CS EXTRA) = CS !! m ≫= λ y, childNodes y !! q.
Proof using All.
  rewrite getAt_app by apply pp_head. rewrite getAt_focus. simpl.
  destruct (CS !! m) as [y|]; simpl; [|done]. by destruct (childNodes y !! q).
Qed.

Lemma length_focus_base CS : length (modAt pp (setChildNodes CS) F0) = length F0.
Proof. apply length_modAt. Qed.

Lemma getAt_focus_extra CS EXTRA e :
  getAt [length F0 + e] (focus CS EXTRA) = EXTRA !! e.
Proof using All.
  unfold focus. simpl. rewrite <- (length_focus_base CS), lookup_app_r by lia.
  replace (_ + e - _) with e by lia. by destruct (EXTRA !! e).
Qed.

Lemma modAt_focus CS CS' EXTRA :
  modAt pp (setChildNodes CS') (focus CS EXTRA) = focus CS' EXTRA.
Proof using All.
  unfold focus. rewrite modAt_app_l by apply pp_head_focus.
  rewrite modAt_modAt. f_equal. apply modAt_ext.
  intros m. rewrite Hget. by intros [= <-].
Qed.

Lemma modAt_focus_child CS EXTRA m f :
  modAt (pp ++ [m]) f (focus CS EXTRA) = focus (alter f m CS) EXTRA.
Proof using All.
  destruct pp_head as [Hh Hne].
  rewrite modAt_app by done. unfold focus.
  rewrite modAt_app_l by apply pp_head_focus.
  rewrite modAt_modAt. f_equal. apply modAt_ext.
  intros n. rewrite Hget. by intros [= <-].
Qed.

Lemma modAt_focus_extra CS EXTRA e f :
  modAt [length F0 + e] f (focus CS EXTRA) = focus CS (alter f e EXTRA).
Proof using All.
  unfold focus. simpl. rewrite <- (length_focus_base CS).
  by rewrite alter_app_r.
Qed.

Lemma delete_focus_extra CS EXTRA e :
  delete (length F0 + e) (focus CS EXTRA) = focus CS (delete e EXTRA).
Proof using All.
  unfold focus. rewrite <- (length_focus_base CS).
  revert e. generalize (modAt pp (setChildNodes CS) F0).
  intros l. induction l as [|x l IH]; intros e; simpl; [done|].
  by rewrite IH.
Qed.

Lemma focus_snoc CS EXTRA l : focus CS EXTRA ++ l = focus CS (EXTRA ++ l).
Proof. unfold focus. by rewrite app_assoc. Qed.

(** *** Resolving handles *)

Lemma findPath_focus CS EXTRA p n :
  Distinct CS EXTRA → getAt p (focus CS EXTRA) = Some n →
  findPath (nid n) (focus CS EXTRA) = Some p.
Proof using All. intros Hd. apply findPath_getAt. by apply focus_NoDup. Qed.

Lemma findPath_P CS EXTRA :
  Distinct CS EXTRA → findPath P (focus CS EXTRA) = Some pp.
Proof using All.
  intros Hd. apply (findPath_focus CS EXTRA pp (Element P tg st CS) Hd).
  apply getAt_focus.
Qed.

Lemma findPath_child CS EXTRA m x :
  Distinct CS EXTRA → CS !! m = Some x →
  findPath (nid x) (focus CS EXTRA) = Some (pp ++ [m]).
Proof using All.
  intros Hd Hx. apply findPath_focus; [done|]. by rewrite getAt_focus_child.
Qed.

Lemma findPath_grandchild CS EXTRA m y q x :
  Distinct CS EXTRA → CS !! m = Some y → childNodes y !! q = Some x →
  findPath (nid x) (focus CS EXTRA) = Some (pp ++ [m; q]).
Proof using All.
  intros Hd Hy Hx. apply findPath_focus; [done|].
  rewrite getAt_focus_grandchild, Hy. done.
Qed.


(** *** Host operations at the focus *)

Abbreviation W CS EXTRA nx RS ws := (mkWorld (focus CS EXTRA) nx RS ws).

Lemma pathOf_focus CS EXTRA nx RS ws p n :
  Distinct CS EXTRA → getAt p (focus CS EXTRA) = Some n →
  pathOf (nid n) (W CS EXTRA nx RS ws) = (inr p, W CS EXTRA nx RS ws).
Proof using All.
  intros Hd Hn. unfold pathOf. simpl. by rewrite (findPath_focus _ _ p n).
Qed.

Lemma nodeAtPath_focus CS EXTRA nx RS ws p n :
  getAt p (focus CS EXTRA) = Some n →
  nodeAtPath p (W CS EXTRA nx RS ws) = (inr n, W CS EXTRA nx RS ws).
Proof using All. intros Hn. unfold nodeAtPath. simpl. by rewrite Hn. Qed.

Lemma nodeOf_focus CS EXTRA nx RS ws p n :
  Distinct CS EXTRA → getAt p (focus CS EXTRA) = Some n →
  nodeOf (nid n) (W CS EXTRA nx RS ws) = (inr n, W CS EXTRA nx RS ws).
Proof using All.
  intros Hd Hn. unfold nodeOf.
  rewrite (bind_inr _ _ _ _ _ (pathOf_focus _ _ _ _ _ p n Hd Hn)).
  by apply nodeAtPath_focus.
Qed.

Lemma pathOf_P CS EXTRA nx RS ws :
  Distinct CS EXTRA →
  pathOf P (W CS EXTRA nx RS ws) = (inr pp, W CS EXTRA nx RS ws).
Proof using All.
  intros Hd. apply (pathOf_focus _ _ _ _ _ pp (Element P tg st CS) Hd).
  apply getAt_focus.
Qed.

Lemma nodeAtPath_P CS EXTRA nx RS ws :
  nodeAtPath pp (W CS EXTRA nx RS ws)
  = (inr (Element P tg st CS), W CS EXTRA nx RS ws).
Proof using All. apply nodeAtPath_focus, getAt_focus. Qed.

Lemma pathOf_child CS EXTRA nx RS ws m x :
  Distinct CS EXTRA → CS !! m = Some x →
  pathOf (nid x) (W CS EXTRA nx RS ws) = (inr (pp ++ [m]), W CS EXTRA nx RS ws).
Proof using All.
  intros Hd Hx. apply pathOf_focus; [done|]. by rewrite getAt_focus_child.
Qed.

Lemma nodeAtPath_child CS EXTRA nx RS ws m x :
  CS !! m = Some x →
  nodeAtPath (pp ++ [m]) (W CS EXTRA nx RS ws) = (inr x, W CS EXTRA nx RS ws).
Proof using All.
  intros Hx. apply nodeAtPath_focus. by rewrite getAt_focus_child.
Qed.

Lemma pathOf_extra CS EXTRA nx RS ws e x :
  Distinct CS EXTRA → EXTRA !! e = Some x →
  pathOf (nid x) (W CS EXTRA nx RS ws)
  = (inr [length F0 + e], W CS EXTRA nx RS ws).
Proof using All.
  intros Hd Hx. apply pathOf_focus; [done|]. by rewrite getAt_focus_extra.
Qed.

Lemma nodeAtPath_extra CS EXTRA nx RS ws e x :
  EXTRA !! e = Some x →
  nodeAtPath [length F0 + e] (W CS EXTRA nx RS ws)
  = (inr x, W CS EXTRA nx RS ws).
Proof using All.
  intros Hx. apply nodeAtPath_focus. by rewrite getAt_focus_extra.
Qed.

Lemma parentAndIndex_focus CS EXTRA nx RS ws p k n :
  Distinct CS EXTRA → getAt (p ++ [k]) (focus CS EXTRA) = Some n →
  parentAndIndex (nid n) (W CS EXTRA nx RS ws)
  = (inr (match p with [] => None | _ => Some (p, k) end), W CS EXTRA nx RS ws).
Proof using All.
  intros Hd Hn. unfold parentAndIndex.
  rewrite (bind_inr _ _ _ _ _ (pathOf_focus _ _ _ _ _ _ n Hd Hn)).
  rewrite splitLast_snoc. by destruct p.
Qed.

Lemma parentAndIndex_child CS EXTRA nx RS ws m x :
  Distinct CS EXTRA → CS !! m = Some x →
  parentAndIndex (nid x) (W CS EXTRA nx RS ws)
  = (inr (Some (pp, m)), W CS EXTRA nx RS ws).
Proof using All.
  intros Hd Hx. rewrite (parentAndIndex_focus _ _ _ _ _ pp m x Hd).
  - destruct pp_head as [_ ?]. by destruct pp.
  - by rewrite getAt_focus_child.
Qed.

Lemma parentAndIndex_grandchild CS EXTRA nx RS ws m y q x :
  Distinct CS EXTRA → CS !! m = Some y → childNodes y !! q = Some x →
  parentAndIndex (nid x) (W CS EXTRA nx RS ws)
  = (inr (Some (pp ++ [m], q)), W CS EXTRA nx RS ws).
Proof using All.
  intros Hd Hy Hx. rewrite (parentAndIndex_focus _ _ _ _ _ (pp ++ [m]) q x Hd).
  - by destruct pp.
  - rewrite <- app_assoc. simpl. by rewrite getAt_focus_grandchild, Hy.
Qed.

Lemma parentAndIndex_extra CS EXTRA nx RS ws e x :
  Distinct CS EXTRA → EXTRA !! e = Some x →
  parentAndIndex (nid x) (W CS EXTRA nx RS ws) = (inr None, W CS EXTRA nx RS ws).
Proof using All.
  intros Hd Hx.
  rewrite (parentAndIndex_focus _ _ _ _ _ [] (length F0 + e) x Hd); [done|].
  simpl app. by rewrite getAt_focus_extra.
Qed.

Lemma parentAndIndex_P CS EXTRA nx RS ws :
  Distinct CS EXTRA →
  ∃ pk, parentAndIndex P (W CS EXTRA nx RS ws) = (inr pk, W CS EXTRA nx RS ws).
Proof using All.
  intros Hd. unfold parentAndIndex.
  rewrite (bind_inr _ _ _ _ _
             (pathOf_focus _ _ _ _ _ pp _ Hd (getAt_focus _ _))).
  destruct pp_head as [_ Hne].
  destruct (splitLast pp) as [[[|a q] k]|] eqn:E; eauto.
  exfalso. unfold splitLast in E. destruct (reverse pp) eqn:Er; [|done].
  apply (f_equal reverse) in Er. rewrite reverse_involutive in Er. done.
Qed.

Lemma nodeOf_P CS EXTRA nx RS ws :
  Distinct CS EXTRA →
  nodeOf P (W CS EXTRA nx RS ws) = (inr (Element P tg st CS), W CS EXTRA nx RS ws).
Proof using All.
  intros Hd. apply (nodeOf_focus _ _ _ _ _ pp (Element P tg st CS) Hd).
  apply getAt_focus.
Qed.

Lemma nodeOf_child CS EXTRA nx RS ws m x :
  Distinct CS EXTRA → CS !! m = Some x →
  nodeOf (nid x) (W CS EXTRA nx RS ws) = (inr x, W CS EXTRA nx RS ws).
Proof using All.
  intros Hd Hx. apply (nodeOf_focus _ _ _ _ _ (pp ++ [m]) x Hd).
  by rewrite getAt_focus_child.
Qed.

Lemma nodeOf_extra CS EXTRA nx RS ws e x :
  Distinct CS EXTRA → EXTRA !! e = Some x →
  nodeOf (nid x) (W CS EXTRA nx RS ws) = (inr x, W CS EXTRA nx RS ws).
Proof using All.
  intros Hd Hx. apply (nodeOf_focus _ _ _ _ _ [length F0 + e] x Hd).
  by rewrite getAt_focus_extra.
Qed.

(** Removing a child of [P]. *)
Lemma removeNode_child CS EXTRA nx RS ws m x :
  Distinct CS EXTRA → CS !! m = Some x →
  removeNode (nid x) (W CS EXTRA nx RS ws)
  = (inr tt,
     W (delete m CS) (EXTRA ++ [x]) nx
       (map (mapBoundaries (removeShift P m))
          (map (mapBoundaries (removeCollapse (ids x) P m)) RS)) ws).
Proof using All.
  intros Hd Hx. unfold removeNode.
  rewrite (bind_inr _ _ _ _ _ (parentAndIndex_child _ _ _ _ _ m x Hd Hx)).
  rewrite (bind_inr _ _ _ _ _ (nodeAtPath_focus _ _ _ _ _ pp _ (getAt_focus _ _))).
  rewrite (bind_inr _ _ _ _ _ (nodeOf_child _ _ _ _ _ m x Hd Hx)).
  unfold bind, modify, liveRangeUpdate, addRoot, setRanges, setRoots, modify.
  simpl. by rewrite modAt_focus, focus_snoc.
Qed.

Lemma createElement_focus CS EXTRA nx RS ws tag :
  validElementName tag = true →
  createElement tag (W CS EXTRA nx RS ws)
  = (inr nx, W CS (EXTRA ++ [Element nx tag [] []]) (S nx) RS ws).
Proof using All.
  intros Hv. unfold createElement. rewrite Hv.
  unfold bind, freshId, addRoot, modify, setRoots, ret. simpl.
  by rewrite focus_snoc.
Qed.

Lemma createText_focus CS EXTRA nx RS ws data :
  createText data (W CS EXTRA nx RS ws)
  = (inr nx, W CS (EXTRA ++ [Text nx data]) (S nx) RS ws).
Proof using All.
  unfold createText, bind, freshId, addRoot, modify, setRoots, ret. simpl.
  by rewrite focus_snoc.
Qed.

Lemma decorate_extra CS EXTRA nx RS ws e x decorator :
  Distinct CS EXTRA → EXTRA !! e = Some x →
  decorate (nid x) decorator (W CS EXTRA nx RS ws)
  = (inr tt, W CS (alter (setStyle decorator) e EXTRA) nx RS ws).
Proof using All.
  intros Hd Hx. unfold decorate.
  erewrite bind_inr;
    [|by eapply (pathOf_focus _ _ _ _ _ [length F0 + e] x);
         [|rewrite getAt_focus_extra]].
  unfold modify, setRoots. simpl roots. by rewrite modAt_focus_extra.
Qed.

Lemma removeNode_grandchild CS EXTRA nx RS ws m y q x :
  Distinct CS EXTRA → CS !! m = Some y → childNodes y !! q = Some x →
  removeNode (nid x) (W CS EXTRA nx RS ws)
  = (inr tt,
     W (alter (setChildNodes (delete q (childNodes y))) m CS) (EXTRA ++ [x]) nx
       (map (mapBoundaries (removeShift (nid y) q))
          (map (mapBoundaries (removeCollapse (ids x) (nid y) q)) RS)) ws).
Proof using All.
  intros Hd Hy Hx. unfold removeNode.
  rewrite (bind_inr _ _ _ _ _ (parentAndIndex_grandchild _ _ _ _ _ m y q x Hd Hy Hx)).
  erewrite bind_inr;
    [|by eapply (nodeAtPath_focus _ _ _ _ _ (pp ++ [m]) y);
         rewrite getAt_focus_child].
  erewrite bind_inr;
    [|by eapply (nodeOf_focus _ _ _ _ _ (pp ++ [m; q]) x);
         [|rewrite getAt_focus_grandchild, Hy]].
  unfold bind, modify, liveRangeUpdate, addRoot, setRanges, setRoots, modify.
  simpl. by rewrite modAt_focus_child, focus_snoc.
Qed.

Lemma indexBefore_P_Some CS EXTRA nx RS ws k b :
  Distinct CS EXTRA → CS !! k = Some b →
  indexBefore P (Some (nid b)) (W CS EXTRA nx RS ws)
  = (inr k, W CS EXTRA nx RS ws).
Proof using All.
  intros Hd Hb. unfold indexBefore.
  by rewrite (bind_inr _ _ _ _ _ (parentAndIndex_child _ _ _ _ _ k b Hd Hb)).
Qed.

Lemma indexBefore_P_None CS EXTRA nx RS ws :
  Distinct CS EXTRA →
  indexBefore P None (W CS EXTRA nx RS ws)
  = (inr (length CS), W CS EXTRA nx RS ws).
Proof using All.
  intros Hd. unfold indexBefore.
  by rewrite (bind_inr _ _ _ _ _ (nodeOf_P _ _ _ _ _ Hd)).
Qed.

Lemma indexBefore_child_None CS EXTRA nx RS ws m y :
  Distinct CS EXTRA → CS !! m = Some y →
  indexBefore (nid y) None (W CS EXTRA nx RS ws)
  = (inr (length (childNodes y)), W CS EXTRA nx RS ws).
Proof using All.
  intros Hd Hy. unfold indexBefore.
  by rewrite (bind_inr _ _ _ _ _ (nodeOf_child _ _ _ _ _ m y Hd Hy)).
Qed.

Lemma Distinct_delete_extra CS EXTRA e :
  Distinct CS EXTRA → Distinct CS (delete e EXTRA).
Proof using All.
  unfold Distinct. intros Hd.
  destruct (EXTRA !! e) as [x|] eqn:Hx.
  - rewrite (idsL_delete EXTRA e x Hx) in Hd.
    assert (P :: idsL CS ++ ctx ++ ids x ++ idsL (delete e EXTRA)
            ≡ₚ ids x ++ P :: idsL CS ++ ctx ++ idsL (delete e EXTRA)) as Hp
      by solve_Permutation.
    rewrite Hp in Hd. by apply NoDup_app in Hd as (_ & _ & ?).
  - rewrite delete_take_drop.
    apply lookup_ge_None in Hx.
    by rewrite take_ge, drop_ge, app_nil_r by lia.
Qed.

(** Moving a parentless tree among the children of [P], before the child
    [ref] of index [k] or, without [ref], at the end. *)
Lemma insertNode_extra_P CS EXTRA nx RS ws e n (ref : option Node) k :
  Distinct CS EXTRA → EXTRA !! e = Some n →
  match ref with Some b => CS !! k = Some b | None => k = length CS end →
  insertNode (nid n) P (nid <$> ref) (W CS EXTRA nx RS ws)
  = (inr tt,
     W (take k CS ++ n :: drop k CS) (delete e EXTRA) nx
       (match ref with
        | Some _ => map (mapBoundaries (insertShift P k)) RS
        | None => RS
        end) ws).
Proof using All.
  intros Hd Hn Href. unfold insertNode.
  pose proof (Distinct_delete_extra _ _ e Hd) as Hd'.
  set (RS' := match ref with
              | Some _ => map (mapBoundaries (insertShift P k)) RS
              | None => RS
              end).
  erewrite (bind_inr _ _ _ tt (W CS EXTRA nx RS' ws)); last first.
  { destruct ref as [b|]; simpl; [|done].
    by rewrite (bind_inr _ _ _ _ _ (indexBefore_P_Some _ _ _ _ _ k b Hd Href)). }
  rewrite (bind_inr _ _ _ _ _ (parentAndIndex_extra _ _ _ _ _ e n Hd Hn)).
  rewrite bind_ret.
  rewrite (bind_inr _ _ _ _ _ (pathOf_extra _ _ _ _ _ e n Hd Hn)).
  rewrite (bind_inr _ _ _ _ _ (nodeAtPath_extra _ _ _ _ _ e n Hn)).
  rewrite bind_modify. unfold setRoots. simpl.
  rewrite delete_focus_extra.
  erewrite (bind_inr _ _ _ k); last first.
  { destruct ref as [b|]; simpl.
    - by apply indexBefore_P_Some.
    - subst k. by apply indexBefore_P_None. }
  rewrite (bind_inr _ _ _ _ _ (pathOf_P _ _ _ _ _ Hd')).
  rewrite (bind_inr _ _ _ _ _ (nodeAtPath_P _ _ _ _ _)).
  unfold modify. simpl. by rewrite modAt_focus.
Qed.

(** Appending a parentless tree to the children of a child of [P]. *)
Lemma insertNode_extra_child CS EXTRA nx RS ws e n m y :
  Distinct CS EXTRA → EXTRA !! e = Some n → CS !! m = Some y →
  insertNode (nid n) (nid y) None (W CS EXTRA nx RS ws)
  = (inr tt,
     W (alter (setChildNodes (childNodes y ++ [n])) m CS) (delete e EXTRA)
       nx RS ws).
Proof using All.
  intros Hd Hn Hy. unfold insertNode.
  pose proof (Distinct_delete_extra _ _ e Hd) as Hd'.
  rewrite bind_ret.
  rewrite (bind_inr _ _ _ _ _ (parentAndIndex_extra _ _ _ _ _ e n Hd Hn)).
  rewrite bind_ret.
  rewrite (bind_inr _ _ _ _ _ (pathOf_extra _ _ _ _ _ e n Hd Hn)).
  rewrite (bind_inr _ _ _ _ _ (nodeAtPath_extra _ _ _ _ _ e n Hn)).
  rewrite bind_modify. unfold setRoots. simpl.
  rewrite delete_focus_extra.
  rewrite (bind_inr _ _ _ _ _ (indexBefore_child_None _ _ _ _ _ m y Hd' Hy)).
  rewrite (bind_inr _ _ _ _ _ (pathOf_child _ _ _ _ _ m y Hd' Hy)).
  rewrite (bind_inr _ _ _ _ _ (nodeAtPath_child _ _ _ _ _ m y Hy)).
  unfold modify. simpl. rewrite modAt_focus_child.
  by rewrite firstn_all, drop_all.
Qed.

Lemma nid_setChildNodes cs n : nid (setChildNodes cs n) = nid n.
Proof using All. by destruct n. Qed.

Lemma nid_setData d n : nid (setData d n) = nid n.
Proof using All. by destruct n. Qed.

(** Moving a grandchild of [P] among the children of [P], before its
    parent: one turn of the loop of [removeHighlight]. *)
Lemma insertNode_grandchild_P CS EXTRA nx RS ws m y q x :
  Distinct CS EXTRA → CS !! m = Some y → childNodes y !! q = Some x →
  let CS' := alter (setChildNodes (delete q (childNodes y))) m CS in
  insertNode (nid x) P (Some (nid y)) (W CS EXTRA nx RS ws)
  = (inr tt,
     W (take m CS' ++ x :: drop m CS') EXTRA nx
       (map (mapBoundaries (removeShift (nid y) q))
          (map (mapBoundaries (removeCollapse (ids x) (nid y) q))
             (map (mapBoundaries (insertShift P m)) RS))) ws).
Proof using All.
  intros Hd Hy Hx CS'. unfold insertNode.
  assert (Hyt : isText y = false) by (by destruct y).
  assert (Hy' : CS' !! m = Some (setChildNodes (delete q (childNodes y)) y)).
  { unfold CS'. by rewrite list_lookup_alter_eq, Hy. }
  assert (Hd1 : Distinct CS' (EXTRA ++ [x])).
  { eapply Distinct_perm; [|exact Hd]. unfold CS'.
    rewrite idsL_app, idsL_cons, app_nil_r.
    rewrite (idsL_alter _ m CS y Hy), (idsL_split CS m y Hy).
    rewrite ids_setChildNodes by done. rewrite (ids_unfold y).
    rewrite (idsL_delete (childNodes y) q x Hx). solve_Permutation. }
  assert (Hd2 : Distinct CS' EXTRA).
  { rewrite <- (delete_snoc EXTRA x). by apply Distinct_delete_extra. }
  erewrite (bind_inr _ _ _ tt
              (W CS EXTRA nx (map (mapBoundaries (insertShift P m)) RS) ws));
    last first.
  { by rewrite (bind_inr _ _ _ _ _ (indexBefore_P_Some _ _ _ _ _ m y Hd Hy)). }
  rewrite (bind_inr _ _ _ _ _ (parentAndIndex_grandchild _ _ _ _ _ m y q x Hd Hy Hx)).
  rewrite (bind_inr _ _ _ _ _ (removeNode_grandchild _ _ _ _ _ m y q x Hd Hy Hx)).
  fold CS'.
  rewrite (bind_inr _ _ _ _ _
             (pathOf_extra _ _ _ _ _ (length EXTRA) x Hd1 (lookup_snoc _ _))).
  rewrite (bind_inr _ _ _ _ _
             (nodeAtPath_extra _ _ _ _ _ (length EXTRA) x (lookup_snoc _ _))).
  rewrite bind_modify. unfold setRoots. simpl.
  rewrite delete_focus_extra, delete_snoc.
  pose proof (indexBefore_P_Some CS' EXTRA nx
    (map (mapBoundaries (removeShift (nid y) q))
       (map (mapBoundaries (removeCollapse (ids x) (nid y) q))
          (map (mapBoundaries (insertShift P m)) RS))) ws m _ Hd2 Hy') as Hidx.
  rewrite nid_setChildNodes in Hidx.
  rewrite (bind_inr _ _ _ _ _ Hidx).
  rewrite (bind_inr _ _ _ _ _ (pathOf_P _ _ _ _ _ Hd2)).
  rewrite (bind_inr _ _ _ _ _ (nodeAtPath_P _ _ _ _ _)).
  unfold modify. simpl. by rewrite modAt_focus.
Qed.

Lemma ensurePreInsertValidity_P CS EXTRA nx RS ws x px (ref : option Node) k :
  Distinct CS EXTRA →
  pathOf x (W CS EXTRA nx RS ws) = (inr px, W CS EXTRA nx RS ws) →
  ¬ px `prefix_of` pp →
  match ref with Some b => CS !! k = Some b | None => True end →
  ensurePreInsertValidity x P (nid <$> ref) (W CS EXTRA nx RS ws)
  = (inr tt, W CS EXTRA nx RS ws).
Proof using All.
  intros Hd Hpx Hpre Href. unfold ensurePreInsertValidity.
  rewrite (bind_inr _ _ _ _ _ (pathOf_P _ _ _ _ _ Hd)).
  rewrite (bind_inr _ _ _ _ _ (nodeAtPath_P _ _ _ _ _)). cbn [isText].
  rewrite (bind_inr _ _ _ _ _ Hpx).
  rewrite decide_False by done.
  destruct ref as [b|]; simpl; [|done].
  rewrite (bind_inr _ _ _ _ _ (parentAndIndex_child _ _ _ _ _ k b Hd Href)).
  by rewrite decide_True.
Qed.

Lemma extra_not_prefix e : ¬ [length F0 + e] `prefix_of` pp.
Proof using All.
  destruct pp_head as [Hh _]. intros [q Hq]. rewrite Hq in Hh. simpl in Hh. lia.
Qed.

Lemma below_not_prefix q : q ≠ [] → ¬ (pp ++ q) `prefix_of` pp.
Proof using All.
  intros Hq [q' Hq']. apply (f_equal length) in Hq'.
  rewrite !length_app in Hq'. destruct q; [done|]. simpl in Hq'. lia.
Qed.

(** "Replace data" on a text child of [P]. *)
Lemma replaceData_child CS EXTRA nx RS ws m c d offset count data :
  Distinct CS EXTRA → CS !! m = Some (Text c d) →
  offset ≤ String.length d →
  let count' := if decide (String.length d < offset + count)
                then String.length d - offset else count in
  let d' := String.substring 0 offset d +:+ data
            +:+ String.substring (offset + count')
                  (String.length d - (offset + count')) d in
  replaceData c offset count data (W CS EXTRA nx RS ws)
  = (inr tt,
     W (alter (setData d') m CS) EXTRA nx
       (map (mapBoundaries (replaceShift c offset count' (String.length data)))
          (map (mapBoundaries (replaceCollapse c offset count')) RS)) ws).
Proof using All.
  intros Hd Hc Hoff count' d'. unfold replaceData.
  rewrite (bind_inr _ _ _ _ _ (pathOf_child _ _ _ _ _ m (Text c d) Hd Hc)).
  rewrite (bind_inr _ _ _ _ _ (nodeAtPath_child _ _ _ _ _ m (Text c d) Hc)).
  rewrite decide_False by lia.
  fold count'. fold d'.
  unfold bind, modify, liveRangeUpdate, setRanges, setRoots. simpl.
  by rewrite modAt_focus_child.
Qed.

Lemma Good_createText nx CS EXTRA data :
  Good nx CS EXTRA → Good (S nx) CS (EXTRA ++ [Text nx data]).
Proof using All.
  apply Good_fresh. rewrite idsL_app. simpl. solve_Permutation.
Qed.

Lemma Good_createElement nx CS EXTRA tag sty :
  Good nx CS EXTRA → Good (S nx) CS (EXTRA ++ [Element nx tag sty []]).
Proof using All.
  apply Good_fresh. rewrite idsL_app. simpl. solve_Permutation.
Qed.

(** "Split a Text node" on a text child of [P]. *)
Lemma splitText_child A B EXTRA nx RS ws c d offset :
  Good nx (A ++ Text c d :: B) EXTRA → offset ≤ String.length d →
  let count := String.length d - offset in
  let d1 := String.substring 0 offset d +:+ EmptyString
            +:+ String.substring (offset + count)
                  (String.length d - (offset + count)) d in
  let new := Text nx (String.substring offset count d) in
  let RS1 := match head B with
             | Some _ => map (mapBoundaries (insertShift P (S (length A)))) RS
             | None => RS
             end in
  splitText c offset (W (A ++ Text c d :: B) EXTRA nx RS ws)
  = (inr nx,
     W (A ++ Text c d1 :: new :: B) EXTRA (S nx)
       (map (mapBoundaries (replaceShift c offset count 0))
          (map (mapBoundaries (replaceCollapse c offset count))
             (map (mapBoundaries (splitBump P (length A)))
                (map (mapBoundaries (splitMove c nx offset)) RS1)))) ws).
Proof using All.
  intros Hg Hoff count d1 new RS1.
  set (CS := A ++ Text c d :: B).
  assert (Hc : CS !! length A = Some (Text c d)) by by apply list_lookup_middle.
  pose proof (Good_Distinct _ _ _ Hg) as Hd.
  pose proof (Good_createText _ _ _ (String.substring offset count d) Hg) as Hg1.
  fold new in Hg1. pose proof (Good_Distinct _ _ _ Hg1) as Hd1.
  unfold splitText.
  rewrite (bind_inr _ _ _ _ _ (nodeOf_child _ _ _ _ _ _ _ Hd Hc)).
  rewrite decide_False by lia. fold count.
  rewrite (bind_inr _ _ _ _ _ (createText_focus _ _ _ _ _ _)). fold new.
  rewrite (bind_inr _ _ _ _ _ (parentAndIndex_child _ _ _ _ _ _ _ Hd1 Hc)).
  assert (Hnext : CS !! S (length A) = head B) by apply lookup_S_middle.
  erewrite (bind_inr _ _ _ tt
    (W (A ++ Text c d :: new :: B) EXTRA (S nx)
       (map (mapBoundaries (splitBump P (length A)))
          (map (mapBoundaries (splitMove c nx offset)) RS1)) ws)); last first.
  { rewrite (bind_inr _ _ _ _ _ (nodeAtPath_P _ _ _ _ _)).
    cbn [nid childNodes]. rewrite lookup_S_middle.
    change nx with (nid new) at 1.
    rewrite (bind_inr _ _ _ _ _
      (insertNode_extra_P _ _ _ _ _ (length EXTRA) new (head B) (S (length A))
         Hd1 (lookup_snoc _ _)
         ltac:(destruct B; [unfold CS; rewrite length_app; simpl; lia | done]))).
    rewrite delete_snoc. unfold CS.
    rewrite take_S_middle, drop_S_middle, <- app_assoc. simpl app.
    unfold bind, modify, liveRangeUpdate, setRanges. simpl.
    subst RS1. by destruct (head B). }
  assert (Hg2 : Good (S nx) (A ++ Text c d :: new :: B) EXTRA).
  { eapply Good_perm; [|exact Hg1]. unfold CS.
    rewrite !idsL_app, !idsL_cons. simpl. solve_Permutation. }
  pose proof (replaceData_child (A ++ Text c d :: new :: B) EXTRA (S nx)
    (map (mapBoundaries (splitBump P (length A)))
       (map (mapBoundaries (splitMove c nx offset)) RS1)) ws
    (length A) c d offset count EmptyString (Good_Distinct _ _ _ Hg2)
    ltac:(by apply list_lookup_middle) Hoff) as Hrep.
  cbv zeta in Hrep. rewrite decide_False in Hrep by (unfold count; lia).
  rewrite alter_middle in Hrep. cbn [setData] in Hrep.
  rewrite (bind_inr _ _ _ _ _ Hrep). done.
Qed.

(** *** The steps of [surroundContents] *)

Ltac bsimpl :=
  cbn [fst snd startContainer startOffset endContainer endOffset
       fmap option_fmap option_map].

Lemma rangeObj_focus CS EXTRA nx RS ws r rg :
  RS !! r = Some rg →
  rangeObj r (W CS EXTRA nx RS ws) = (inr rg, W CS EXTRA nx RS ws).
Proof using All. intros Hr. unfold rangeObj. simpl. by rewrite Hr. Qed.

Lemma putRange_focus CS EXTRA nx RS ws r rg :
  putRange r rg (W CS EXTRA nx RS ws)
  = (inr tt, W CS EXTRA nx (<[r := rg]> RS) ws).
Proof using All. done. Qed.

Lemma Distinct_P_notin CS EXTRA x k :
  Distinct CS EXTRA → CS !! k = Some x → P ∉ ids x.
Proof using All.
  unfold Distinct. intros Hd Hx Hin. apply NoDup_cons in Hd as [Hd _].
  apply Hd. rewrite elem_of_app. left. by eapply idsL_lookup.
Qed.

Lemma Distinct_child_extra CS EXTRA x k y e :
  Distinct CS EXTRA → CS !! k = Some x → EXTRA !! e = Some y → nid x ≠ nid y.
Proof using All.
  unfold Distinct. intros Hd Hx Hy Heq. apply NoDup_cons in Hd as [_ Hd].
  apply NoDup_app in Hd as (_ & Hd & _).
  apply (Hd (nid x)).
  - eapply idsL_lookup; [done|]. apply nid_in_ids.
  - rewrite elem_of_app. right. rewrite Heq.
    eapply idsL_lookup; [done|]. apply nid_in_ids.
Qed.

(** "Extract" on a range inside one text child of [P]. *)
Lemma extractContents_text_data A B EXTRA nx RS ws r c d i j :
  Good nx (A ++ Text c d :: B) EXTRA →
  RS !! r = Some (mkRange c i c j) → i < j → j ≤ String.length d →
  ∃ RS',
    extractContents r (W (A ++ Text c d :: B) EXTRA nx RS ws)
    = (inr [nx],
       W (A ++ Text c (String.substring 0 i d
                       +:+ String.substring j (String.length d - j) d) :: B)
         (EXTRA ++ [Text nx (String.substring i (j - i) d)]) (S nx) RS' ws)
    ∧ RS' !! r = Some (mkRange c i c i).
Proof using All.
  intros Hg Hr Hij Hj.
  pose proof (Good_Distinct _ _ _ Hg) as Hd.
  pose proof (Good_createText _ _ _ (String.substring i (j - i) d) Hg) as Hg1.
  assert (Hc : (A ++ Text c d :: B) !! length A = Some (Text c d))
    by by apply list_lookup_middle.
  pose proof (replaceData_child (A ++ Text c d :: B)
    (EXTRA ++ [Text nx (String.substring i (j - i) d)]) (S nx) RS ws
    (length A) c d i (j - i) EmptyString (Good_Distinct _ _ _ Hg1) Hc
    ltac:(lia)) as Hrep.
  cbv zeta in Hrep. rewrite decide_False in Hrep by lia.
  rewrite alter_middle in Hrep. cbn [setData] in Hrep.
  change (?a +:+ EmptyString +:+ ?b)%string with (a +:+ b)%string in Hrep.
  replace (i + (j - i)) with j in Hrep by lia.
  eexists. split.
  - unfold extractContents.
    rewrite (bind_inr _ _ _ _ _ (rangeObj_focus _ _ _ _ _ _ _ Hr)).
    cbn [startContainer endContainer startOffset endOffset].
    rewrite decide_False by (intros ?; done).
    rewrite decide_False by lia.
    rewrite (bind_inr _ _ _ _ _ (nodeOf_child _ _ _ _ _ _ _ Hd Hc)).
    rewrite decide_False by lia.
    rewrite (bind_inr _ _ _ _ _ (createText_focus _ _ _ _ _ _)).
    rewrite (bind_inr _ _ _ _ _ Hrep). reflexivity.
  - rewrite !list_lookup_fmap, Hr. bsimpl.
    rewrite mapBoundaries_mk.
    rewrite replaceCollapse_fix by (cbn [fst snd]; lia).
    rewrite replaceCollapse_hit by lia. cbn [fst snd].
    by range_fix lia.
Qed.

Lemma Distinct_text_child A B EXTRA c d : Distinct (A ++ Text c d :: B) EXTRA → c ≠ P.
Proof using All.
  intros Hd ->.
  apply (Distinct_P_notin _ _ (Text P d) (length A) Hd).
  - by apply list_lookup_middle.
  - simpl. apply list_elem_of_here.
Qed.

(** "Insert a node into a range" collapsed inside a text child of [P]. *)
Lemma insertIntoRange_text_data A B EXTRA nx RS ws r c d i e wn :
  Good nx (A ++ Text c d :: B) EXTRA →
  RS !! r = Some (mkRange c i c i) → i ≤ String.length d →
  EXTRA !! e = Some wn →
  ∃ RS',
    insertIntoRange r (nid wn) (W (A ++ Text c d :: B) EXTRA nx RS ws)
    = (inr tt,
       W (A ++ Text c (String.substring 0 i d) :: wn
            :: Text nx (String.substring i (String.length d - i) d) :: B)
         (delete e EXTRA) (S nx) RS' ws)
    ∧ RS' !! r = Some (mkRange c i P (S (S (length A)))).
Proof using All.
  intros Hg Hr Hi Hw.
  pose proof (Good_Distinct _ _ _ Hg) as Hd.
  assert (Hc : (A ++ Text c d :: B) !! length A = Some (Text c d))
    by by apply list_lookup_middle.
  pose proof (Distinct_text_child _ _ _ _ _ Hd) as HcP.
  pose proof (Distinct_child_extra _ _ _ _ _ _ Hd Hc Hw) as Hcw. simpl in Hcw.
  pose proof (splitText_child A B EXTRA nx RS ws c d i Hg Hi) as Hsplit.
  cbv zeta in Hsplit.
  change (?a +:+ EmptyString +:+ ?b)%string with (a +:+ b)%string in Hsplit.
  replace (String.length d - (i + (String.length d - i))) with 0 in Hsplit by lia.
  rewrite substring_zero, string_app_nil_r in Hsplit.
  set (d1 := String.substring 0 i d) in *.
  set (d2 := String.substring i (String.length d - i) d) in *.
  set (RS2 := map _ (map _ (map _ (map _ _)))) in Hsplit.
  assert (Hg2 : Good (S nx) (A ++ Text c d1 :: Text nx d2 :: B) EXTRA).
  { eapply (Good_fresh nx (A ++ Text c d :: B) EXTRA); [|done].
    ids_perm. }
  pose proof (Good_Distinct _ _ _ Hg2) as Hd2.
  assert (Hnew : (A ++ Text c d1 :: Text nx d2 :: B) !! S (length A)
                 = Some (Text nx d2)) by by rewrite lookup_S_middle.
  assert (Hr2 : RS2 !! r = Some (mkRange c i c i)).
  { subst RS2. rewrite !list_lookup_fmap.
    assert ((match head B with
             | Some _ => map (mapBoundaries (insertShift P (S (length A)))) RS
             | None => RS
             end) !! r = Some (mkRange c i c i)) as ->.
    { destruct (head B); [|done]. rewrite list_lookup_fmap, Hr. bsimpl.
      by range_fix ltac:(intros [? ?]; done). }
    bsimpl.
    range_fix lia.
    range_fix ltac:(intros [? ?]; done).
    range_fix lia.
    by range_fix lia. }
  eexists. split.
  - unfold insertIntoRange.
    rewrite (bind_inr _ _ _ _ _ (rangeObj_focus _ _ _ _ _ _ _ Hr)).
    cbn [startContainer endContainer startOffset endOffset].
    rewrite (bind_inr _ _ _ _ _ (nodeOf_child _ _ _ _ _ _ _ Hd Hc)).
    rewrite (bind_inr _ _ _ _ _ (parentAndIndex_child _ _ _ _ _ _ _ Hd Hc)).
    rewrite (bool_decide_eq_false_2 (c = nid wn)) by done.
    cbn [isText orb andb]. rewrite bool_decide_eq_false_2 by done.
    erewrite (bind_inr _ _ _ (Some c, P)); last first.
    { by rewrite (bind_inr _ _ _ _ _ (nodeAtPath_P _ _ _ _ _)). }
    cbn [fst snd].
    rewrite (bind_inr _ _ _ _ _
      (ensurePreInsertValidity_P _ _ _ _ _ (nid wn) _ (Some (Text c d)) (length A)
         Hd (pathOf_extra _ _ _ _ _ e wn Hd Hw) (extra_not_prefix e) Hc)).
    erewrite (bind_inr _ _ _ (Some nx)); last first.
    { by rewrite (bind_inr _ _ _ _ _ Hsplit). }
    pose proof (indexBefore_P_Some _ EXTRA (S nx) RS2 ws _ _ Hd2 Hnew) as Hidx.
    cbn [nid] in Hidx. rewrite (bind_inr _ _ _ _ _ Hidx).
    pose proof (insertNode_extra_P _ _ (S nx) RS2 ws e wn (Some (Text nx d2))
                  (S (length A)) Hd2 Hw Hnew) as Hins.
    cbn [fmap option_fmap option_map nid] in Hins.
    rewrite (bind_inr _ _ _ _ _ Hins).
    rewrite take_S_middle, drop_S_middle, <- app_assoc. simpl app.
    erewrite (bind_inr _ _ _ (mkRange c i c i)); last first.
    { apply rangeObj_focus. rewrite list_lookup_fmap, Hr2. bsimpl.
      by range_fix ltac:(intros [? ?]; done). }
    cbn [startContainer endContainer startOffset endOffset].
    rewrite bool_decide_eq_true_2 by done.
    rewrite putRange_focus. reflexivity.
  - apply list_lookup_insert_eq. rewrite length_map.
    eapply lookup_lt_Some, Hr2.
Qed.

(** Appending the extracted trees to the wrapper, child of [P]. *)
Lemma appendAll_wrapper MID : ∀ A B E1 E2 nx RS ws w tag sty ys,
  Distinct (A ++ Element w tag sty ys :: B) (E1 ++ MID ++ E2) →
  appendAll (nid <$> MID) w
    (W (A ++ Element w tag sty ys :: B) (E1 ++ MID ++ E2) nx RS ws)
  = (inr tt, W (A ++ Element w tag sty (ys ++ MID) :: B) (E1 ++ E2) nx RS ws).
Proof using All.
  induction MID as [|x MID IH]; intros A B E1 E2 nx RS ws w tag sty ys Hd.
  - simpl. by rewrite app_nil_r.
  - cbn [fmap list_fmap appendAll].
    pose proof (insertNode_extra_child _ _ nx RS ws (length E1) x (length A)
                  (Element w tag sty ys) Hd
                  ltac:(by apply list_lookup_middle)
                  ltac:(by apply list_lookup_middle)) as Hins.
    cbn [nid childNodes] in Hins. rewrite alter_middle in Hins.
    cbn [setChildNodes app] in Hins.
    rewrite (delete_middle E1 (MID ++ E2) x) in Hins.
    rewrite (bind_inr _ _ _ _ _ Hins).
    rewrite IH.
    + by rewrite <- app_assoc.
    + eapply Distinct_perm; [|exact Hd].
      ids_perm.
Qed.

Lemma selectNode_child CS EXTRA nx RS ws r k x :
  Distinct CS EXTRA → CS !! k = Some x →
  selectNode r (nid x) (W CS EXTRA nx RS ws)
  = (inr tt, W CS EXTRA nx (<[r := mkRange P k P (S k)]> RS) ws).
Proof using All.
  intros Hd Hx. unfold selectNode.
  rewrite (bind_inr _ _ _ _ _ (parentAndIndex_child _ _ _ _ _ _ _ Hd Hx)).
  by rewrite (bind_inr _ _ _ _ _ (nodeAtPath_P _ _ _ _ _)).
Qed.

(** The first checks of [surroundContents] on a fresh element. *)
Lemma surroundContents_unfold CS EXTRA nx RS ws r e w tag sty :
  Distinct CS EXTRA → EXTRA !! e = Some (Element w tag sty []) →
  surroundContents r w (W CS EXTRA nx RS ws)
  = (let* fragment := extractContents r in
     let* _ := insertIntoRange r w in
     let* _ := appendAll fragment w in
     selectNode r w) (W CS EXTRA nx RS ws).
Proof using All.
  intros Hd Hw. unfold surroundContents.
  rewrite (bind_inr _ _ _ _ _ (nodeOf_extra _ _ _ _ _ e _ Hd Hw)).
  by rewrite (bind_inr _ _ _ _ _ (parentAndIndex_extra _ _ _ _ _ e _ Hd Hw)).
Qed.

(** [surroundContents] on a range inside one text child of [P], with the
    data of the three pieces the text node ends up in. *)
Lemma surroundContents_text_data A B EXTRA nx RS ws r c d i j w tag sty :
  Good nx (A ++ Text c d :: B) (EXTRA ++ [Element w tag sty []]) →
  RS !! r = Some (mkRange c i c j) → i ≤ j → j ≤ String.length d →
  let MID := if decide (i = j) then []
             else [Text nx (String.substring i (j - i) d)] in
  let nx' := if decide (i = j) then S nx else S (S nx) in
  let d1 := String.substring 0 i d in
  let d2 := String.substring j (String.length d - j) d in
  ∃ RS',
    surroundContents r w
      (W (A ++ Text c d :: B) (EXTRA ++ [Element w tag sty []]) nx RS ws)
    = (inr tt,
       W (A ++ Text c d1 :: Element w tag sty MID :: Text (pred nx') d2 :: B)
         EXTRA nx' RS' ws)
    ∧ RS' !! r = Some (mkRange P (S (length A)) P (S (S (length A))))
    ∧ Good nx' (A ++ Text c d1 :: Element w tag sty MID :: Text (pred nx') d2 :: B)
           EXTRA.
Proof using All.
  intros Hg Hr Hij Hj MID nx' d1 d2.
  pose proof (Good_Distinct _ _ _ Hg) as Hd.
  rewrite (surroundContents_unfold _ _ _ _ _ _ (length EXTRA) w tag sty Hd
             (lookup_snoc _ _)).
  subst MID nx'. destruct (decide (i = j)) as [<-|Hne].
  - (* collapsed range: nothing is extracted *)
    destruct (insertIntoRange_text_data A B _ nx RS ws r c d i (length EXTRA)
                (Element w tag sty []) Hg Hr Hj (lookup_snoc _ _))
      as (RS1 & Hins & Hr1).
    rewrite delete_snoc in Hins. cbn [nid] in Hins. fold d1 d2 in Hins.
    assert (Hg1 : Good (S nx)
              (A ++ Text c d1 :: Element w tag sty [] :: Text nx d2 :: B) EXTRA).
    { eapply (Good_fresh nx _ _); [|exact Hg].
      ids_perm. }
    exists (<[r := mkRange P (S (length A)) P (S (S (length A)))]> RS1).
    cbn [pred]. split_and!.
    + erewrite (bind_inr _ _ _ []); last first.
      { unfold extractContents.
        rewrite (bind_inr _ _ _ _ _ (rangeObj_focus _ _ _ _ _ _ _ Hr)).
        cbn [startContainer endContainer startOffset endOffset].
        rewrite decide_False by (intros ?; done).
        by rewrite decide_True. }
      rewrite (bind_inr _ _ _ _ _ Hins). cbn [appendAll]. rewrite bind_ret.
      pose proof (selectNode_child _ EXTRA (S nx) RS1 ws r (S (length A))
         (Element w tag sty []) (Good_Distinct _ _ _ Hg1)
         ltac:(by rewrite lookup_S_middle)) as Hsel.
      exact Hsel.
    + apply list_lookup_insert_eq. eapply lookup_lt_Some, Hr1.
    + exact Hg1.
  - destruct (extractContents_text_data A B _ nx RS ws r c d i j Hg Hr
                ltac:(lia) Hj) as (RS0 & Hext & Hr0).
    set (d0 := (String.substring 0 i d
                +:+ String.substring j (String.length d - j) d)%string) in *.
    set (clone := Text nx (String.substring i (j - i) d)) in *.
    assert (Hlen1 : String.length (String.substring 0 i d) = i).
    { rewrite string_length_substring. lia. }
    assert (Hlen2 : String.length (String.substring j (String.length d - j) d)
                    = String.length d - j).
    { rewrite string_length_substring. lia. }
    assert (Hlen0 : String.length d0 = i + (String.length d - j)).
    { unfold d0. rewrite string_length_append. lia. }
    assert (Hg0 : Good (S nx) (A ++ Text c d0 :: B)
                    ((EXTRA ++ [Element w tag sty []]) ++ [clone])).
    { eapply (Good_fresh nx _ _); [|exact Hg].
      ids_perm. }
    destruct (insertIntoRange_text_data A B _ (S nx) RS0 ws r c d0 i (length EXTRA)
                (Element w tag sty []) Hg0 Hr0 ltac:(lia)
                ltac:(by rewrite <- app_assoc; apply list_lookup_middle))
      as (RS1 & Hins & Hr1).
    assert (String.substring 0 i d0 = d1) as Hd1.
    { unfold d0. rewrite <- Hlen1 at 1. apply substring_app_l. }
    assert (String.substring i (String.length d0 - i) d0 = d2) as Hd2.
    { replace (String.length d0 - i) with
        (String.length (String.substring j (String.length d - j) d)) by lia.
      unfold d0. rewrite <- Hlen1 at 1. apply substring_app_r. }
    rewrite Hd1, Hd2 in Hins.
    rewrite <- app_assoc in Hins. simpl app in Hins.
    rewrite (delete_middle EXTRA [clone]) in Hins. cbn [nid] in Hins.
    assert (Hg1 : Good (S (S nx))
              (A ++ Text c d1 :: Element w tag sty [] :: Text (S nx) d2 :: B)
              (EXTRA ++ [clone])).
    { eapply (Good_fresh (S nx) _ _); [|exact Hg0].
      ids_perm. }
    assert (Hg2 : Good (S (S nx))
              (A ++ Text c d1 :: Element w tag sty [clone] :: Text (S nx) d2 :: B)
              EXTRA).
    { eapply Good_perm; [|exact Hg1].
      ids_perm. }
    exists (<[r := mkRange P (S (length A)) P (S (S (length A)))]> RS1).
    cbn [pred]. split_and!.
    + rewrite (bind_inr _ _ _ _ _ Hext).
      rewrite <- app_assoc. simpl app.
      rewrite (bind_inr _ _ _ _ _ Hins).
      pose proof (appendAll_wrapper [clone] (A ++ [Text c d1])
                    (Text (S nx) d2 :: B) EXTRA [] (S (S nx)) RS1 ws w tag sty [])
        as Happ.
      rewrite <- !app_assoc, !app_nil_r in Happ. simpl in Happ.
      rewrite (bind_inr _ _ _ _ _
                 (Happ ltac:(rewrite <- (app_nil_r (EXTRA ++ [clone]));
                             rewrite <- app_assoc;
                             exact (Good_Distinct _ _ _ Hg1)))).
      pose proof (selectNode_child _ EXTRA (S (S nx)) RS1 ws r (S (length A))
         (Element w tag sty [clone]) (Good_Distinct _ _ _ Hg2)
         ltac:(by rewrite lookup_S_middle)) as Hsel.
      exact Hsel.
    + apply list_lookup_insert_eq. eapply lookup_lt_Some, Hr1.
    + exact Hg2.
Qed.

(** [surroundContents] on a range inside one text child of [P]. *)
Lemma surroundContents_text A B EXTRA nx RS ws r c d i j w tag sty :
  Good nx (A ++ Text c d :: B) (EXTRA ++ [Element w tag sty []]) →
  RS !! r = Some (mkRange c i c j) → i ≤ j → j ≤ String.length d →
  ∃ d1 d2 MID nx' RS',
    surroundContents r w
      (W (A ++ Text c d :: B) (EXTRA ++ [Element w tag sty []]) nx RS ws)
    = (inr tt,
       W (A ++ Text c d1 :: Element w tag sty MID :: Text (pred nx') d2 :: B)
         EXTRA nx' RS' ws)
    ∧ RS' !! r = Some (mkRange P (S (length A)) P (S (S (length A))))
    ∧ concatText (textContent <$> MID) = String.substring i (j - i) d
    ∧ Good nx' (A ++ Text c d1 :: Element w tag sty MID :: Text (pred nx') d2 :: B)
           EXTRA
    ∧ sum_list (map elementCount MID) = 0.
Proof using All.
  intros Hg Hr Hij Hj.
  destruct (surroundContents_text_data A B EXTRA nx RS ws r c d i j w tag sty
              Hg Hr Hij Hj) as (RS' & Hrun & Hr' & Hg').
  eexists _, _, _, _, RS'. split_and!; [exact Hrun|exact Hr'| |exact Hg'|].
  - destruct (decide (i = j)) as [<-|Hne].
    + simpl. by rewrite Nat.sub_diag, substring_zero.
    + cbn [fmap list_fmap textContent]. apply concatText_singleton.
  - by destruct (decide (i = j)).
Qed.

(** "Extract" removes the selected children of [P] one by one. *)
Lemma extractChildren_P MID : ∀ A B EXTRA nx RS ws,
  Distinct (A ++ MID ++ B) EXTRA →
  ∃ RS',
    extractChildren P (length A) (length MID)
      (W (A ++ MID ++ B) EXTRA nx RS ws)
    = (inr (nid <$> MID), W (A ++ B) (EXTRA ++ MID) nx RS' ws)
    ∧ length RS' = length RS.
Proof using All.
  induction MID as [|x MID IH]; intros A B EXTRA nx RS ws Hd.
  - exists RS. simpl. by rewrite app_nil_r.
  - assert (Hx : (A ++ (x :: MID) ++ B) !! length A = Some x)
      by by apply list_lookup_middle.
    pose proof (removeNode_child _ _ nx RS ws _ _ Hd Hx) as Hrem.
    change ((x :: MID) ++ B) with (x :: (MID ++ B)) in Hrem.
    rewrite (delete_middle A (MID ++ B) x) in Hrem.
    destruct (IH A B (EXTRA ++ [x]) nx
                (map (mapBoundaries (removeShift P (length A)))
                   (map (mapBoundaries (removeCollapse (ids x) P (length A))) RS))
                ws) as (RS' & Hrec & Hlen).
    { eapply Distinct_perm; [|exact Hd].
      ids_perm. }
    exists RS'. split; [|by rewrite Hlen, !length_map].
    cbn [length extractChildren].
    rewrite (bind_inr _ _ _ _ _ (nodeOf_P _ _ _ _ _ Hd)).
    cbn [childNodes]. rewrite Hx.
    rewrite (bind_inr _ _ _ _ _ Hrem).
    rewrite (bind_inr _ _ _ _ _ Hrec).
    rewrite <- app_assoc. done.
Qed.

Lemma extractContents_P A MID B EXTRA nx RS ws r :
  Distinct (A ++ MID ++ B) EXTRA →
  RS !! r = Some (mkRange P (length A) P (length A + length MID)) →
  ∃ RS',
    extractContents r (W (A ++ MID ++ B) EXTRA nx RS ws)
    = (inr (nid <$> MID), W (A ++ B) (EXTRA ++ MID) nx RS' ws)
    ∧ RS' !! r = Some (mkRange P (length A) P (length A)).
Proof using All.
  intros Hd Hr.
  destruct MID as [|x MID].
  - exists RS. rewrite Nat.add_0_r in Hr. split; [|done].
    unfold extractContents.
    rewrite (bind_inr _ _ _ _ _ (rangeObj_focus _ _ _ _ _ _ _ Hr)).
    cbn [startContainer endContainer startOffset endOffset].
    rewrite decide_False by (intros ?; done).
    rewrite decide_True by done. by rewrite app_nil_r.
  - destruct (extractChildren_P (x :: MID) A B EXTRA nx RS ws Hd)
      as (RS' & Hrec & Hlen).
    exists (<[r := mkRange P (length A) P (length A)]> RS'). split.
    + unfold extractContents.
      rewrite (bind_inr _ _ _ _ _ (rangeObj_focus _ _ _ _ _ _ _ Hr)).
      cbn [startContainer endContainer startOffset endOffset].
      rewrite decide_False by (intros ?; done).
      rewrite decide_False by (simpl; lia).
      rewrite (bind_inr _ _ _ _ _ (nodeOf_P _ _ _ _ _ Hd)).
      replace (length A + length (x :: MID) - length A)
        with (length (x :: MID)) by lia.
      rewrite (bind_inr _ _ _ _ _ Hrec).
      by rewrite (bind_inr _ _ _ _ _ (putRange_focus _ _ _ _ _ _ _)).
    + apply list_lookup_insert_eq. rewrite Hlen. eapply lookup_lt_Some, Hr.
Qed.

(** "Insert a node into a range" collapsed among the children of [P]. *)
Lemma insertIntoRange_P A B EXTRA nx RS ws r e wn :
  Distinct (A ++ B) EXTRA →
  RS !! r = Some (mkRange P (length A) P (length A)) →
  EXTRA !! e = Some wn →
  ∃ RS',
    insertIntoRange r (nid wn) (W (A ++ B) EXTRA nx RS ws)
    = (inr tt, W (A ++ wn :: B) (delete e EXTRA) nx RS' ws)
    ∧ RS' !! r = Some (mkRange P (length A) P (S (length A))).
Proof using All.
  intros Hd Hr Hw.
  assert (HPw : P ≠ nid wn).
  { intros Heq. unfold Distinct in Hd. apply NoDup_cons in Hd as [Hd _].
    apply Hd. rewrite !elem_of_app. right; right.
    eapply idsL_lookup; [done|]. rewrite Heq. apply nid_in_ids. }
  assert (Href : (A ++ B) !! length A = head B).
  { rewrite lookup_app_r by lia. rewrite Nat.sub_diag. by destruct B. }
  assert (Hk : match head B with
               | Some b => (A ++ B) !! length A = Some b
               | None => length A = length (A ++ B)
               end).
  { destruct B as [|b B]; simpl; [by rewrite app_nil_r|].
    by apply list_lookup_middle. }
  pose proof (insertNode_extra_P _ _ nx RS ws e wn (head B) (length A)
                Hd Hw Hk) as Hins.
  rewrite take_app_length, drop_app_length in Hins.
  destruct (parentAndIndex_P (A ++ B) EXTRA nx RS ws Hd) as [pk Hpk].
  set (RS1 := match head B with
              | Some _ => map (mapBoundaries (insertShift P (length A))) RS
              | None => RS
              end) in *.
  assert (Hr1 : RS1 !! r = Some (mkRange P (length A) P (length A))).
  { subst RS1. destruct (head B); [|done].
    rewrite list_lookup_fmap, Hr. bsimpl.
    by range_fix lia. }
  exists (<[r := mkRange P (length A) P (S (length A))]> RS1). split.
  - unfold insertIntoRange.
    rewrite (bind_inr _ _ _ _ _ (rangeObj_focus _ _ _ _ _ _ _ Hr)).
    cbn [startContainer endContainer startOffset endOffset].
    rewrite (bind_inr _ _ _ _ _ (nodeOf_P _ _ _ _ _ Hd)).
    rewrite (bind_inr _ _ _ _ _ Hpk).
    rewrite (bool_decide_eq_false_2 (P = nid wn)) by done.
    cbn [isText orb andb childNodes]. rewrite bind_ret. cbn [fst snd].
    rewrite Href.
    rewrite (bind_inr _ _ _ _ _
      (ensurePreInsertValidity_P _ _ _ _ _ (nid wn) _ (head B) (length A)
         Hd (pathOf_extra _ _ _ _ _ e wn Hd Hw) (extra_not_prefix e)
         ltac:(by destruct (head B)))).
    rewrite bind_ret.
    erewrite (bind_inr _ _ _ (length A)); last first.
    { destruct (head B) as [b|] eqn:Hb; simpl.
      - by apply indexBefore_P_Some.
      - rewrite Hk. by apply indexBefore_P_None. }
    rewrite (bind_inr _ _ _ _ _ Hins).
    rewrite (bind_inr _ _ _ _ _ (rangeObj_focus _ _ _ _ _ _ _ Hr1)).
    cbn [startContainer endContainer startOffset endOffset].
    rewrite bool_decide_eq_true_2 by done.
    by rewrite putRange_focus.
  - apply list_lookup_insert_eq. eapply lookup_lt_Some, Hr1.
Qed.

(** [surroundContents] on a range over children of [P]. *)
Lemma surroundContents_P A MID B EXTRA nx RS ws r w tag sty :
  Good nx (A ++ MID ++ B) (EXTRA ++ [Element w tag sty []]) →
  RS !! r = Some (mkRange P (length A) P (length A + length MID)) →
  ∃ RS',
    surroundContents r w
      (W (A ++ MID ++ B) (EXTRA ++ [Element w tag sty []]) nx RS ws)
    = (inr tt, W (A ++ Element w tag sty MID :: B) EXTRA nx RS' ws)
    ∧ RS' !! r = Some (mkRange P (length A) P (S (length A)))
    ∧ Good nx (A ++ Element w tag sty MID :: B) EXTRA.
Proof using All.
  intros Hg Hr.
  pose proof (Good_Distinct _ _ _ Hg) as Hd.
  rewrite (surroundContents_unfold _ _ _ _ _ _ (length EXTRA) w tag sty Hd
             (lookup_snoc _ _)).
  destruct (extractContents_P A MID B _ nx RS ws r Hd Hr)
    as (RS0 & Hext & Hr0).
  assert (Hd0 : Distinct (A ++ B) ((EXTRA ++ [Element w tag sty []]) ++ MID)).
  { eapply Distinct_perm; [|exact Hd]. ids_perm. }
  destruct (insertIntoRange_P A B _ nx RS0 ws r (length EXTRA)
              (Element w tag sty []) Hd0 Hr0
              ltac:(by rewrite <- app_assoc; apply list_lookup_middle))
    as (RS1 & Hins & Hr1).
  rewrite <- app_assoc in Hins. simpl app in Hins.
  rewrite (delete_middle EXTRA MID) in Hins. cbn [nid] in Hins.
  assert (Hg2 : Good nx (A ++ Element w tag sty MID :: B) EXTRA).
  { eapply Good_perm; [|exact Hg].
    ids_perm. }
  assert (Hd1 : Distinct (A ++ Element w tag sty [] :: B) (EXTRA ++ MID ++ [])).
  { eapply Distinct_perm; [|exact Hd].
    ids_perm. }
  exists (<[r := mkRange P (length A) P (S (length A))]> RS1). split_and!.
  - rewrite (bind_inr _ _ _ _ _ Hext).
    rewrite <- app_assoc. simpl app.
    rewrite (bind_inr _ _ _ _ _ Hins).
    pose proof (appendAll_wrapper MID A B EXTRA [] nx RS1 ws w tag sty [] Hd1)
      as Happ.
    rewrite !app_nil_r in Happ. simpl app in Happ.
    rewrite (bind_inr _ _ _ _ _ Happ).
    exact (selectNode_child _ EXTRA nx RS1 ws r (length A)
             (Element w tag sty MID) (Good_Distinct _ _ _ Hg2)
             ltac:(by apply list_lookup_middle)).
  - apply list_lookup_insert_eq. eapply lookup_lt_Some, Hr1.
  - exact Hg2.
Qed.

(** *** The steps of [removeHighlight] *)

Lemma Distinct_wrapper A B EXTRA w tag sty MID :
  Distinct (A ++ Element w tag sty MID :: B) EXTRA →
  P ≠ w ∧ (w ∉ idsL MID) ∧ (P ∉ idsL MID).
Proof using All.
  unfold Distinct. intros Hd.
  assert (P :: idsL (A ++ Element w tag sty MID :: B) ++ ctx ++ idsL EXTRA
          ≡ₚ P :: w :: idsL MID ++ (idsL A ++ idsL B ++ ctx ++ idsL EXTRA))
    as Hp by ids_perm.
  rewrite Hp in Hd. apply NoDup_cons in Hd as [HP Hd].
  apply NoDup_cons in Hd as [Hw _].
  rewrite elem_of_cons, elem_of_app in HP. rewrite elem_of_app in Hw.
  naive_solver.
Qed.

Lemma firstChild_child CS EXTRA nx RS ws m y :
  Distinct CS EXTRA → CS !! m = Some y →
  firstChild (nid y) (W CS EXTRA nx RS ws)
  = (inr (nid <$> head (childNodes y)), W CS EXTRA nx RS ws).
Proof using All.
  intros Hd Hy. unfold firstChild.
  by rewrite (bind_inr _ _ _ _ _ (nodeOf_child _ _ _ _ _ _ _ Hd Hy)).
Qed.

Lemma pathOf_grandchild CS EXTRA nx RS ws m y q x :
  Distinct CS EXTRA → CS !! m = Some y → childNodes y !! q = Some x →
  pathOf (nid x) (W CS EXTRA nx RS ws)
  = (inr (pp ++ [m; q]), W CS EXTRA nx RS ws).
Proof using All.
  intros Hd Hy Hx. apply pathOf_focus; [done|].
  by rewrite getAt_focus_grandchild, Hy.
Qed.

(** The loop moves the children of the wrapper in front of it. *)
Lemma unwrapLoop_wrapper MID : ∀ A B EXTRA nx RS ws w tag sty r a b,
  Distinct (A ++ Element w tag sty MID :: B) EXTRA →
  RS !! r = Some (mkRange P a P b) → a ≤ length A < b →
  ∃ RS',
    unwrapLoop (length MID) (Some P) w
      (W (A ++ Element w tag sty MID :: B) EXTRA nx RS ws)
    = (inr tt, W (A ++ MID ++ Element w tag sty [] :: B) EXTRA nx RS' ws)
    ∧ RS' !! r = Some (mkRange P a P (b + length MID)).
Proof using All.
  induction MID as [|x MID IH];
    intros A B EXTRA nx RS ws w tag sty r a b Hd Hr Hab.
  - exists RS. split; [|by rewrite Nat.add_0_r].
    cbn [length unwrapLoop].
    pose proof (firstChild_child _ _ nx RS ws (length A)
                  (Element w tag sty []) Hd
                  ltac:(by apply list_lookup_middle)) as Hfc.
    cbn [nid childNodes head fmap option_fmap option_map] in Hfc.
    by rewrite (bind_inr _ _ _ _ _ Hfc).
  - set (y := Element w tag sty (x :: MID)) in *.
    assert (Hy : (A ++ y :: B) !! length A = Some y)
      by by apply list_lookup_middle.
    assert (Hx : childNodes y !! 0 = Some x) by done.
    destruct (Distinct_wrapper _ _ _ _ _ _ _ Hd) as (HPw & Hw & HPx).
    assert (Hxw : nid x ≠ w).
    { intros Heq. apply Hw. rewrite <- Heq, idsL_cons, elem_of_app. left.
      apply nid_in_ids. }
    pose proof (firstChild_child _ _ nx RS ws _ y Hd Hy) as Hfc.
    cbn [nid childNodes head fmap option_fmap option_map y] in Hfc.
    pose proof (insertNode_grandchild_P _ _ nx RS ws _ y 0 x Hd Hy Hx) as Hins.
    cbv zeta in Hins. rewrite alter_middle in Hins.
    rewrite take_app_length, drop_app_length in Hins.
    cbn [y nid childNodes setChildNodes delete list_delete] in Hins.
    set (RS1 := map _ (map _ (map _ RS))) in Hins.
    assert (Hr1 : RS1 !! r = Some (mkRange P a P (S b))).
    { assert (HPx' : P ∉ ids x).
      { intros Hin. apply HPx. rewrite idsL_cons, elem_of_app. by left. }
      subst RS1. rewrite !list_lookup_fmap, Hr. bsimpl.
      rewrite mapBoundaries_mk.
      rewrite insertShift_fix by (cbn [fst snd]; lia).
      rewrite insertShift_hit by lia. cbn [fst snd].
      range_fix done.
      by range_fix ltac:(intros [? ?]; done). }
    destruct (IH (A ++ [x]) B EXTRA nx RS1 ws w tag sty r a (S b))
      as (RS' & Hrec & Hr').
    { rewrite <- app_assoc. simpl app.
      eapply Distinct_perm; [|exact Hd].
      ids_perm. }
    { done. }
    { rewrite length_app. simpl. lia. }
    rewrite <- !app_assoc in Hrec. simpl app in Hrec.
    exists RS'. split.
    + cbn [length unwrapLoop].
      rewrite (bind_inr _ _ _ _ _ Hfc).
      erewrite (bind_inr _ _ _ tt); last first.
      { unfold insertBefore.
        rewrite (bind_inr _ _ _ _ _
          (ensurePreInsertValidity_P _ _ _ _ _ (nid x) _ (Some y) (length A)
             Hd (pathOf_grandchild _ _ _ _ _ _ y 0 x Hd Hy Hx)
             (below_not_prefix [length A; 0] ltac:(done)) Hy)).
        rewrite decide_False by done. exact Hins. }
      exact Hrec.
    + rewrite Hr'. simpl. do 2 f_equal. lia.
Qed.

Lemma parentNode_child CS EXTRA nx RS ws m x :
  Distinct CS EXTRA → CS !! m = Some x →
  parentNode (nid x) (W CS EXTRA nx RS ws) = (inr (Some P), W CS EXTRA nx RS ws).
Proof using All.
  intros Hd Hx. unfold parentNode.
  rewrite (bind_inr _ _ _ _ _ (parentAndIndex_child _ _ _ _ _ _ _ Hd Hx)).
  by rewrite (bind_inr _ _ _ _ _ (nodeAtPath_P _ _ _ _ _)).
Qed.

Lemma removeChild_child CS EXTRA nx RS ws m x :
  Distinct CS EXTRA → CS !! m = Some x →
  removeChild (Some P) (nid x) (W CS EXTRA nx RS ws)
  = (inr tt,
     W (delete m CS) (EXTRA ++ [x]) nx
       (map (mapBoundaries (removeShift P m))
          (map (mapBoundaries (removeCollapse (ids x) P m)) RS)) ws).
Proof using All.
  intros Hd Hx. unfold removeChild.
  rewrite (bind_inr _ _ _ _ _ (parentNode_child _ _ _ _ _ _ _ Hd Hx)).
  rewrite decide_True by done. by apply removeNode_child.
Qed.

(** [removeHighlight] on a selection whose wrapper is a child of [P] and
    whose range selects exactly the wrapper. *)
Lemma removeHighlight_wrapper A MID B EXTRA nx RS ws w tag sty r :
  Distinct (A ++ Element w tag sty MID :: B) EXTRA →
  RS !! r = Some (mkRange P (length A) P (S (length A))) →
  ∃ RS',
    removeHighlight
      (mkSt (W (A ++ Element w tag sty MID :: B) EXTRA nx RS ws)
            (mkSelection r (Some w)))
    = (inr tt,
       mkSt (W (A ++ MID ++ B) (EXTRA ++ [Element w tag sty []]) nx RS' ws)
            (mkSelection r None))
    ∧ RS' !! r = Some (mkRange P (length A) P (length A + length MID))
    ∧ Distinct (A ++ MID ++ B) (EXTRA ++ [Element w tag sty []]).
Proof using All.
  intros Hd Hr.
  set (y := Element w tag sty MID).
  assert (Hy : (A ++ y :: B) !! length A = Some y)
    by by apply list_lookup_middle.
  destruct (Distinct_wrapper _ _ _ _ _ _ _ Hd) as (HPw & Hw & HPx).
  destruct (unwrapLoop_wrapper MID A B EXTRA nx RS ws w tag sty r
              (length A) (S (length A)) Hd Hr ltac:(lia))
    as (RS1 & Hloop & Hr1).
  assert (Hd1 : Distinct (A ++ MID ++ Element w tag sty [] :: B) EXTRA).
  { eapply Distinct_perm; [|exact Hd].
    ids_perm. }
  assert (Hw1 : (A ++ MID ++ Element w tag sty [] :: B) !! (length A + length MID)
                = Some (Element w tag sty [])).
  { rewrite app_assoc. apply list_lookup_middle. by rewrite length_app. }
  pose proof (removeChild_child _ _ nx RS1 ws _ _ Hd1 Hw1) as Hrem.
  cbn [nid ids] in Hrem.
  assert (Hdel : delete (length A + length MID)
                   (A ++ MID ++ Element w tag sty [] :: B) = A ++ MID ++ B).
  { rewrite app_assoc, <- length_app, delete_middle. by rewrite <- app_assoc. }
  rewrite Hdel in Hrem.
  eexists. split_and!.
  - unfold removeHighlight. rewrite bind_gets. cbn [this _highlighter].
    erewrite bind_inr; last first.
    { apply liftHost_inr. cbn [host].
      exact (parentNode_child _ _ nx RS ws _ y Hd Hy). }
    erewrite bind_inr; last first.
    { apply liftHost_inr. cbn [host].
      exact (nodeOf_child _ _ nx RS ws _ y Hd Hy). }
    cbn [this host childNodes y].
    erewrite bind_inr; last first.
    { apply liftHost_inr. cbn [host]. exact Hloop. }
    erewrite bind_inr; last first.
    { apply liftHost_inr. cbn [host]. exact Hrem. }
    reflexivity.
  - rewrite !list_lookup_fmap, Hr1. bsimpl.
    range_fix ltac:(by rewrite list_elem_of_singleton).
    rewrite mapBoundaries_mk.
    rewrite removeShift_fix by (cbn [fst snd]; lia).
    rewrite removeShift_hit by lia. cbn [fst snd].
    do 2 f_equal. lia.
  - eapply Distinct_perm; [|exact Hd].
    ids_perm.
Qed.

(** *** [highlight] *)

(** [highlight] on a selection that is not highlighted, once the range
    is known to lie in one node: the element is created, recorded,
    decorated, and handed to [surroundContents]. *)
Lemma highlight_unfold CS EXTRA nx RS ws r x i j tag decorator :
  Good nx CS EXTRA → RS !! r = Some (mkRange x i x j) →
  validElementName tag = true →
  highlight tag decorator (mkSt (W CS EXTRA nx RS ws) (mkSelection r None))
  = liftHost (surroundContents r nx)
      (mkSt (W CS (EXTRA ++ [Element nx tag (decorator []) []]) (S nx) RS ws)
            (mkSelection r (Some nx))).
Proof using All.
  intros Hg Hr Hv. unfold highlight.
  rewrite bind_gets. cbn [this _highlighter]. rewrite bind_ret, bind_gets.
  cbn [this range].
  erewrite bind_inr; last first.
  { apply liftHost_inr. cbn [host]. by apply rangeObj_focus. }
  cbn [startContainer endContainer]. rewrite decide_True by done.
  erewrite bind_inr; last first.
  { apply liftHost_inr. cbn [host]. by apply createElement_focus. }
  unfold setHighlighter. rewrite bind_modify. cbn [host this range].
  erewrite bind_inr; last first.
  { apply liftHost_inr. cbn [host].
    pose proof (decorate_extra CS (EXTRA ++ [Element nx tag [] []]) (S nx) RS ws
                  (length EXTRA) (Element nx tag [] []) decorator) as Hdec.
    cbn [nid] in Hdec. apply Hdec; [|apply lookup_snoc].
    eapply Good_Distinct, Good_createElement, Hg. }
  by rewrite alter_middle.
Qed.

(** [highlight] on a range inside one text child of [P]. *)
Lemma highlight_text A B EXTRA nx RS ws r c d i j tag decorator :
  Good nx (A ++ Text c d :: B) EXTRA →
  RS !! r = Some (mkRange c i c j) → i ≤ j → j ≤ String.length d →
  validElementName tag = true →
  ∃ d1 d2 MID nx' RS',
    highlight tag decorator
      (mkSt (W (A ++ Text c d :: B) EXTRA nx RS ws) (mkSelection r None))
    = (inr tt,
       mkSt (W (A ++ Text c d1 :: Element nx tag (decorator []) MID
                  :: Text (pred nx') d2 :: B) EXTRA nx' RS' ws)
            (mkSelection r (Some nx)))
    ∧ RS' !! r = Some (mkRange P (S (length A)) P (S (S (length A))))
    ∧ concatText (textContent <$> MID) = String.substring i (j - i) d
    ∧ Good nx' (A ++ Text c d1 :: Element nx tag (decorator []) MID
                  :: Text (pred nx') d2 :: B) EXTRA
    ∧ sum_list (map elementCount MID) = 0.
Proof using All.
  intros Hg Hr Hij Hj Hv.
  rewrite (highlight_unfold _ _ _ _ _ _ _ _ _ _ _ Hg Hr Hv).
  destruct (surroundContents_text A B EXTRA (S nx) RS ws r c d i j nx tag
              (decorator []) (Good_createElement _ _ _ _ _ Hg) Hr Hij Hj)
    as (d1 & d2 & MID & nx' & RS' & Hrun & Hr' & Htext & Hg' & Hcount).
  exists d1, d2, MID, nx', RS'. split_and!; try done.
  by apply liftHost_inr.
Qed.

(** [highlight] on a range inside one text child of [P], with the data of
    the three pieces the text node ends up in. *)
Lemma highlight_text_data A B EXTRA nx RS ws r c d i j tag decorator :
  Good nx (A ++ Text c d :: B) EXTRA →
  RS !! r = Some (mkRange c i c j) → i ≤ j → j ≤ String.length d →
  validElementName tag = true →
  let MID := if decide (i = j) then []
             else [Text (S nx) (String.substring i (j - i) d)] in
  let nx' := if decide (i = j) then S (S nx) else S (S (S nx)) in
  let d1 := String.substring 0 i d in
  let d2 := String.substring j (String.length d - j) d in
  ∃ RS',
    highlight tag decorator
      (mkSt (W (A ++ Text c d :: B) EXTRA nx RS ws) (mkSelection r None))
    = (inr tt,
       mkSt (W (A ++ Text c d1 :: Element nx tag (decorator []) MID
                  :: Text (pred nx') d2 :: B) EXTRA nx' RS' ws)
            (mkSelection r (Some nx)))
    ∧ RS' !! r = Some (mkRange P (S (length A)) P (S (S (length A))))
    ∧ Good nx' (A ++ Text c d1 :: Element nx tag (decorator []) MID
                  :: Text (pred nx') d2 :: B) EXTRA.
Proof using All.
  intros Hg Hr Hij Hj Hv MID nx' d1 d2.
  rewrite (highlight_unfold _ _ _ _ _ _ _ _ _ _ _ Hg Hr Hv).
  destruct (surroundContents_text_data A B EXTRA (S nx) RS ws r c d i j nx tag
              (decorator []) (Good_createElement _ _ _ _ _ Hg) Hr Hij Hj)
    as (RS' & Hrun & Hr' & Hg').
  exists RS'. split_and!; try done.
  by apply liftHost_inr.
Qed.

(** [highlight] on a range over children of [P]. *)
Lemma highlight_P A MID B EXTRA nx RS ws r tag decorator :
  Good nx (A ++ MID ++ B) EXTRA →
  RS !! r = Some (mkRange P (length A) P (length A + length MID)) →
  validElementName tag = true →
  ∃ RS',
    highlight tag decorator
      (mkSt (W (A ++ MID ++ B) EXTRA nx RS ws) (mkSelection r None))
    = (inr tt,
       mkSt (W (A ++ Element nx tag (decorator []) MID :: B) EXTRA (S nx) RS' ws)
            (mkSelection r (Some nx)))
    ∧ RS' !! r = Some (mkRange P (length A) P (S (length A)))
    ∧ Good (S nx) (A ++ Element nx tag (decorator []) MID :: B) EXTRA.
Proof using All.
  intros Hg Hr Hv.
  rewrite (highlight_unfold _ _ _ _ _ _ _ _ _ _ _ Hg Hr Hv).
  destruct (surroundContents_P A MID B EXTRA (S nx) RS ws r nx tag
              (decorator []) (Good_createElement _ _ _ _ _ Hg) Hr)
    as (RS' & Hrun & Hr' & Hg').
  exists RS'. split_and!; try done.
  by apply liftHost_inr.
Qed.


(** *** [getText] *)

Lemma toString_P CS EXTRA nx RS ws r a b :
  Distinct CS EXTRA → RS !! r = Some (mkRange P a P b) → a ≤ b ≤ length CS →
  toString r (W CS EXTRA nx RS ws)
  = (inr (concatText (textContent <$> take (b - a) (drop a CS))),
     W CS EXTRA nx RS ws).
Proof using All.
  intros Hd Hr Hab. unfold toString.
  rewrite (bind_inr _ _ _ _ _ (rangeObj_focus _ _ _ _ _ _ _ Hr)).
  cbn [startContainer endContainer startOffset endOffset].
  rewrite (bind_inr _ _ _ _ _ (pathOf_P _ _ _ _ _ Hd)).
  rewrite (bind_inr _ _ _ _ _ (nodeAtPath_P _ _ _ _ _)).
  rewrite (bind_inr _ _ _ _ _ (pathOf_P _ _ _ _ _ Hd)).
  rewrite (bind_inr _ _ _ _ _ (nodeAtPath_P _ _ _ _ _)).
  cbn [isText]. rewrite andb_false_r.
  pose proof (getAt_focus CS EXTRA) as Hpp.
  assert (∃ k0 q0, pp = k0 :: q0) as (k0 & q0 & Epp).
  { destruct pp_head as [_ Hne]. destruct pp; [done|]. eauto. }
  set (FF := focus CS EXTRA) in *.
  rewrite Epp in Hpp |- *. cbn [getAt] in Hpp. cbn [take].
  destruct (FF !! k0) as [root|] eqn:Hroot; [|done].
  simpl in Hpp.
  erewrite (bind_inr _ _ _ root); last first.
  { unfold nodeAtPath. cbn [roots getAt]. rewrite Hroot. reflexivity. }
  unfold ret. do 2 f_equal.
  change (EmptyString +:+ ?x) with x. rewrite string_app_nil_r.
  change (k0 :: q0) with ([k0] ++ q0).
  by eapply contained_below.
Qed.

Lemma toString_text CS EXTRA nx RS ws r m c d i j :
  Distinct CS EXTRA → CS !! m = Some (Text c d) →
  RS !! r = Some (mkRange c i c j) →
  toString r (W CS EXTRA nx RS ws)
  = (inr (String.substring i (j - i) d), W CS EXTRA nx RS ws).
Proof using All.
  intros Hd Hc Hr. unfold toString.
  rewrite (bind_inr _ _ _ _ _ (rangeObj_focus _ _ _ _ _ _ _ Hr)).
  cbn [startContainer endContainer startOffset endOffset].
  rewrite (bind_inr _ _ _ _ _ (pathOf_child _ _ _ _ _ _ _ Hd Hc)).
  rewrite (bind_inr _ _ _ _ _ (nodeAtPath_child _ _ _ _ _ _ _ Hc)).
  rewrite (bind_inr _ _ _ _ _ (pathOf_child _ _ _ _ _ _ _ Hd Hc)).
  rewrite (bind_inr _ _ _ _ _ (nodeAtPath_child _ _ _ _ _ _ _ Hc)).
  cbn [isText]. by rewrite bool_decide_eq_true_2.
Qed.

End Focus.

(** ** Searching the forest *)

Lemma findInList_sound f ns k0 p :
  findInList f ns k0 = Some p →
  ∃ j n q, ns !! j = Some n ∧ f n = Some q ∧ p = (k0 + j) :: q.
Proof.
  revert k0. induction ns as [|n ns IH]; intros k0; simpl; [done|].
  destruct (f n) as [q|] eqn:Hq.
  - intros [= <-]. exists 0, n, q. by rewrite Nat.add_0_r.
  - intros (j & n' & q & Hj & Hf & ->)%IH.
    exists (S j), n', q. split_and!; [done|done|]. f_equal. lia.
Qed.

Lemma findIn_sound x n q :
  findIn x n = Some q → ∃ m, descend q n = Some m ∧ nid m = x.
Proof.
  revert q. induction n as [i d|i t s cs IH] using Node_ind'; intros q; simpl.
  - destruct (decide (i = x)); [|done]. intros [= <-]. by exists (Text i d).
  - destruct (decide (i = x)).
    { intros [= <-]. by exists (Element i t s cs). }
    intros (j & c & q' & Hj & Hf & ->)%findInList_sound. simpl.
    rewrite Forall_forall in IH.
    destruct (IH c (list_elem_of_lookup_2 _ _ _ Hj) q' Hf) as (m & Hm & Hx).
    exists m. by rewrite Hj.
Qed.

Lemma findPath_sound x ns p :
  findPath x ns = Some p → ∃ m, getAt p ns = Some m ∧ nid m = x.
Proof.
  unfold findPath. intros (j & c & q & Hj & Hf & ->)%findInList_sound.
  destruct (findIn_sound _ _ _ Hf) as (m & Hm & Hx).
  exists m. simpl. by rewrite Hj.
Qed.

Lemma wfWorld_inv w :
  wfWorld w = true →
  NoDup (idsL (roots w)) ∧ Forall (λ i, i < nextId w) (idsL (roots w)).
Proof. unfold wfWorld. by rewrite bool_decide_eq_true. Qed.

(** ** Framing a world around the container of a range *)

Lemma frame_Good F pp P tg st cs0 ctx nx :
  getAt pp F = Some (Element P tg st cs0) →
  (∀ f, idsL (modAt pp f F) ≡ₚ ids (f (Element P tg st cs0)) ++ ctx) →
  NoDup (idsL F) → Forall (λ i, i < nx) (idsL F) →
  Good P ctx nx cs0 [].
Proof.
  intros Hget Hctx Hnd Hlt.
  pose proof (idsL_focus F pp P tg st cs0 ctx Hget Hctx cs0 []) as Hp.
  rewrite (focus_initial F pp P tg st cs0 ctx Hget Hctx) in Hp.
  split; unfold Distinct; by rewrite <- Hp.
Qed.

Lemma frame_text w c ps d :
  findPath c (roots w) = Some ps → getAt ps (roots w) = Some (Text c d) →
  orphanTextNode w c = false →
  ∃ pp m P tg st cs0,
    ps = pp ++ [m]
    ∧ getAt pp (roots w) = Some (Element P tg st cs0)
    ∧ cs0 !! m = Some (Text c d).
Proof.
  intros Hf Hg Ho. unfold orphanTextNode in Ho. rewrite Hf in Ho.
  destruct ps as [|k ps]; [done|].
  destruct ps as [|k' ps].
  - simpl in Hg. destruct (roots w !! k) as [n|]; [|done].
    simpl in Hg. by injection Hg as ->.
  - destruct (exists_last (l := k' :: ps)) as (q & m & Heq); [done|].
    rewrite Heq in Hg |- *.
    change (k :: q ++ [m]) with ((k :: q) ++ [m]) in Hg |- *.
    rewrite getAt_app in Hg by done.
    destruct (getAt (k :: q) (roots w)) as [pn|] eqn:Hpn; [|done].
    simpl in Hg.
    destruct (childNodes pn !! m) as [ch|] eqn:Hch; [|done].
    simpl in Hg. injection Hg as ->.
    destruct pn as [i0 d0|P tg st cs0]; [done|].
    by exists (k :: q), m, P, tg, st, cs0.
Qed.

Lemma snoc_cons_eq {A} (l1 l2 : list A) (x : A) :
  l1 ++ x :: l2 = (l1 ++ [x]) ++ l2.
Proof. by rewrite <- app_assoc. Qed.

Lemma sum_elementCount_wrap A MID B w tag sty :
  sum_list (map elementCount (A ++ Element w tag sty MID :: B))
  = S (sum_list (map elementCount (A ++ MID ++ B))).
Proof.
  rewrite !map_app, !sum_list_app. simpl.
  rewrite ?map_app, ?sum_list_app. lia.
Qed.

(** [highlight] on an unhighlighted selection whose valid range lies in
    one container, in terms of the parent element [P] under which the
    wrapper ends up: the children of [P] become [A ++ wrapper :: B], the
    wrapper holds [MID], whose text is what [getText] returned. *)
Lemma highlight_frame w r c i j tag decorator :
  wfWorld w = true → validRange w r = true →
  ranges w !! r = Some (mkRange c i c j) →
  orphanTextNode w c = false → validElementName tag = true →
  ∃ pp P tg st cs0 ctx A MID B nx' RS',
    getAt pp (roots w) = Some (Element P tg st cs0)
    ∧ (∀ f, idsL (modAt pp f (roots w)) ≡ₚ ids (f (Element P tg st cs0)) ++ ctx)
    ∧ highlight tag decorator (mkSt w (mkSelection r None))
      = (inr tt,
         mkSt (mkWorld (focus (roots w) pp
                          (A ++ Element (nextId w) tag (decorator []) MID :: B) [])
                       nx' RS' (windowSelection w))
              (mkSelection r (Some (nextId w))))
    ∧ RS' !! r = Some (mkRange P (length A) P (S (length A)))
    ∧ Good P ctx nx' (A ++ Element (nextId w) tag (decorator []) MID :: B) []
    ∧ getText (mkSt w (mkSelection r None))
      = (inr (concatText (textContent <$> MID)), mkSt w (mkSelection r None))
    ∧ sum_list (map elementCount
                  (A ++ Element (nextId w) tag (decorator []) MID :: B))
      = S (sum_list (map elementCount cs0)).
Proof.
  intros Hwf Hvalid Hr Horph Hv.
  destruct (wfWorld_inv _ Hwf) as [Hnd Hlt].
  destruct (validRange_inv _ _ Hvalid)
    as (rg & ps & pe & sn & en & Hrg & Hps & Hpe & Hsn & Hen & Hi & Hj & _ & Hord).
  rewrite Hr in Hrg. injection Hrg as <-.
  cbn [startContainer endContainer startOffset endOffset] in *.
  rewrite Hps in Hpe. injection Hpe as <-.
  rewrite Hsn in Hen. injection Hen as <-.
  rewrite lexCompare_app in Hord.
  assert (Hij : i ≤ j).
  { simpl in Hord. destruct (Nat.compare_spec i j); [lia|lia|done]. }
  destruct (findPath_sound _ _ _ Hps) as (sn' & Hsn' & Hc).
  rewrite Hsn in Hsn'. injection Hsn' as <-.
  destruct w as [F nx RS ws]. cbn [roots ranges nextId windowSelection] in *.
  destruct sn as [c' d|c' t s cs]; cbn [nid nodeLength] in *; subst c'.
  - (* the container is a text node with a parent *)
    destruct (frame_text (mkWorld F nx RS ws) _ _ _ Hps Hsn Horph)
      as (pp & m & P & tg & st & cs0 & -> & Hget & Hm).
    cbn [roots] in Hget.
    destruct (idsL_modAt_ctx _ _ _ Hget) as [ctx Hctx].
    pose proof (frame_Good _ _ _ _ _ _ _ _ Hget Hctx Hnd Hlt) as Hg.
    pose proof (lookup_lt_Some _ _ _ Hm) as Hmlt.
    pose proof (take_drop_middle _ _ _ Hm) as Hcs0.
    assert (Hlen : length (take m cs0) = m) by (rewrite length_take; lia).
    revert Hcs0 Hlen. generalize (take m cs0) (drop (S m) cs0).
    intros A B <- HlenA. subst m.
    destruct (highlight_text F pp P tg st _ ctx Hget Hctx A B [] nx RS ws r c d i j
                tag decorator Hg Hr Hij Hj Hv)
      as (d1 & d2 & MID & nx' & RS' & Hrun & Hr' & Htext & Hg' & Hcount).
    rewrite (focus_initial F pp P tg st _ ctx Hget Hctx) in Hrun.
    rewrite (snoc_cons_eq A _ (Text c d1)) in Hrun, Hg'.
    exists pp, P, tg, st, (A ++ Text c d :: B), ctx,
      (A ++ [Text c d1]), MID, (Text (pred nx') d2 :: B), nx', RS'.
    split_and!; try done.
    + rewrite length_app. simpl. by rewrite Nat.add_1_r.
    + unfold getText. rewrite bind_gets. cbn [this range].
      apply liftHost_inr. cbn [host].
      pose proof (toString_text F pp P tg st _ ctx Hget Hctx (A ++ Text c d :: B) []
                    nx RS ws r (length A) c d i j
                    (Good_Distinct F pp P tg st _ ctx Hget Hctx _ _ _ Hg)
                    (list_lookup_middle _ _ _ _ eq_refl) Hr) as Hts.
      rewrite (focus_initial F pp P tg st _ ctx Hget Hctx) in Hts.
      by rewrite Htext.
    + rewrite !map_app, !sum_list_app. simpl.
      rewrite ?map_app, ?sum_list_app. simpl. lia.
  - (* the container is an element *)
    destruct (idsL_modAt_ctx _ _ _ Hsn) as [ctx Hctx].
    pose proof (frame_Good _ _ _ _ _ _ _ _ Hsn Hctx Hnd Hlt) as Hg.
    assert (Hcs : cs = take i cs ++ take (j - i) (drop i cs) ++ drop j cs).
    { rewrite <- (take_drop i cs) at 1. f_equal.
      rewrite <- (take_drop (j - i) (drop i cs)) at 1. f_equal.
      rewrite drop_drop. f_equal. lia. }
    assert (HlenA : length (take i cs) = i) by (rewrite length_take; lia).
    assert (HlenM : length (take (j - i) (drop i cs)) = j - i).
    { rewrite length_take, length_drop. lia. }
    assert (Hts : toString r (mkWorld F nx RS ws)
                  = (inr (concatText (textContent <$> take (j - i) (drop i cs))),
                     mkWorld F nx RS ws)).
    { pose proof (toString_P F ps c t s cs ctx Hsn Hctx cs [] nx RS ws r i j
                    (Good_Distinct F ps c t s cs ctx Hsn Hctx _ _ _ Hg) Hr
                    ltac:(lia)) as Hts.
      by rewrite (focus_initial F ps c t s cs ctx Hsn Hctx) in Hts. }
    revert Hcs HlenA HlenM Hts.
    generalize (take i cs) (take (j - i) (drop i cs)) (drop j cs).
    intros A MID B -> HlenA HlenM Hts.
    assert (Hr2 : RS !! r = Some (mkRange c (length A) c (length A + length MID))).
    { rewrite Hr. f_equal. f_equal; lia. }
    destruct (highlight_P F ps c t s _ ctx Hsn Hctx A MID B [] nx RS ws r
                tag decorator Hg Hr2 Hv)
      as (RS' & Hrun & Hr' & Hg').
    rewrite (focus_initial F ps c t s _ ctx Hsn Hctx) in Hrun.
    exists ps, c, t, s, (A ++ MID ++ B), ctx, A, MID, B, (S nx), RS'.
    split_and!; try done.
    + unfold getText. rewrite bind_gets. cbn [this range].
      by apply liftHost_inr.
    + apply sum_elementCount_wrap.
Qed.

(** ** [highlight] then [removeHighlight] *)








(** ** [highlight] twice *)




(** ** Nodes without a parent *)

Lemma findPath_root G k n :
  NoDup (idsL G) → G !! k = Some n → findPath (nid n) G = Some [k].
Proof. intros Hnd Hk. apply findPath_getAt; [done|]. simpl. by rewrite Hk. Qed.

Lemma pathOf_root G nx RS ws k n :
  NoDup (idsL G) → G !! k = Some n →
  pathOf (nid n) (mkWorld G nx RS ws) = (inr [k], mkWorld G nx RS ws).
Proof.
  intros Hnd Hk. unfold pathOf. cbn [roots]. by rewrite (findPath_root G k n).
Qed.

Lemma nodeOf_root G nx RS ws k n :
  NoDup (idsL G) → G !! k = Some n →
  nodeOf (nid n) (mkWorld G nx RS ws) = (inr n, mkWorld G nx RS ws).
Proof.
  intros Hnd Hk. unfold nodeOf.
  rewrite (bind_inr _ _ _ _ _ (pathOf_root G nx RS ws k n Hnd Hk)).
  unfold nodeAtPath. simpl. by rewrite Hk.
Qed.

Lemma parentAndIndex_root G nx RS ws k n :
  NoDup (idsL G) → G !! k = Some n →
  parentAndIndex (nid n) (mkWorld G nx RS ws) = (inr None, mkWorld G nx RS ws).
Proof.
  intros Hnd Hk. unfold parentAndIndex.
  by rewrite (bind_inr _ _ _ _ _ (pathOf_root G nx RS ws k n Hnd Hk)).
Qed.

Lemma parentNode_root G nx RS ws k n :
  NoDup (idsL G) → G !! k = Some n →
  parentNode (nid n) (mkWorld G nx RS ws) = (inr None, mkWorld G nx RS ws).
Proof.
  intros Hnd Hk. unfold parentNode.
  by rewrite (bind_inr _ _ _ _ _ (parentAndIndex_root G nx RS ws k n Hnd Hk)).
Qed.

Lemma fresh_root F nx n :
  NoDup (idsL F) → Forall (λ i, i < nx) (idsL F) → ids n = [nx] →
  NoDup (idsL (F ++ [n])) ∧ Forall (λ i, i < S nx) (idsL (F ++ [n])).
Proof.
  intros Hnd Hlt Hn. rewrite idsL_app, idsL_cons, idsL_nil, Hn, app_nil_r. split.
  - apply NoDup_app. split_and!; [done| |apply NoDup_singleton].
    intros x Hx ->%list_elem_of_singleton.
    rewrite Forall_forall in Hlt. specialize (Hlt _ Hx). lia.
  - apply Forall_app. split.
    + eapply Forall_impl; [exact Hlt|]. simpl. lia.
    + apply Forall_singleton. lia.
Qed.

(** [highlight] on an unhighlighted selection, once the range is known to
    lie in one node: the element is created, recorded and decorated, and
    only then handed to [surroundContents]. *)
Lemma highlight_steps w r c i j tag decorator :
  wfWorld w = true → ranges w !! r = Some (mkRange c i c j) →
  validElementName tag = true →
  highlight tag decorator (mkSt w (mkSelection r None))
  = liftHost (surroundContents r (nextId w)) (beforeSurround w r tag decorator).
Proof.
  intros Hwf Hr Hv. destruct (wfWorld_inv _ Hwf) as [Hnd Hlt].
  destruct w as [F nx RS ws]. cbn [roots nextId ranges windowSelection] in *.
  destruct (fresh_root F nx (Element nx tag [] []) Hnd Hlt eq_refl) as [Hnd1 _].
  unfold highlight, beforeSurround. cbn [roots nextId ranges windowSelection].
  rewrite bind_gets. cbn [this _highlighter]. rewrite bind_ret, bind_gets.
  cbn [this range].
  rewrite (bind_inr _ _ _ (mkRange c i c j)
             (mkSt (mkWorld F nx RS ws) (mkSelection r None))); last first.
  { apply liftHost_inr. cbn [host]. unfold rangeObj. cbn [ranges]. by rewrite Hr. }
  cbn [startContainer endContainer]. rewrite decide_True by done.
  rewrite (bind_inr _ _ _ nx
             (mkSt (mkWorld (F ++ [Element nx tag [] []]) (S nx) RS ws)
                   (mkSelection r None))); last first.
  { apply liftHost_inr. cbn [host]. unfold createElement. by rewrite Hv. }
  unfold setHighlighter. rewrite bind_modify. cbn [host this range].
  rewrite (bind_inr _ _ _ tt
             (mkSt (mkWorld (F ++ [Element nx tag (decorator []) []]) (S nx) RS ws)
                   (mkSelection r (Some nx)))); [done|].
  apply liftHost_inr. cbn [host]. unfold decorate.
  rewrite (bind_inr _ _ _ _ _
             (pathOf_root (F ++ [Element nx tag [] []]) (S nx) RS ws (length F)
                (Element nx tag [] []) Hnd1 (lookup_snoc _ _))).
  unfold modify, setRoots. cbn [roots nextId ranges windowSelection modAt modNode].
  by rewrite alter_middle.
Qed.

Lemma idsL_alter_setData G k c d d1 :
  G !! k = Some (Text c d) → idsL (alter (setData d1) k G) = idsL G.
Proof.
  intros Hk. by rewrite (idsL_alter _ _ _ _ Hk), (idsL_split _ _ _ Hk).
Qed.

(** "Insert a node into a range" that starts in a parentless text node. *)
Lemma insertIntoRange_orphan G nx RS ws r rg d k x :
  NoDup (idsL G) → G !! k = Some (Text (startContainer rg) d) →
  RS !! r = Some rg →
  insertIntoRange r x (mkWorld G nx RS ws)
  = (inl HierarchyRequestError, mkWorld G nx RS ws).
Proof.
  intros Hnd Hk Hr. unfold insertIntoRange.
  rewrite (bind_inr _ _ _ rg (mkWorld G nx RS ws));
    [|unfold rangeObj; cbn [ranges]; by rewrite Hr].
  cbv zeta.
  rewrite (bind_inr _ _ _ _ _
             (nodeOf_root G nx RS ws k (Text (startContainer rg) d) Hnd Hk)).
  rewrite (bind_inr _ _ _ _ _
             (parentAndIndex_root G nx RS ws k (Text (startContainer rg) d) Hnd Hk)).
  cbn [isText andb]. rewrite (bool_decide_eq_true_2 (None = None)) by done.
  by rewrite orb_true_r.
Qed.

(** "Replace data" on a parentless text node. *)
Lemma replaceData_root G nx RS ws k c d offset count data :
  NoDup (idsL G) → G !! k = Some (Text c d) → offset ≤ String.length d →
  let count' := if decide (String.length d < offset + count)
                then String.length d - offset else count in
  let d' := String.substring 0 offset d +:+ data
            +:+ String.substring (offset + count')
                  (String.length d - (offset + count')) d in
  replaceData c offset count data (mkWorld G nx RS ws)
  = (inr tt,
     mkWorld (alter (setData d') k G) nx
       (map (mapBoundaries (replaceShift c offset count' (String.length data)))
          (map (mapBoundaries (replaceCollapse c offset count')) RS)) ws).
Proof.
  intros Hnd Hk Hoff count' d'. unfold replaceData.
  pose proof (pathOf_root G nx RS ws k (Text c d) Hnd Hk) as Hp.
  cbn [nid] in Hp. rewrite (bind_inr _ _ _ _ _ Hp).
  rewrite (bind_inr _ _ _ (Text c d) (mkWorld G nx RS ws));
    [|unfold nodeAtPath; simpl; by rewrite Hk].
  rewrite decide_False by lia.
  fold count'. fold d'. reflexivity.
Qed.

(** "Extract" on a range inside one parentless text node. *)
Lemma extractContents_orphan G nx RS ws r c d i j k :
  NoDup (idsL G) → Forall (λ x, x < nx) (idsL G) →
  G !! k = Some (Text c d) →
  RS !! r = Some (mkRange c i c j) → i < j → j ≤ String.length d →
  ∃ d1 RS',
    extractContents r (mkWorld G nx RS ws)
    = (inr [nx],
       mkWorld (alter (setData d1) k (G ++ [Text nx (String.substring i (j - i) d)]))
               (S nx) RS' ws)
    ∧ RS' !! r = Some (mkRange c i c i).
Proof.
  intros Hnd Hlt Hk Hr Hij Hj.
  destruct (fresh_root G nx (Text nx (String.substring i (j - i) d)) Hnd Hlt eq_refl)
    as [Hnd1 _].
  set (G1 := G ++ [Text nx (String.substring i (j - i) d)]) in *.
  assert (Hk1 : G1 !! k = Some (Text c d)) by by apply lookup_app_l_Some.
  pose proof (replaceData_root G1 (S nx) RS ws k c d i (j - i) EmptyString
                Hnd1 Hk1 ltac:(lia)) as Hrep.
  cbv zeta in Hrep. rewrite decide_False in Hrep by lia.
  eexists _, _. split.
  - unfold extractContents.
    rewrite (bind_inr _ _ _ (mkRange c i c j) (mkWorld G nx RS ws));
      [|unfold rangeObj; cbn [ranges]; by rewrite Hr].
    cbn [startContainer endContainer startOffset endOffset].
    rewrite decide_False by (intros ?; done).
    rewrite decide_False by lia.
    rewrite (bind_inr _ _ _ _ _ (nodeOf_root G nx RS ws k (Text c d) Hnd Hk)).
    rewrite decide_False by lia.
    rewrite (bind_inr _ _ _ nx (mkWorld G1 (S nx) RS ws)); [|done].
    rewrite (bind_inr _ _ _ _ _ Hrep). reflexivity.
  - rewrite !list_lookup_fmap, Hr.
    cbn [fmap option_fmap option_map].
    rewrite mapBoundaries_mk.
    rewrite replaceCollapse_fix by (cbn [fst snd]; lia).
    rewrite replaceCollapse_hit by lia. cbn [fst snd].
    by range_fix lia.
Qed.

(** [surroundContents] on a range inside one parentless text node fails,
    and the new parent is still parentless afterwards. *)
Lemma surroundContents_orphan F nx RS ws r c d i j k w tag sty :
  NoDup (idsL (F ++ [Element w tag sty []])) →
  Forall (λ x, x < nx) (idsL (F ++ [Element w tag sty []])) →
  F !! k = Some (Text c d) →
  RS !! r = Some (mkRange c i c j) → i ≤ j → j ≤ String.length d →
  ∃ W',
    surroundContents r w (mkWorld (F ++ [Element w tag sty []]) nx RS ws)
    = (inl HierarchyRequestError, W')
    ∧ parentNode w W' = (inr None, W').
Proof.
  intros Hnd Hlt Hk Hr Hij Hj.
  set (E := Element w tag sty []) in *. set (G := F ++ [E]) in *.
  assert (HkG : G !! k = Some (Text c d)) by by apply lookup_app_l_Some.
  assert (HwG : G !! length F = Some E) by apply lookup_snoc.
  pose proof (lookup_lt_Some _ _ _ Hk) as Hklt.
  unfold surroundContents.
  rewrite (bind_inr _ _ _ _ _ (nodeOf_root G nx RS ws (length F) E Hnd HwG)).
  rewrite (bind_inr _ _ _ _ _ (parentAndIndex_root G nx RS ws (length F) E Hnd HwG)).
  cbn [isText childNodes E orb].
  rewrite (bool_decide_eq_false_2 ([] ≠ [])) by (intros H; by apply H).
  rewrite (bool_decide_eq_false_2 (None ≠ None)) by (intros H; by apply H).
  cbn [orb].
  destruct (decide (i = j)) as [<-|Hne].
  - (* collapsed range: nothing is extracted *)
    exists (mkWorld G nx RS ws). split.
    + rewrite (bind_inr _ _ _ [] (mkWorld G nx RS ws)); last first.
      { unfold extractContents.
        rewrite (bind_inr _ _ _ (mkRange c i c i) (mkWorld G nx RS ws));
          [|unfold rangeObj; cbn [ranges]; by rewrite Hr].
        cbn [startContainer endContainer startOffset endOffset].
        rewrite decide_False by (intros ?; done).
        by rewrite decide_True. }
      apply bind_inl.
      by apply (insertIntoRange_orphan G nx RS ws r (mkRange c i c i) d k).
    + apply (parentNode_root G nx RS ws (length F) E Hnd HwG).
  - destruct (extractContents_orphan G nx RS ws r c d i j k Hnd Hlt HkG Hr
                ltac:(lia) Hj) as (d1 & RS' & Hext & Hr').
    set (G' := alter (setData d1) k (G ++ [Text nx (String.substring i (j - i) d)]))
      in *.
    assert (Hk' : G' !! k = Some (Text c d1)).
    { unfold G'. rewrite list_lookup_alter_eq.
      by rewrite (lookup_app_l_Some _ _ _ _ HkG). }
    assert (Hw' : G' !! length F = Some E).
    { unfold G'. rewrite list_lookup_alter_ne by lia.
      by apply lookup_app_l_Some. }
    assert (Hnd' : NoDup (idsL G')).
    { unfold G'.
      rewrite (idsL_alter_setData _ k c d d1) by by apply lookup_app_l_Some.
      apply (fresh_root G nx (Text nx (String.substring i (j - i) d)) Hnd Hlt eq_refl). }
    exists (mkWorld G' (S nx) RS' ws). split.
    + rewrite (bind_inr _ _ _ _ _ Hext).
      apply bind_inl.
      by apply (insertIntoRange_orphan G' (S nx) RS' ws r (mkRange c i c i) d1 k).
    + apply (parentNode_root G' (S nx) RS' ws (length F) E Hnd' Hw').
Qed.

(** [highlight] on a valid range inside a parentless text node: the
    surround step fails after the element was recorded. *)
Lemma highlight_orphan w r c i j tag decorator :
  wfWorld w = true → validRange w r = true →
  ranges w !! r = Some (mkRange c i c j) →
  orphanTextNode w c = true → validElementName tag = true →
  ∃ W',
    highlight tag decorator (mkSt w (mkSelection r None))
    = (inl HierarchyRequestError, mkSt W' (mkSelection r (Some (nextId w))))
    ∧ parentNode (nextId w) W' = (inr None, W').
Proof.
  intros Hwf Hvalid Hr Horph Hv.
  rewrite (highlight_steps w r c i j tag decorator Hwf Hr Hv).
  destruct (wfWorld_inv _ Hwf) as [Hnd Hlt].
  destruct (validRange_inv _ _ Hvalid)
    as (rg & ps & pe & sn & en & Hrg & Hps & Hpe & Hsn & Hen & Hi & Hj & _ & Hord).
  rewrite Hr in Hrg. injection Hrg as <-.
  cbn [startContainer endContainer startOffset endOffset] in *.
  rewrite Hps in Hpe. injection Hpe as <-.
  rewrite Hsn in Hen. injection Hen as <-.
  rewrite lexCompare_app in Hord.
  assert (Hij : i ≤ j).
  { simpl in Hord. destruct (Nat.compare_spec i j); [lia|lia|done]. }
  destruct (findPath_sound _ _ _ Hps) as (sn' & Hsn' & Hc).
  rewrite Hsn in Hsn'. injection Hsn' as <-.
  unfold orphanTextNode in Horph. rewrite Hps in Horph.
  destruct ps as [|k [|? ?]]; try done.
  simpl in Hsn.
  destruct (roots w !! k) as [n|] eqn:Hk; [|done].
  simpl in Hsn. injection Hsn as ->.
  destruct sn as [c' d|]; [|done]. cbn [nid nodeLength] in *. subst c'.
  destruct w as [F nx RS ws]. cbn [roots nextId ranges windowSelection] in *.
  destruct (fresh_root F nx (Element nx tag (decorator []) []) Hnd Hlt eq_refl)
    as [Hnd1 Hlt1].
  destruct (surroundContents_orphan F (S nx) RS ws r c d i j k nx tag (decorator [])
              Hnd1 Hlt1 Hk Hr Hij Hj) as (W' & Hrun & Hpar).
  exists W'. split; [|done].
  unfold beforeSurround. cbn [roots nextId ranges windowSelection].
  by apply liftHost_inl.
Qed.

(** ** Order of the steps of [highlight] *)

(** C10: on an unhighlighted selection whose range lies in one container,
    [highlight] is the surround step run from the state in which the new
    element is already recorded in [_highlighter] and already decorated,
    and is still a parentless, childless root; whenever the call then
    fails, [isHighlighted] is true in the state it leaves although the
    element has no parent; for a range inside a parentless text node the
    call does fail. *)
Theorem highlight_records_before_surround w r c i j tag decorator :
  wfWorld w = true → validRange w r = true →
  ranges w !! r = Some (mkRange c i c j) →
  validElementName tag = true →
  let e := nextId w in
  let mid := beforeSurround w r tag decorator in
  highlight tag decorator (mkSt w (Selection r))
  = liftHost (surroundContents r e) mid
  ∧ isHighlighted mid = true
  ∧ lookupNode (host mid) e = Some (Element e tag (decorator []) [])
  ∧ parentNode e (host mid) = (inr None, host mid)
  ∧ (∀ err s',
       highlight tag decorator (mkSt w (Selection r)) = (inl err, s') →
       isHighlighted s' = true ∧ parentNode e (host s') = (inr None, host s'))
  ∧ (orphanTextNode w c = true →
     ∃ s', highlight tag decorator (mkSt w (Selection r))
           = (inl HierarchyRequestError, s')).
Proof.
  intros Hwf Hvalid Hr Hv e mid. unfold Selection.
  destruct (wfWorld_inv _ Hwf) as [Hnd Hlt].
  destruct (fresh_root (roots w) e (Element e tag (decorator []) []) Hnd Hlt eq_refl)
    as [Hnd1 _].
  split_and!.
  - by apply (highlight_steps w r c i j).
  - done.
  - unfold lookupNode, mid, beforeSurround. cbn [host roots].
    pose proof (findPath_root _ (length (roots w)) (Element e tag (decorator []) [])
                  Hnd1 (lookup_snoc _ _)) as Hf.
    cbn [nid] in Hf. fold e. rewrite Hf. simpl. by rewrite lookup_snoc.
  - apply (parentNode_root _ _ _ _ (length (roots w))
             (Element e tag (decorator []) []) Hnd1 (lookup_snoc _ _)).
  - intros err s' Hfail.
    destruct (orphanTextNode w c) eqn:Horph.
    + destruct (highlight_orphan w r c i j tag decorator Hwf Hvalid Hr Horph Hv)
        as (W' & Hrun & Hpar).
      rewrite Hrun in Hfail. injection Hfail as _ <-. by split.
    + destruct (highlight_frame w r c i j tag decorator Hwf Hvalid Hr Horph Hv)
        as (? & ? & ? & ? & ? & ? & ? & ? & ? & ? & ? & _ & _ & Hrun & _).
      rewrite Hrun in Hfail. discriminate.
  - intros Horph.
    destruct (highlight_orphan w r c i j tag decorator Hwf Hvalid Hr Horph Hv)
      as (W' & Hrun & _).
    by eexists.
Qed.

Lemma highlight_records_before_surround_witness :
  ∃ s', highlight "span" yellowBackground (mkSt orphanText (Selection 0))
        = (inl HierarchyRequestError, s')
        ∧ isHighlighted s' = true
        ∧ parentNode 2 (host s') = (inr None, host s').
Proof.
  destruct (highlight_records_before_surround orphanText 0 1 2 5 "span"
              yellowBackground eq_refl eq_refl eq_refl eq_refl)
    as (_ & _ & _ & _ & Hfail & _).
  eexists. split; [reflexivity|].
  exact (Hfail HierarchyRequestError _ eq_refl).
Defined.

(** ** [getText] *)

Lemma toString_reads_only r w o w' : toString r w = (o, w') → w' = w.
Proof.
  unfold toString, bind, rangeObj, pathOf, nodeAtPath, fromOption, ret, throw.
  intros H. repeat case_match; by simplify_eq.
Qed.

(** X1.  [getText] never changes the document, the ranges or the selection
    object, whatever it returns. *)
Theorem getText_reads_only s o s' : getText s = (o, s') → s' = s.
Proof.
  unfold getText, bind, gets, liftHost. intros H.
  destruct (toString (range (this s)) (host s)) as [o' w'] eqn:Hts.
  apply toString_reads_only in Hts as ->. injection H as _ <-. by destruct s.
Qed.

Lemma getText_reads_only_witness :
  (getText (mkSt (helloWorld 6 11) (Selection 0))).2
  = mkSt (helloWorld 6 11) (Selection 0).
Proof.
  apply (getText_reads_only (mkSt (helloWorld 6 11) (Selection 0))
           (getText (mkSt (helloWorld 6 11) (Selection 0))).1).
  reflexivity.
Defined.

Lemma toString_text_node w r c i j c' d :
  ranges w !! r = Some (mkRange c i c j) →
  lookupNode w c = Some (Text c' d) →
  toString r w = (inr (String.substring i (j - i) d), w).
Proof.
  intros Hr Hn. unfold lookupNode in Hn.
  destruct (findPath c (roots w)) as [p|] eqn:Hp; [|done]. simpl in Hn.
  assert (Hpath : pathOf c w = (inr p, w)) by (unfold pathOf; by rewrite Hp).
  assert (Hnode : nodeAtPath p w = (inr (Text c' d), w))
    by (unfold nodeAtPath; by rewrite Hn).
  unfold toString.
  rewrite (bind_inr _ _ _ (mkRange c i c j) w) by (unfold rangeObj; by rewrite Hr).
  cbn [startContainer endContainer startOffset endOffset].
  rewrite (bind_inr _ _ _ _ _ Hpath), (bind_inr _ _ _ _ _ Hnode).
  rewrite (bind_inr _ _ _ _ _ Hpath), (bind_inr _ _ _ _ _ Hnode).
  cbn [isText textContent]. by rewrite bool_decide_eq_true_2.
Qed.

Lemma getText_toString s text :
  toString (range (this s)) (host s) = (inr text, host s) →
  getText s = (inr text, s).
Proof.
  intros H. destruct s as [w sel]. cbn [host this] in *.
  unfold getText. rewrite bind_gets. by apply liftHost_inr.
Qed.

(** X2.  For a range with both boundary points in one text node, [getText]
    returns the characters of the node's data from the start offset up to
    the end offset, and changes nothing. *)
Theorem getText_inside_text_node s c i j c' d :
  ranges (host s) !! range (this s) = Some (mkRange c i c j) →
  lookupNode (host s) c = Some (Text c' d) →
  getText s = (inr (String.substring i (j - i) d), s).
Proof.
  intros Hr Hn. destruct s as [w sel]. cbn [host this] in *.
  unfold getText. rewrite bind_gets. cbn [this].
  apply liftHost_inr. cbn [host].
  by apply (toString_text_node w (range sel) c i j c' d).
Qed.

Lemma getText_inside_text_node_witness :
  getText (mkSt (helloWorld 6 11) (Selection 0))
  = (inr "world"%string, mkSt (helloWorld 6 11) (Selection 0)).
Proof.
  apply (getText_inside_text_node (mkSt (helloWorld 6 11) (Selection 0)) 1 6 11 1
           "hello world"); reflexivity.
Defined.

(** ** [removeHighlight] and [highlight]: guards and failures *)

Lemma removeHighlight_unhighlighted s :
  _highlighter (this s) = None → removeHighlight s = (inr tt, s).
Proof. intros H. unfold removeHighlight. rewrite bind_gets. by rewrite H. Qed.

Lemma bind_inr_inv {S A B} (m : M S A) (k : A → M S B) s b s' :
  bind m k s = (inr b, s') → ∃ a s1, m s = (inr a, s1) ∧ k a s1 = (inr b, s').
Proof.
  unfold bind. destruct (m s) as [[e|a] s1]; [done|]. intros H. by exists a, s1.
Qed.

Lemma removeHighlight_clears s s' :
  removeHighlight s = (inr tt, s') → _highlighter (this s') = None.
Proof.
  unfold removeHighlight. rewrite bind_gets.
  destruct (_highlighter (this s)) as [h|] eqn:Hh.
  - intros (parent & s1 & _ & H)%bind_inr_inv.
    apply bind_inr_inv in H as (n & s2 & _ & H).
    apply bind_inr_inv in H as ([] & s3 & _ & H).
    apply bind_inr_inv in H as ([] & s4 & _ & H).
    by injection H as <-.
  - by intros [= <-].
Qed.

(** X3.  [removeHighlight] is idempotent: after a call that completed, the
    selection is not highlighted and a second call changes nothing. *)
Theorem removeHighlight_idempotent s s' :
  removeHighlight s = (inr tt, s') →
  isHighlighted s' = false ∧ removeHighlight s' = (inr tt, s').
Proof.
  intros H. pose proof (removeHighlight_clears _ _ H) as Hnone. split.
  - unfold isHighlighted. by rewrite Hnone.
  - by apply removeHighlight_unhighlighted.
Qed.

Lemma removeHighlight_idempotent_witness :
  let s := (highlight "span" yellowBackground
              (mkSt (helloWorld 2 5) (Selection 0))).2 in
  let s' := (removeHighlight s).2 in
  isHighlighted s = true
  ∧ isHighlighted s' = false ∧ removeHighlight s' = (inr tt, s').
Proof.
  split; [reflexivity|].
  apply (removeHighlight_idempotent
           (highlight "span" yellowBackground
              (mkSt (helloWorld 2 5) (Selection 0))).2).
  vm_compute. reflexivity.
Defined.

Lemma parentless_root h w :
  parentNode h w = (inr None, w) →
  ∃ k n, findPath h (roots w) = Some [k] ∧ roots w !! k = Some n.
Proof.
  unfold parentNode, parentAndIndex, bind, pathOf, fromOption, nodeAtPath, ret, throw.
  destruct (findPath h (roots w)) as [p|] eqn:Hp; [|done].
  destruct (findPath_sound _ _ _ Hp) as (n & Hn & _).
  destruct (splitLast p) as [[q k]|] eqn:Hs; [|done].
  assert (p = q ++ [k]) as ->.
  { unfold splitLast in Hs. destruct (reverse p) as [|k' q'] eqn:Hrev; [done|].
    injection Hs as <- <-.
    rewrite <- (reverse_involutive p), Hrev. by rewrite reverse_cons. }
  destruct q as [|k0 q].
  - intros _. exists k, n. split; [done|]. simpl in Hn.
    by destruct (roots w !! k).
  - destruct (getAt (k0 :: q) (roots w)); intros [=].
Qed.

(** X4.  A recorded wrapper that has no parent cannot be removed: with
    [parent] null, [removeHighlight] ends in a [TypeError] and, as
    [highlight] starts by removing, so does every further [highlight];
    both leave the state as it was, still highlighted. *)
Theorem removeHighlight_of_parentless_wrapper_fails s h :
  _highlighter (this s) = Some h →
  parentNode h (host s) = (inr None, host s) →
  isHighlighted s = true
  ∧ removeHighlight s = (inl TypeError, s)
  ∧ ∀ tag decorator, highlight tag decorator s = (inl TypeError, s).
Proof.
  intros Hh Hpar.
  destruct (parentless_root _ _ Hpar) as (k & n & Hk & Hn).
  destruct s as [w sel]. cbn [host this] in *.
  assert (Hnode : nodeOf h w = (inr n, w)).
  { unfold nodeOf, pathOf. rewrite (bind_inr _ _ _ [k] w) by by rewrite Hk.
    unfold nodeAtPath. simpl. by rewrite Hn. }
  assert (Hfc : firstChild h w = (inr (nid <$> head (childNodes n)), w)).
  { unfold firstChild. by rewrite (bind_inr _ _ _ _ _ Hnode). }
  assert (Hrem : removeHighlight (mkSt w sel) = (inl TypeError, mkSt w sel)).
  { unfold removeHighlight. rewrite bind_gets. cbn [this]. rewrite Hh.
    rewrite (bind_inr _ _ _ None (mkSt w sel)) by by apply liftHost_inr.
    rewrite (bind_inr _ _ _ n (mkSt w sel)) by by apply liftHost_inr.
    destruct (childNodes n) as [|c cs] eqn:Hcs.
    - rewrite (bind_inr _ _ _ tt (mkSt w sel)); last first.
      { apply liftHost_inr. cbn [host length unwrapLoop].
        by rewrite (bind_inr _ _ _ _ _ Hfc). }
      apply bind_inl. by apply liftHost_inl.
    - apply bind_inl. apply liftHost_inl. cbn [host length unwrapLoop].
      rewrite (bind_inr _ _ _ _ _ Hfc).
      cbn [head fmap option_fmap option_map].
      by apply bind_inl. }
  split_and!.
  - unfold isHighlighted. cbn [this]. by rewrite Hh.
  - exact Hrem.
  - intros tag decorator. unfold highlight. rewrite bind_gets. cbn [this].
    rewrite Hh. by apply bind_inl.
Qed.

Lemma removeHighlight_of_parentless_wrapper_fails_witness :
  let s := (highlight "span" yellowBackground (mkSt orphanText (Selection 0))).2 in
  isHighlighted s = true
  ∧ removeHighlight s = (inl TypeError, s)
  ∧ ∀ tag decorator, highlight tag decorator s = (inl TypeError, s).
Proof.
  apply (removeHighlight_of_parentless_wrapper_fails
           (highlight "span" yellowBackground (mkSt orphanText (Selection 0))).2 2);
    vm_compute; reflexivity.
Defined.

(** X5.  With a tag that is not a valid element name, [highlight] on an
    unhighlighted selection fails in [createElement], before anything is
    recorded or changed: the state is as before and not highlighted. *)
Theorem highlight_invalid_tag s c i j tag decorator :
  _highlighter (this s) = None →
  ranges (host s) !! range (this s) = Some (mkRange c i c j) →
  validElementName tag = false →
  highlight tag decorator s = (inl InvalidCharacterError, s)
  ∧ isHighlighted s = false.
Proof.
  intros Hh Hr Hv. destruct s as [w sel]. cbn [host this] in *. split.
  - unfold highlight. rewrite bind_gets. cbn [this]. rewrite Hh, bind_ret, bind_gets.
    rewrite (bind_inr _ _ _ (mkRange c i c j) (mkSt w sel)); last first.
    { apply liftHost_inr. cbn [host this]. unfold rangeObj. by rewrite Hr. }
    cbn [startContainer endContainer]. rewrite decide_True by done.
    apply bind_inl. apply liftHost_inl. cbn [host].
    unfold createElement. by rewrite Hv.
  - unfold isHighlighted. cbn [this]. by rewrite Hh.
Qed.

Lemma highlight_invalid_tag_witness :
  highlight "my span" yellowBackground (mkSt (helloWorld 2 5) (Selection 0))
  = (inl InvalidCharacterError, mkSt (helloWorld 2 5) (Selection 0))
  ∧ isHighlighted (mkSt (helloWorld 2 5) (Selection 0)) = false.
Proof.
  apply (highlight_invalid_tag (mkSt (helloWorld 2 5) (Selection 0)) 1 2 5);
    reflexivity.
Defined.



(** ** [snapToWord] *)







(** X10.  [snapToWord] on a range inside one text node only adds characters
    around the selected text, and no space among them: [getText] then
    returns the old text between a prefix and a suffix; the suffix holds
    no space, and the prefix holds none except possibly as its first
    character when the new start is offset 0. *)
Theorem snapToWord_adds_no_space s c i j d :
  validRange (host s) (range (this s)) = true →
  ranges (host s) !! range (this s) = Some (mkRange c i c j) →
  lookupNode (host s) c = Some (Text c d) →
  ∃ s' i' pre post,
    snapToWord s = (inr tt, s')
    ∧ ranges (host s') !! range (this s') = Some (mkRange c i' c (j + String.length post))
    ∧ getText s = (inr (String.substring i (j - i) d), s)
    ∧ getText s' = (inr (pre +:+ String.substring i (j - i) d +:+ post), s')
    ∧ (∀ k, String.get k post ≠ Some " "%char)
    ∧ (∀ k, 0 < k ∨ 0 < i' → String.get k pre ≠ Some " "%char).
Proof.
  intros Hvalid Hr Hlook.
  pose proof Hvalid as Hvalid'.
  apply validRange_inv in Hvalid'
    as (rg & ps & pe & sn & en & Hrg & Hps & Hpe & Hsn & Hen & Hso & Heo & Hh & Hord).
  rewrite Hr in Hrg. injection Hrg as <-.
  cbn [startContainer endContainer startOffset endOffset] in *.
  rewrite Hps in Hpe. injection Hpe as <-.
  rewrite Hsn in Hen. injection Hen as <-.
  pose proof Hlook as Hlook0.
  unfold lookupNode in Hlook. rewrite Hps in Hlook. simpl in Hlook.
  rewrite Hlook in Hsn. injection Hsn as <-.
  cbn [nodeLength] in *.
  rewrite lexCompare_app in Hord.
  assert (Hij : i ≤ j).
  { simpl in Hord. destruct (Nat.compare_spec i j); [lia|lia|done]. }
  pose proof (snapToWord_run s (mkRange c i c j) ps ps (Text c d) (Text c d)
                Hr Hps Hps Hlook Hlook Hso Heo eq_refl
                ltac:(by apply lexCompare_last)) as Hrun.
  cbn [startContainer endContainer startOffset endOffset textContent
       lengthProperty] in Hrun.
  destruct (snapStart_spec d i) as (stop & Hstop & Hbetween & Hat & Hstart).
  destruct (snapEnd_spec d (Some (String.length d)) j) as (Hge & Hfwd & _).
  pose proof (snapEnd_le_length (Text c d) j Heo) as Hle.
  cbn [textContent lengthProperty nodeLength] in Hle.
  set (i' := snapStart d i) in *.
  set (j' := snapEnd d (Some (String.length d)) j) in *.
  assert (Hi' : i' ≤ i) by apply snapStart_le.
  exists (mkSt (setRanges (<[range (this s) := mkRange c i' c j']> (ranges (host s)))
                  (host s)) (this s)),
    i', (String.substring i' (i - i') d), (String.substring j (j' - j) d).
  assert (Hlen : String.length (String.substring j (j' - j) d) = j' - j).
  { rewrite string_length_substring. lia. }
  split_and!.
  - exact Hrun.
  - cbn [host this ranges setRanges]. rewrite Hlen.
    replace (j + (j' - j)) with j' by lia.
    apply list_lookup_insert_eq. by eapply lookup_lt_Some.
  - exact (getText_toString s _ (toString_text_node _ _ c i j c d Hr Hlook0)).
  - apply getText_toString. cbn [host this].
    rewrite (toString_text_node _ _ c i' j' c d).
    + by rewrite substring_three by lia.
    + cbn [ranges setRanges].
      apply list_lookup_insert_eq. by eapply lookup_lt_Some.
    + unfold lookupNode, setRanges. cbn [roots]. rewrite Hps. exact Hlook.
  - intros k. destruct (decide (k < j' - j)) as [Hk|Hk].
    + rewrite get_substring by done.
      apply (Hfwd (j + k)). lia.
    + rewrite get_substring_None by lia. done.
  - intros k Hk. destruct (decide (k < i - i')) as [Hlt|Hge'].
    + rewrite get_substring by done.
      apply Hbetween. rewrite Hstart in *.
      destruct (decide (stop ≠ 0 ∧ stop ≠ i)); lia.
    + rewrite get_substring_None by lia. done.
Qed.

Lemma snapToWord_adds_no_space_witness :
  ∃ s' i' pre post,
    snapToWord (mkSt (helloWorld 2 9) (Selection 0)) = (inr tt, s')
    ∧ ranges (host s') !! range (this s')
      = Some (mkRange 1 i' 1 (9 + String.length post))
    ∧ getText (mkSt (helloWorld 2 9) (Selection 0))
      = (inr (String.substring 2 (9 - 2) "hello world"),
         mkSt (helloWorld 2 9) (Selection 0))
    ∧ getText s'
      = (inr (pre +:+ String.substring 2 (9 - 2) "hello world" +:+ post), s')
    ∧ (∀ k, String.get k post ≠ Some " "%char)
    ∧ (∀ k, 0 < k ∨ 0 < i' → String.get k pre ≠ Some " "%char).
Proof.
  apply (snapToWord_adds_no_space (mkSt (helloWorld 2 9) (Selection 0)) 1 2 9
           "hello world"); reflexivity.
Defined.

(** ** The document after [highlight] *)

(** [highlight_frame] with the shape of the children of [P]: either the
    container is [P] itself and the wrapper holds the selected children,
    or the container is a text child of [P], which ends up in three
    pieces: the data before the range, the wrapper around the selected
    data (empty for a collapsed range), and a new text node with the data
    after the range. *)
Lemma highlight_frame_data w r c i j tag decorator :
  wfWorld w = true → validRange w r = true →
  ranges w !! r = Some (mkRange c i c j) →
  orphanTextNode w c = false → validElementName tag = true →
  ∃ pp P tg st cs0 ctx A MID B nx' RS',
    getAt pp (roots w) = Some (Element P tg st cs0)
    ∧ (∀ f, idsL (modAt pp f (roots w)) ≡ₚ ids (f (Element P tg st cs0)) ++ ctx)
    ∧ highlight tag decorator (mkSt w (mkSelection r None))
      = (inr tt,
         mkSt (mkWorld (focus (roots w) pp
                          (A ++ Element (nextId w) tag (decorator []) MID :: B) [])
                       nx' RS' (windowSelection w))
              (mkSelection r (Some (nextId w))))
    ∧ RS' !! r = Some (mkRange P (length A) P (S (length A)))
    ∧ Good P ctx nx' (A ++ Element (nextId w) tag (decorator []) MID :: B) []
    ∧ getText (mkSt w (mkSelection r None))
      = (inr (concatText (textContent <$> MID)), mkSt w (mkSelection r None))
    ∧ i ≤ j
    ∧ ((c = P ∧ cs0 = A ++ MID ++ B ∧ length A = i ∧ length MID = j - i)
       ∨ (∃ A0 B0 d,
            cs0 = A0 ++ Text c d :: B0
            ∧ j ≤ String.length d
            ∧ A = A0 ++ [Text c (String.substring 0 i d)]
            ∧ B = Text (pred nx') (String.substring j (String.length d - j) d) :: B0
            ∧ MID = if decide (i = j) then []
                    else [Text (S (nextId w)) (String.substring i (j - i) d)])).
Proof.
  intros Hwf Hvalid Hr Horph Hv.
  destruct (wfWorld_inv _ Hwf) as [Hnd Hlt].
  destruct (validRange_inv _ _ Hvalid)
    as (rg & ps & pe & sn & en & Hrg & Hps & Hpe & Hsn & Hen & Hi & Hj & _ & Hord).
  rewrite Hr in Hrg. injection Hrg as <-.
  cbn [startContainer endContainer startOffset endOffset] in *.
  rewrite Hps in Hpe. injection Hpe as <-.
  rewrite Hsn in Hen. injection Hen as <-.
  rewrite lexCompare_app in Hord.
  assert (Hij : i ≤ j).
  { simpl in Hord. destruct (Nat.compare_spec i j); [lia|lia|done]. }
  destruct (findPath_sound _ _ _ Hps) as (sn' & Hsn' & Hc).
  rewrite Hsn in Hsn'. injection Hsn' as <-.
  destruct w as [F nx RS ws]. cbn [roots ranges nextId windowSelection] in *.
  destruct sn as [c' d|c' t s cs]; cbn [nid nodeLength] in *; subst c'.
  - (* the container is a text node with a parent *)
    destruct (frame_text (mkWorld F nx RS ws) _ _ _ Hps Hsn Horph)
      as (pp & m & P & tg & st & cs0 & -> & Hget & Hm).
    cbn [roots] in Hget.
    destruct (idsL_modAt_ctx _ _ _ Hget) as [ctx Hctx].
    pose proof (frame_Good _ _ _ _ _ _ _ _ Hget Hctx Hnd Hlt) as Hg.
    pose proof (lookup_lt_Some _ _ _ Hm) as Hmlt.
    pose proof (take_drop_middle _ _ _ Hm) as Hcs0.
    assert (Hlen : length (take m cs0) = m) by (rewrite length_take; lia).
    revert Hcs0 Hlen. generalize (take m cs0) (drop (S m) cs0).
    intros A B <- HlenA. subst m.
    destruct (highlight_text_data F pp P tg st _ ctx Hget Hctx A B [] nx RS ws r c d
                i j tag decorator Hg Hr Hij Hj Hv)
      as (RS' & Hrun & Hr' & Hg').
    rewrite (focus_initial F pp P tg st _ ctx Hget Hctx) in Hrun.
    rewrite (snoc_cons_eq A _ (Text c (String.substring 0 i d))) in Hrun, Hg'.
    eexists pp, P, tg, st, (A ++ Text c d :: B), ctx, _, _, _, _, RS'.
    split_and!; [exact Hget|exact Hctx|exact Hrun| |exact Hg'| |exact Hij|].
    + rewrite Hr', length_app. simpl. by rewrite Nat.add_1_r.
    + apply getText_toString. cbn [host this range].
      rewrite (toString_text_node _ _ c i j c d); [|done|].
      * do 2 f_equal. destruct (decide (i = j)) as [->|Hne].
        -- by rewrite Nat.sub_diag, substring_zero.
        -- cbn [fmap list_fmap textContent]. by rewrite concatText_singleton.
      * unfold lookupNode. cbn [roots]. by rewrite Hps.
    + right. by exists A, B, d.
  - (* the container is an element *)
    destruct (idsL_modAt_ctx _ _ _ Hsn) as [ctx Hctx].
    pose proof (frame_Good _ _ _ _ _ _ _ _ Hsn Hctx Hnd Hlt) as Hg.
    assert (Hcs : cs = take i cs ++ take (j - i) (drop i cs) ++ drop j cs).
    { rewrite <- (take_drop i cs) at 1. f_equal.
      rewrite <- (take_drop (j - i) (drop i cs)) at 1. f_equal.
      rewrite drop_drop. f_equal. lia. }
    assert (HlenA : length (take i cs) = i) by (rewrite length_take; lia).
    assert (HlenM : length (take (j - i) (drop i cs)) = j - i).
    { rewrite length_take, length_drop. lia. }
    assert (Hts : toString r (mkWorld F nx RS ws)
                  = (inr (concatText (textContent <$> take (j - i) (drop i cs))),
                     mkWorld F nx RS ws)).
    { pose proof (toString_P F ps c t s cs ctx Hsn Hctx cs [] nx RS ws r i j
                    (Good_Distinct F ps c t s cs ctx Hsn Hctx _ _ _ Hg) Hr
                    ltac:(lia)) as Hts.
      by rewrite (focus_initial F ps c t s cs ctx Hsn Hctx) in Hts. }
    revert Hcs HlenA HlenM Hts.
    generalize (take i cs) (take (j - i) (drop i cs)) (drop j cs).
    intros A MID B -> HlenA HlenM Hts.
    assert (Hr2 : RS !! r = Some (mkRange c (length A) c (length A + length MID))).
    { rewrite Hr. f_equal. f_equal; lia. }
    destruct (highlight_P F ps c t s _ ctx Hsn Hctx A MID B [] nx RS ws r
                tag decorator Hg Hr2 Hv)
      as (RS' & Hrun & Hr' & Hg').
    rewrite (focus_initial F ps c t s _ ctx Hsn Hctx) in Hrun.
    exists ps, c, t, s, (A ++ MID ++ B), ctx, A, MID, B, (S nx), RS'.
    split_and!; try done.
    + unfold getText. rewrite bind_gets. cbn [this range].
      by apply liftHost_inr.
    + by left.
Qed.

(** The text of a tree does not depend on how the text below one of its
    elements is cut into children. *)
Lemma textContent_modNode q : ∀ n i t s cs CS,
  descend q n = Some (Element i t s cs) →
  concatText (map textContent CS) = concatText (map textContent cs) →
  textContent (modNode q (setChildNodes CS) n) = textContent n.
Proof.
  induction q as [|k q IH]; intros n i t s cs CS Hq Htext.
  - simpl in Hq. injection Hq as ->. done.
  - simpl in Hq. destruct n as [i0 d0|i0 t0 s0 kids]; [done|].
    cbn [childNodes] in Hq.
    destruct (kids !! k) as [c|] eqn:Hc; [|done]. simpl in Hq.
    cbn [modNode childNodes setChildNodes textContent]. f_equal.
    rewrite (alter_take_drop _ _ _ _ Hc).
    rewrite <- (take_drop_middle kids k c Hc) at 3.
    rewrite !map_app. cbn [map]. do 2 f_equal.
    by eapply IH.
Qed.

Lemma textContent_modAt p F i t s cs CS :
  getAt p F = Some (Element i t s cs) →
  concatText (map textContent CS) = concatText (map textContent cs) →
  map textContent (modAt p (setChildNodes CS) F) = map textContent F.
Proof.
  destruct p as [|k q]; [done|]. simpl. intros Hget Htext.
  destruct (F !! k) as [root|] eqn:Hk; [|done]. simpl in Hget.
  rewrite (alter_take_drop _ _ _ _ Hk).
  rewrite <- (take_drop_middle F k root Hk) at 3.
  rewrite !map_app. cbn [map]. do 2 f_equal.
  by eapply textContent_modNode.
Qed.

Section FocusFacts.
Variables (F0 : list Node) (pp : Path) (P : NodeId) (tg : string) (st : Style).
Variables (cs0 : list Node) (ctx : list NodeId).
Hypothesis Hget : getAt pp F0 = Some (Element P tg st cs0).
Hypothesis Hctx : ∀ f, idsL (modAt pp f F0) ≡ₚ ids (f (Element P tg st cs0)) ++ ctx.

#[local] Abbreviation focus := (focus F0 pp).
#[local] Abbreviation Distinct := (Distinct P ctx).
#[local] Abbreviation Good := (Good P ctx).
#[local] Abbreviation W CS EXTRA nx RS ws := (mkWorld (focus CS EXTRA) nx RS ws).

Lemma wfWorld_focus CS EXTRA nx RS ws :
  Good nx CS EXTRA → wfWorld (W CS EXTRA nx RS ws) = true.
Proof using All.
  intros [Hd Hlt]. unfold wfWorld. apply bool_decide_eq_true_2.
  cbn [roots nextId]. split.
  - by apply (focus_NoDup F0 pp P tg st cs0 ctx Hget Hctx).
  - by rewrite (idsL_focus F0 pp P tg st cs0 ctx Hget Hctx).
Qed.

Lemma lookupNode_P CS EXTRA nx RS ws :
  Distinct CS EXTRA →
  lookupNode (W CS EXTRA nx RS ws) P = Some (Element P tg st CS).
Proof using All.
  intros Hd. unfold lookupNode. cbn [roots].
  rewrite (findPath_P F0 pp P tg st cs0 ctx Hget Hctx _ _ Hd). simpl.
  apply (getAt_focus F0 pp P tg st cs0 ctx Hget Hctx).
Qed.

Lemma lookupNode_child CS EXTRA nx RS ws m x :
  Distinct CS EXTRA → CS !! m = Some x →
  lookupNode (W CS EXTRA nx RS ws) (nid x) = Some x.
Proof using All.
  intros Hd Hx. unfold lookupNode. cbn [roots].
  rewrite (findPath_child F0 pp P tg st cs0 ctx Hget Hctx _ _ _ _ Hd Hx).
  cbn [mbind option_bind].
  by rewrite (getAt_focus_child F0 pp P tg st cs0 ctx Hget Hctx).
Qed.

Lemma validRange_focus_P CS EXTRA nx RS ws r a b :
  Distinct CS EXTRA → RS !! r = Some (mkRange P a P b) → a ≤ b ≤ length CS →
  validRange (W CS EXTRA nx RS ws) r = true.
Proof using All.
  intros Hd Hr Hab. unfold validRange. cbn [ranges roots]. rewrite Hr.
  cbn [startContainer endContainer startOffset endOffset].
  rewrite (findPath_P F0 pp P tg st cs0 ctx Hget Hctx _ _ Hd).
  rewrite (getAt_focus F0 pp P tg st cs0 ctx Hget Hctx).
  apply bool_decide_eq_true_2. cbn [nodeLength]. split_and!; [lia|lia|done|].
  apply lexCompare_last. lia.
Qed.

Lemma orphanTextNode_P CS EXTRA nx RS ws :
  Distinct CS EXTRA → orphanTextNode (W CS EXTRA nx RS ws) P = false.
Proof using All.
  intros Hd. unfold orphanTextNode. cbn [roots].
  rewrite (findPath_P F0 pp P tg st cs0 ctx Hget Hctx _ _ Hd).
  pose proof (getAt_focus F0 pp P tg st cs0 ctx Hget Hctx CS EXTRA) as Hg.
  destruct pp as [|k q]; [done|]. destruct q as [|k' q]; [|reflexivity].
  simpl in Hg.
  match type of Hg with context [?l !! k] => destruct (l !! k) as [n|] end;
    [|done].
  simpl in Hg. by injection Hg as ->.
Qed.

Lemma textContent_focus CS EXTRA :
  concatText (map textContent CS) = concatText (map textContent cs0) →
  map textContent (focus CS EXTRA) = map textContent F0 ++ map textContent EXTRA.
Proof using All.
  intros Htext. unfold focus. rewrite map_app. f_equal.
  by eapply textContent_modAt.
Qed.

End FocusFacts.




(** X12.  [highlight] and a following [removeHighlight] keep what the other
    properties assume: the host state stays well-formed, the range stays
    valid and inside one element, so that either method can be called
    again under the same conditions. *)
Theorem highlight_cycle_keeps_invariants w r c i j tag decorator :
  wfWorld w = true → validRange w r = true →
  ranges w !! r = Some (mkRange c i c j) →
  orphanTextNode w c = false → validElementName tag = true →
  ∃ s1 s2 parent k n,
    highlight tag decorator (mkSt w (Selection r)) = (inr tt, s1)
    ∧ wfWorld (host s1) = true
    ∧ validRange (host s1) r = true
    ∧ ranges (host s1) !! r = Some (mkRange parent k parent (S k))
    ∧ orphanTextNode (host s1) parent = false
    ∧ removeHighlight s1 = (inr tt, s2)
    ∧ this s2 = Selection r
    ∧ wfWorld (host s2) = true
    ∧ validRange (host s2) r = true
    ∧ ranges (host s2) !! r = Some (mkRange parent k parent (k + n))
    ∧ orphanTextNode (host s2) parent = false.
Proof.
  intros Hwf Hvalid Hr Horph Hv.
  destruct (highlight_frame_data w r c i j tag decorator Hwf Hvalid Hr Horph Hv)
    as (pp & P & tg & st & cs0 & ctx & A & MID & B & nx' & RS'
        & Hget & Hctx & Hrun & Hr' & Hg & _ & _ & _).
  pose proof (Good_Distinct _ pp P tg st cs0 ctx Hget Hctx _ _ _ Hg) as Hd.
  destruct (removeHighlight_wrapper _ pp P tg st cs0 ctx Hget Hctx A MID B [] nx' RS'
              (windowSelection w) (nextId w) tag (decorator []) r Hd Hr')
    as (RS'' & Hrem & Hr'' & Hd').
  set (E1 := Element (nextId w) tag (decorator []) []) in *.
  assert (Hg1 : Good P ctx nx' (A ++ MID ++ B) ([] ++ [E1])).
  { eapply (Good_perm _ pp P tg st cs0 ctx Hget Hctx); [|exact Hg].
    unfold E1. ids_perm. }
  eexists _, _, P, (length A), (length MID).
  split_and!; [exact Hrun| | |exact Hr'| |exact Hrem|done| | |exact Hr''|];
    cbn [host].
  - exact (wfWorld_focus _ pp P tg st cs0 ctx Hget Hctx _ _ _ _ _ Hg).
  - apply (validRange_focus_P _ pp P tg st cs0 ctx Hget Hctx _ _ _ _ _ _ _ _ Hd Hr').
    rewrite length_app. simpl. lia.
  - exact (orphanTextNode_P _ pp P tg st cs0 ctx Hget Hctx _ _ _ _ _ Hd).
  - exact (wfWorld_focus _ pp P tg st cs0 ctx Hget Hctx _ _ _ _ _ Hg1).
  - apply (validRange_focus_P _ pp P tg st cs0 ctx Hget Hctx _ _ _ _ _ _ _ _ Hd' Hr'').
    rewrite !length_app. lia.
  - exact (orphanTextNode_P _ pp P tg st cs0 ctx Hget Hctx _ _ _ _ _ Hd').
Qed.

Lemma highlight_cycle_keeps_invariants_witness :
  ∃ s1 s2 parent k n,
    highlight "span" yellowBackground (mkSt (helloWorld 2 5) (Selection 0))
    = (inr tt, s1)
    ∧ wfWorld (host s1) = true
    ∧ validRange (host s1) 0 = true
    ∧ ranges (host s1) !! 0 = Some (mkRange parent k parent (S k))
    ∧ orphanTextNode (host s1) parent = false
    ∧ removeHighlight s1 = (inr tt, s2)
    ∧ this s2 = Selection 0
    ∧ wfWorld (host s2) = true
    ∧ validRange (host s2) 0 = true
    ∧ ranges (host s2) !! 0 = Some (mkRange parent k parent (k + n))
    ∧ orphanTextNode (host s2) parent = false.
Proof.
  apply (highlight_cycle_keeps_invariants (helloWorld 2 5) 0 1 2 5); reflexivity.
Defined.

Lemma concatText_cons (x : string) (l : list string) :
  concatText (x :: l) = (x +:+ concatText l)%string.
Proof. done. Qed.

Lemma children_text_wrap A MID B w tag sty :
  concatText (map textContent (A ++ Element w tag sty MID :: B))
  = concatText (map textContent (A ++ MID ++ B)).
Proof.
  rewrite !map_app. cbn [map]. rewrite !concatText_app, concatText_cons.
  done.
Qed.

Lemma children_text_split A0 B0 c d i j n2 MID :
  i ≤ j → j ≤ String.length d →
  concatText (map textContent MID) = String.substring i (j - i) d →
  concatText
    (map textContent
       ((A0 ++ [Text c (String.substring 0 i d)]) ++ MID
        ++ Text n2 (String.substring j (String.length d - j) d) :: B0))
  = concatText (map textContent (A0 ++ Text c d :: B0)).
Proof.
  intros Hij Hj Hmid.
  rewrite !map_app. cbn [map textContent].
  rewrite !concatText_app, !concatText_cons, Hmid. cbn [concatText foldr].
  rewrite string_app_nil_r, string_app_assoc. f_equal.
  rewrite <- !string_app_assoc. f_equal.
  rewrite string_app_assoc.
  pose proof (substring_three d 0 i j (String.length d) ltac:(lia) Hij Hj) as H3.
  rewrite !Nat.sub_0_r in H3. rewrite H3. apply substring_full.
Qed.

Lemma concatText_MID (i j : nat) (n : NodeId) (d : string) :
  concatText
    (map textContent
       (if decide (i = j) then []
        else [Text n (String.substring i (j - i) d)]))
  = String.substring i (j - i) d.
Proof.
  destruct (decide (i = j)) as [->|Hne].
  - by rewrite Nat.sub_diag, substring_zero.
  - cbn [map textContent]. apply concatText_singleton.
Qed.

(** X13.  Neither [highlight] nor a following [removeHighlight] changes the text
    of the document: every tree has the text content it had; the only
    addition, after [removeHighlight], is the detached wrapper, which is
    empty. *)
Theorem highlight_keeps_document_text w r c i j tag decorator :
  wfWorld w = true → validRange w r = true →
  ranges w !! r = Some (mkRange c i c j) →
  orphanTextNode w c = false → validElementName tag = true →
  ∃ s1 s2,
    highlight tag decorator (mkSt w (Selection r)) = (inr tt, s1)
    ∧ map textContent (roots (host s1)) = map textContent (roots w)
    ∧ removeHighlight s1 = (inr tt, s2)
    ∧ map textContent (roots (host s2)) = map textContent (roots w) ++ [EmptyString].
Proof.
  intros Hwf Hvalid Hr Horph Hv.
  destruct (highlight_frame_data w r c i j tag decorator Hwf Hvalid Hr Horph Hv)
    as (pp & P & tg & st & cs0 & ctx & A & MID & B & nx' & RS'
        & Hget & Hctx & Hrun & Hr' & Hg & _ & Hij & Hshape).
  pose proof (Good_Distinct _ pp P tg st cs0 ctx Hget Hctx _ _ _ Hg) as Hd.
  destruct (removeHighlight_wrapper _ pp P tg st cs0 ctx Hget Hctx A MID B [] nx' RS'
              (windowSelection w) (nextId w) tag (decorator []) r Hd Hr')
    as (RS'' & Hrem & _ & _).
  assert (Htext : concatText (map textContent (A ++ MID ++ B))
                  = concatText (map textContent cs0)).
  { destruct Hshape as [(_ & -> & _)|(A0 & B0 & d & -> & Hj & -> & -> & ->)];
      [done|].
    apply children_text_split; [done|done|apply concatText_MID]. }
  eexists _, _. split_and!; [exact Hrun| |exact Hrem|]; cbn [host roots].
  - rewrite (textContent_focus _ pp P tg st cs0 ctx Hget Hctx).
    + apply app_nil_r.
    + by rewrite children_text_wrap.
  - by rewrite (textContent_focus _ pp P tg st cs0 ctx Hget Hctx).
Qed.

Lemma highlight_keeps_document_text_witness :
  ∃ s1 s2,
    highlight "span" yellowBackground (mkSt (helloWorld 2 5) (Selection 0))
    = (inr tt, s1)
    ∧ map textContent (roots (host s1)) = map textContent (roots (helloWorld 2 5))
    ∧ removeHighlight s1 = (inr tt, s2)
    ∧ map textContent (roots (host s2))
      = map textContent (roots (helloWorld 2 5)) ++ [EmptyString].
Proof.
  apply (highlight_keeps_document_text (helloWorld 2 5) 0 1 2 5); reflexivity.
Defined.

Lemma orphanTextNode_element w c t s cs :
  lookupNode w c = Some (Element c t s cs) → orphanTextNode w c = false.
Proof.
  unfold lookupNode, orphanTextNode.
  destruct (findPath c (roots w)) as [[|k [|k' q]]|]; try done.
  simpl. destruct (roots w !! k) as [n|]; [|done]. simpl. by intros [= ->].
Qed.

(** The frame of [highlight_frame_data] seen in the world before the call. *)
Lemma frame_lookups w pp P tg st cs0 ctx :
  wfWorld w = true →
  getAt pp (roots w) = Some (Element P tg st cs0) →
  (∀ f, idsL (modAt pp f (roots w)) ≡ₚ ids (f (Element P tg st cs0)) ++ ctx) →
  lookupNode w P = Some (Element P tg st cs0)
  ∧ ∀ m x, cs0 !! m = Some x → lookupNode w (nid x) = Some x.
Proof.
  intros Hwf Hget Hctx. destruct (wfWorld_inv _ Hwf) as [Hnd Hlt].
  pose proof (frame_Good _ _ _ _ _ _ _ _ Hget Hctx Hnd Hlt) as Hg.
  pose proof (Good_Distinct _ pp P tg st cs0 ctx Hget Hctx _ _ _ Hg) as Hd.
  pose proof (focus_initial _ pp P tg st cs0 ctx Hget Hctx) as Hinit.
  destruct w as [F nx RS ws]. cbn [roots nextId] in *. split.
  - pose proof (lookupNode_P F pp P tg st cs0 ctx Hget Hctx cs0 [] nx RS ws Hd) as H.
    by rewrite Hinit in H.
  - intros m x Hx.
    pose proof (lookupNode_child F pp P tg st cs0 ctx Hget Hctx cs0 [] nx RS ws m x
                  Hd Hx) as H.
    by rewrite Hinit in H.
Qed.

(** X14.  When the container of the range is an element, [highlight] followed by
    [removeHighlight] is an exact round trip: the document is as before,
    with one more parentless node, the emptied wrapper, and the range has
    its old boundary points. *)
Theorem roundtrip_restores_element_container w r c i j tag decorator t s cs :
  wfWorld w = true → validRange w r = true →
  ranges w !! r = Some (mkRange c i c j) →
  lookupNode w c = Some (Element c t s cs) →
  validElementName tag = true →
  ∃ s1 s2,
    highlight tag decorator (mkSt w (Selection r)) = (inr tt, s1)
    ∧ removeHighlight s1 = (inr tt, s2)
    ∧ roots (host s2) = roots w ++ [Element (nextId w) tag (decorator []) []]
    ∧ ranges (host s2) !! r = Some (mkRange c i c j)
    ∧ this s2 = Selection r.
Proof.
  intros Hwf Hvalid Hr Hlook Hv.
  pose proof (orphanTextNode_element _ _ _ _ _ Hlook) as Horph.
  destruct (highlight_frame_data w r c i j tag decorator Hwf Hvalid Hr Horph Hv)
    as (pp & P & tg & st & cs0 & ctx & A & MID & B & nx' & RS'
        & Hget & Hctx & Hrun & Hr' & Hg & _ & Hij & Hshape).
  pose proof (Good_Distinct _ pp P tg st cs0 ctx Hget Hctx _ _ _ Hg) as Hd.
  destruct (removeHighlight_wrapper _ pp P tg st cs0 ctx Hget Hctx A MID B [] nx' RS'
              (windowSelection w) (nextId w) tag (decorator []) r Hd Hr')
    as (RS'' & Hrem & Hr'' & _).
  destruct (frame_lookups w pp P tg st cs0 ctx Hwf Hget Hctx) as [_ Hkids].
  destruct Hshape as [(-> & Hcs0 & HA & HM)|(A0 & B0 & d & Hcs0 & _)].
  - eexists _, _. split_and!; [exact Hrun|exact Hrem| | |done];
      cbn [host roots ranges].
    + pose proof (focus_initial _ pp P tg st cs0 ctx Hget Hctx) as Hinit.
      unfold focus in Hinit |- *. rewrite app_nil_r in Hinit.
      by rewrite <- Hcs0, Hinit.
    + rewrite Hr''. do 2 f_equal; lia.
  - assert (cs0 !! length A0 = Some (Text c d)) as Hx
      by (rewrite Hcs0; by apply list_lookup_middle).
    apply Hkids in Hx. cbn [nid] in Hx. by rewrite Hlook in Hx.
Qed.

Lemma roundtrip_restores_element_container_witness :
  let w := mkWorld [Element 0 "p" [] [Text 1 "hello "; Text 2 "world"]] 3
             [mkRange 0 1 0 2] [0] in
  ∃ s1 s2,
    highlight "span" yellowBackground (mkSt w (Selection 0)) = (inr tt, s1)
    ∧ removeHighlight s1 = (inr tt, s2)
    ∧ roots (host s2) = roots w ++ [Element 3 "span" (yellowBackground []) []]
    ∧ ranges (host s2) !! 0 = Some (mkRange 0 1 0 2)
    ∧ this s2 = Selection 0.
Proof.
  apply (roundtrip_restores_element_container
           (mkWorld [Element 0 "p" [] [Text 1 "hello "; Text 2 "world"]] 3
              [mkRange 0 1 0 2] [0])
           0 0 1 2 "span" yellowBackground "p" [] [Text 1 "hello "; Text 2 "world"]);
    reflexivity.
Defined.

(** X15.  When the container of the range is a text node, [highlight] followed
    by [removeHighlight] does not restore the tree: nothing merges the
    pieces again, so the parent keeps, in place of the text node, the node
    with the data before the range, the extracted text (unless the range
    was collapsed) and a new node with the data after the range; the
    range ends up in the parent, around the extracted text. *)
Theorem roundtrip_leaves_text_node_split w r c i j tag decorator d :
  wfWorld w = true → validRange w r = true →
  ranges w !! r = Some (mkRange c i c j) →
  lookupNode w c = Some (Text c d) → orphanTextNode w c = false →
  validElementName tag = true →
  let MID := if decide (i = j) then []
             else [Text (S (nextId w)) (String.substring i (j - i) d)] in
  ∃ s1 s2 parent tg st A0 B0 n2,
    lookupNode w parent = Some (Element parent tg st (A0 ++ Text c d :: B0))
    ∧ highlight tag decorator (mkSt w (Selection r)) = (inr tt, s1)
    ∧ removeHighlight s1 = (inr tt, s2)
    ∧ lookupNode (host s2) parent
      = Some (Element parent tg st
                (A0 ++ Text c (String.substring 0 i d) :: MID
                 ++ Text n2 (String.substring j (String.length d - j) d) :: B0))
    ∧ ranges (host s2) !! r
      = Some (mkRange parent (S (length A0)) parent (S (length A0) + length MID)).
Proof.
  intros Hwf Hvalid Hr Hlook Horph Hv MID.
  destruct (highlight_frame_data w r c i j tag decorator Hwf Hvalid Hr Horph Hv)
    as (pp & P & tg & st & cs0 & ctx & A & MID' & B & nx' & RS'
        & Hget & Hctx & Hrun & Hr' & Hg & _ & Hij & Hshape).
  pose proof (Good_Distinct _ pp P tg st cs0 ctx Hget Hctx _ _ _ Hg) as Hd.
  destruct (removeHighlight_wrapper _ pp P tg st cs0 ctx Hget Hctx A MID' B [] nx' RS'
              (windowSelection w) (nextId w) tag (decorator []) r Hd Hr')
    as (RS'' & Hrem & Hr'' & Hd').
  destruct (frame_lookups w pp P tg st cs0 ctx Hwf Hget Hctx) as [HP Hkids].
  destruct Hshape as [(-> & _)|(A0 & B0 & d' & Hcs0 & Hj & -> & -> & ->)].
  - by rewrite Hlook in HP.
  - assert (cs0 !! length A0 = Some (Text c d')) as Hx
      by (rewrite Hcs0; by apply list_lookup_middle).
    apply Hkids in Hx. cbn [nid] in Hx. rewrite Hlook in Hx. injection Hx as <-.
    subst cs0. fold MID in Hrem, Hr'', Hd'.
    eexists _, _, P, tg, st, A0, B0, _.
    split_and!; [exact HP|exact Hrun|exact Hrem| |]; cbn [host ranges].
    + rewrite (lookupNode_P _ pp P tg st _ ctx Hget Hctx _ _ _ _ _ Hd').
      by rewrite <- app_assoc.
    + rewrite Hr'', length_app. simpl. do 2 f_equal; lia.
Qed.

Lemma roundtrip_leaves_text_node_split_witness :
  ∃ s1 s2 parent tg st A0 B0 n2,
    lookupNode (helloWorld 2 5) parent
    = Some (Element parent tg st (A0 ++ Text 1 "hello world" :: B0))
    ∧ highlight "span" yellowBackground (mkSt (helloWorld 2 5) (Selection 0))
      = (inr tt, s1)
    ∧ removeHighlight s1 = (inr tt, s2)
    ∧ lookupNode (host s2) parent
      = Some (Element parent tg st
                (A0 ++ Text 1 (String.substring 0 2 "hello world")
                 :: [Text 3 (String.substring 2 (5 - 2) "hello world")]
                 ++ Text n2 (String.substring 5 (11 - 5) "hello world") :: B0))
    ∧ ranges (host s2) !! 0
      = Some (mkRange parent (S (length A0)) parent (S (length A0) + 1)).
Proof.
  apply (roundtrip_leaves_text_node_split (helloWorld 2 5) 0 1 2 5 "span"
           yellowBackground "hello world"); reflexivity.
Defined.

(** ** [process] on a selection inside one node *)







(** X18.  After [snapToWord] on a range between text nodes both ends are at
    word boundaries: the start is at offset 0, or just after a space, or
    was on a space and stayed; the end is at the end of its node or on a
    space. *)
Theorem snapToWord_lands_on_boundaries s rg cs ds ce de :
  validRange (host s) (range (this s)) = true →
  ranges (host s) !! range (this s) = Some rg →
  lookupNode (host s) (startContainer rg) = Some (Text cs ds) →
  lookupNode (host s) (endContainer rg) = Some (Text ce de) →
  ∃ s' start end_,
    snapToWord s = (inr tt, s')
    ∧ ranges (host s') !! range (this s')
      = Some (mkRange (startContainer rg) start (endContainer rg) end_)
    ∧ (start = 0
       ∨ (∃ k, start = S k ∧ spaceAt ds k)
       ∨ (start = startOffset rg ∧ spaceAt ds start))
    ∧ (end_ = String.length de ∨ spaceAt de end_).
Proof.
  intros Hvalid Hr Hs He.
  apply validRange_inv in Hvalid
    as (rg' & ps & pe & sn & en & Hrg & Hps & Hpe & Hsn & Hen & Hso & Heo & Hh & Hord).
  rewrite Hr in Hrg. injection Hrg as <-.
  unfold lookupNode in Hs, He. rewrite Hps in Hs. rewrite Hpe in He.
  simpl in Hs, He. rewrite Hs in Hsn. rewrite He in Hen.
  injection Hsn as <-. injection Hen as <-.
  pose proof (snapToWord_run s rg ps pe _ _ Hr Hps Hpe Hs He Hso Heo Hh Hord) as Hrun.
  cbn [textContent lengthProperty nodeLength] in *.
  eexists _, _, _. split; [exact Hrun|].
  cbn [host this ranges setRanges]. split_and!.
  - apply list_lookup_insert_eq. by eapply lookup_lt_Some.
  - destruct (snapStart_spec ds (startOffset rg)) as (stop & Hstop & _ & Hat & ->).
    destruct (decide (stop ≠ 0 ∧ stop ≠ startOffset rg)) as [[H0 H1]|Hn].
    + right. left. exists stop. split; [done|]. by destruct Hat.
    + destruct (decide (stop = 0)) as [->|H0]; [by left|].
      right. right. assert (stop = startOffset rg) as -> by lia.
      split; [done|]. by destruct Hat.
  - destruct (snapEnd_spec de (Some (String.length de)) (endOffset rg))
      as (_ & _ & Hexit).
    pose proof (snapEnd_le_length (Text ce de) (endOffset rg) Heo) as Hle.
    cbn [textContent lengthProperty nodeLength belowLength] in *.
    set (e := snapEnd de (Some (String.length de)) (endOffset rg)) in *.
    destruct (decide (e = String.length de)) as [|Hlt]; [by left|].
    right. unfold spaceAt in *.
    destruct (decide (String.get e de = Some " "%char)) as [|Hns]; [done|].
    exfalso. apply Hexit. split; [done|lia].
Qed.

Lemma snapToWord_lands_on_boundaries_witness :
  ∃ s' start end_,
    snapToWord (mkSt (helloWorld 8 9) (Selection 0)) = (inr tt, s')
    ∧ ranges (host s') !! range (this s') = Some (mkRange 1 start 1 end_)
    ∧ (start = 0
       ∨ (∃ k, start = S k ∧ spaceAt "hello world" k)
       ∨ (start = 8 ∧ spaceAt "hello world" start))
    ∧ (end_ = String.length "hello world" ∨ spaceAt "hello world" end_).
Proof.
  apply (snapToWord_lands_on_boundaries (mkSt (helloWorld 8 9) (Selection 0))
           (mkRange 1 8 1 9) 1 "hello world" 1 "hello world"); reflexivity.
Defined.


